(** * Personal-Image-Compressor: the compression pipeline of [src/App.tsx]

    A shallow embedding of the functions of [App.tsx] that decide what the
    page produces: [processImage] (down-scaling, the quality search and the
    fall-back to the original file), [onDrop] (the batch join), and the two
    display helpers [formatSize] and [calculateTotalSavings].

    JavaScript Numbers are IEEE-754 binary64 values; they are modelled by the
    kernel's primitive floats, so that [0.8 - 0.1] is the JavaScript
    [0.7000000000000001] and not the rational 7/10.  Numbers that the program
    only ever uses as integers (byte counts, pixel widths) are modelled in
    [Z]; they stay far below 2^53, where binary64 arithmetic on integers is
    exact. *)

From Stdlib Require Import ZArith Floats String Ascii List Lia Bool.
From Stdlib Require Import Numbers.DecimalString.
From Stdlib Require Init.Byte.
From stdpp Require Import base option list gmap strings.
Import ListNotations.

Set Warnings "-inexact-float".
Local Open Scope string_scope.
Local Open Scope Z_scope.

(** ** JavaScript Numbers *)

Module Number.

(** The Number nearest to the integer [z] (exact below 2^53). *)
Definition of_Z (z : Z) : float :=
  SF2Prim (binary_normalize prec emax z 0 false).

(** The Number nearest to the rational [num / den], for [0 <= num] and
    [0 < den]: the quotient is taken with at least 64 significant bits
    and a sticky last bit, and then rounded to nearest-even once. *)
Definition of_ratio (num den : Z) : float :=
  if num =? 0 then 0%float else
  let p := Z.max 0 (64 + Z.log2 den - Z.log2 num) in
  let q := (num * 2 ^ p) / den in
  let r := (num * 2 ^ p) mod den in
  let m := 2 * q + (if r =? 0 then 0 else 1) in
  SF2Prim (binary_normalize prec emax m (- p - 1) false).

Definition is_finite (x : float) : bool :=
  match Prim2SF x with
  | S754_zero _ | S754_finite _ _ _ => true
  | _ => false
  end.

Definition is_negative (x : float) : bool :=
  match Prim2SF x with
  | S754_finite true _ _ => true
  | _ => false
  end.

(** The magnitude of a finite Number as an exact fraction
    [(numerator, denominator)]. *)
Definition magnitude (x : float) : Z * Z :=
  match Prim2SF x with
  | S754_finite _ m e =>
      if 0 <=? e then (Z.pos m * 2 ^ e, 1) else (Z.pos m, 2 ^ (- e))
  | _ => (0, 1)
  end.

(** Truncation towards zero; NaN and the infinities give 0
    (ECMA-262 ToIntegerOrInfinity followed by the WebIDL rule for
    non-finite values). *)
Definition trunc (x : float) : Z :=
  let '(n, d) := magnitude x in
  if is_negative x then - (n / d) else n / d.

(** WebIDL conversion of a Number to [unsigned long]. *)
Definition ToUint32 (x : float) : Z := trunc x mod 2 ^ 32.

Definition digits (n : Z) : string :=
  NilEmpty.string_of_uint (N.to_uint (Z.to_N n)).

Fixpoint zeros (n : nat) : string :=
  match n with
  | O => ""
  | S n' => String "0" (zeros n')
  end.

(** [n / 10^f] written with exactly [f] fraction digits. *)
Definition fixed_digits (f : nat) (n : Z) : string :=
  let m := if n =? 0 then "0" else digits n in
  match f with
  | O => m
  | _ =>
      let k := String.length m in
      let m := if (k <=? f)%nat then (zeros (f + 1 - k) ++ m)%string else m in
      let k := String.length m in
      (substring 0 (k - f) m ++ "." ++ substring (k - f) f m)%string
  end.

(** The integer [n] for which [n / 10^f - x] is closest to zero, the
    larger one when there are two. *)
Definition nearest_scaled (f : nat) (num den : Z) : Z :=
  (2 * num * 10 ^ Z.of_nat f + den) / (2 * den).


(** *** Number::toString (ECMA-262 6.1.6.1.20), radix 10

    The digits are the shortest decimal that reads back as the same
    Number; among the candidates of that length the one closest to the
    Number is taken. *)

(** For [0 < num/den < 1]: minus the number of zeros after the point. *)
Fixpoint fraction_exponent (fuel : nat) (num den j : Z) : Z :=
  match fuel with
  | O => j
  | S fuel' =>
      if den <=? num * 10 then j
      else fraction_exponent fuel' (num * 10) den (j - 1)
  end.

(** The [n] with [10^(n-1) <= num/den < 10^n], for [0 < num/den]. *)
Definition decimal_exponent (num den : Z) : Z :=
  if den <=? num then Z.of_nat (String.length (digits (num / den)))
  else fraction_exponent 400 num den 0.

(** [s * 10^e] as a fraction. *)
Definition scale10 (s e : Z) : Z * Z :=
  if 0 <=? e then (s * 10 ^ e, 1) else (s, 10 ^ (- e)).

Definition reads_back (x : float) (s e : Z) : bool :=
  let '(n, d) := scale10 s e in PrimFloat.eqb (of_ratio n d) x.

(** The [k]-digit candidate for [x = num/den], if there is one:
    [Some (s, n)] with [s * 10^(n-k)] reading back as [x]. *)
Definition candidate (x : float) (num den n0 k : Z) : option (Z * Z) :=
  let '(a, b) := (if 0 <=? k - n0 then (num * 10 ^ (k - n0), den)
                  else (num, den * 10 ^ (n0 - k))) in
  let lo := a / b in
  let hi := lo + 1 in
  let ok_lo := (10 ^ (k - 1) <=? lo) && reads_back x lo (n0 - k) in
  let ok_hi := reads_back x hi (n0 - k) in
  let closer_lo :=
    (2 * a <? (2 * lo + 1) * b) || ((2 * a =? (2 * lo + 1) * b) && Z.even lo) in
  let pick (s : Z) := if s =? 10 ^ k then (10 ^ (k - 1), n0 + 1) else (s, n0) in
  if ok_lo && (negb ok_hi || closer_lo) then Some (pick lo)
  else if ok_hi then Some (pick hi)
  else None.

Fixpoint shortest (fuel : nat) (x : float) (num den n0 k : Z) : Z * Z * Z :=
  match fuel with
  | O => (num * 10 ^ (k - n0) / den, k, n0)
  | S fuel' =>
      match candidate x num den n0 k with
      | Some (s, n) => (s, k, n)
      | None => shortest fuel' x num den n0 (k + 1)
      end
  end.

Definition format_digits (s k n : Z) : string :=
  let d := digits s in
  if (-5 <=? n) && (n <=? 21) then
    if k <=? n then (d ++ zeros (Z.to_nat (n - k)))%string
    else if 0 <? n then
      (substring 0 (Z.to_nat n) d ++ "."
         ++ substring (Z.to_nat n) (Z.to_nat (k - n)) d)%string
    else ("0." ++ zeros (Z.to_nat (- n)) ++ d)%string
  else
    let e := n - 1 in
    let sign := if 0 <=? e then "+" else "-" in
    if k =? 1 then (d ++ "e" ++ sign ++ digits (Z.abs e))%string
    else (substring 0 1 d ++ "." ++ substring 1 (Z.to_nat (k - 1)) d
            ++ "e" ++ sign ++ digits (Z.abs e))%string.

Definition toString (x : float) : string :=
  match Prim2SF x with
  | S754_nan => "NaN"
  | S754_zero _ => "0"
  | S754_infinity sg => if sg then "-Infinity" else "Infinity"
  | S754_finite sg _ _ =>
      let '(num, den) := magnitude x in
      let '(s, k, n) :=
        shortest 17 (PrimFloat.abs x) num den (decimal_exponent num den) 1 in
      ((if sg then "-" else "") ++ format_digits s k n)%string
  end.

(** *** Number.prototype.toFixed (ECMA-262 21.1.3.3) *)
Definition toFixed (x : float) (f : nat) : string :=
  if negb (is_finite x) then toString x else
  let '(num, den) := magnitude x in
  let s := if is_negative x then "-" else "" in
  if 10 ^ 21 * den <=? num then (s ++ toString (PrimFloat.abs x))%string
  else (s ++ fixed_digits f (nearest_scaled f num den))%string.

(** *** parseFloat (ECMA-262 19.2.4): the longest prefix that is a
    StrDecimalLiteral, after leading white space *)

Definition digit_of (c : ascii) : option Z :=
  let n := Z.of_nat (nat_of_ascii c) in
  if (48 <=? n) && (n <=? 57) then Some (n - 48) else None.

Fixpoint take_digits (s : string) (acc : Z) (cnt : nat) : Z * nat * string :=
  match s with
  | String c s' =>
      match digit_of c with
      | Some d => take_digits s' (acc * 10 + d) (S cnt)
      | None => (acc, cnt, s)
      end
  | EmptyString => (acc, cnt, s)
  end.

Definition is_white_space (c : ascii) : bool :=
  let n := nat_of_ascii c in
  ((9 <=? n) && (n <=? 13))%nat || (n =? 32)%nat.

Fixpoint trim_start (s : string) : string :=
  match s with
  | String c s' => if is_white_space c then trim_start s' else s
  | EmptyString => s
  end.

Definition take_sign (s : string) : bool * string :=
  match s with
  | String "-" s' => (true, s')
  | String "+" s' => (false, s')
  | _ => (false, s)
  end.

(** ExponentPart, when it is there: [e] or [E], a sign, at least one digit. *)
Definition exponent_part (s : string) : Z :=
  match s with
  | String c s' =>
      if (Ascii.eqb c "e" || Ascii.eqb c "E")%bool then
        let '(neg, s'') := take_sign s' in
        let '(e, cnt, _) := take_digits s'' 0 0 in
        if (cnt =? 0)%nat then 0 else if neg then - e else e
      else 0
  | EmptyString => 0
  end.

Definition parseFloat (input : string) : float :=
  let '(neg, s) := take_sign (trim_start input) in
  let signed (x : float) := if neg then PrimFloat.opp x else x in
  if String.prefix "Infinity" s then signed infinity else
  let '(ip, ni, r1) := take_digits s 0 0 in
  let '(m, nf, r2) :=
    match r1 with
    | String "." r => take_digits r ip 0
    | _ => (ip, O, r1)
    end in
  if (ni + nf =? 0)%nat then nan else
  let '(num, den) := scale10 m (exponent_part r2 - Z.of_nat nf) in
  signed (of_ratio num den).

End Number.


(** ** The data of [App.tsx] *)

(** A data: URL, as produced by [FileReader.readAsDataURL] and
    [canvas.toDataURL]: a media type and the bytes that the base64 text
    after the comma stands for. *)
Module DataURL.
Record t := { mediaType : string; body : list Byte.byte }.
End DataURL.

(** A dropped [File]: [size] is the length of its byte sequence. *)
Module File.
Record t := { name : string; type : string; bytes : list Byte.byte }.
Definition size (f : t) : Z := Z.of_nat (length (bytes f)).
End File.

Module Blob.
Record t := { type : string; bytes : list Byte.byte }.
Definition size (b : t) : Z := Z.of_nat (length (bytes b)).
End Blob.

(** A decoded [HTMLImageElement]: its intrinsic width and height. *)
Module Image.
Record t := { width : Z; height : Z }.
End Image.

(** The off-screen canvas: its bitmap dimensions and the one
    [drawImage(img, 0, 0, width, height)] call painted on it. *)
Module Canvas.
Record t := {
  width : Z;
  height : Z;
  source : Image.t;
  drawn_width : float;
  drawn_height : float
}.

(** Assignment to [canvas.width] / [canvas.height]: the Number is converted
    to [unsigned long], and a value above 2147483647 is replaced by the
    attribute's default. *)
Definition dimension (default : Z) (v : float) : Z :=
  let n := Number.ToUint32 v in
  if n <=? 2147483647 then n else default.
End Canvas.

(** [interface ProcessedImage] *)
Module ProcessedImage.
Record t := {
  name : string;
  url : DataURL.t;
  size : Z;
  originalSize : Z
}.
End ProcessedImage.

(** A promise that has been left to run: it is resolved with a value, or
    it stays pending for ever.  Nothing in [App.tsx] rejects a promise. *)
Module Promise.
Inductive t (A : Type) : Type :=
| Resolved (a : A)
| Pending.
Arguments Resolved {A} a.
Arguments Pending {A}.

(** *** [Promise.all]

    [values] has one slot per input promise and [remaining] counts the
    slots still empty.  When the promise at index [i] resolves, its value
    is written at index [i], once; when the count reaches zero the
    combined promise resolves with [values]. *)
Record all_state (A : Type) := {
  values : list (option A);
  remaining : nat
}.
Arguments values {A} _.
Arguments remaining {A} _.

Definition all_init {A} (n : nat) : all_state A :=
  {| values := replicate n None; remaining := n |}.

Definition all_settle {A} (ps : list (t A)) (st : all_state A) (i : nat)
  : all_state A :=
  match ps !! i, values st !! i with
  | Some (Resolved v), Some None =>
      {| values := <[i := Some v]> (values st);
         remaining := pred (remaining st) |}
  | _, _ => st
  end.

(** [order] lists the indices of the input promises in the order in which
    their reactions run. *)
Definition all_run {A} (ps : list (t A)) (order : list nat) : all_state A :=
  fold_left (all_settle ps) order (all_init (length ps)).

Definition all {A} (ps : list (t A)) (order : list nat) : t (list A) :=
  let st := all_run ps order in
  match remaining st with
  | O => Resolved (omap id (values st))
  | S _ => Pending
  end.
End Promise.

(** ** [file.name.replace(/\.[^/.]+$/, '')] *)

(** [[^/.]*$] *)
Fixpoint class_to_end (s : string) : bool :=
  match s with
  | EmptyString => true
  | String c s' =>
      negb (Ascii.eqb c "/" || Ascii.eqb c ".") && class_to_end s'
  end.

(** The regular expression matches at the start of [s]: a dot, then at
    least one character, none of them a slash or a dot, up to the end. *)
Definition extension_at (s : string) : bool :=
  match s with
  | String "." rest =>
      match rest with
      | EmptyString => false
      | _ => class_to_end rest
      end
  | _ => false
  end.

(** The leftmost match is replaced by the empty string; as the match
    runs to the end of the name, what is left is the text before it. *)
Fixpoint replace_extension (s : string) : string :=
  if extension_at s then ""
  else match s with
       | String c s' => String c (replace_extension s')
       | EmptyString => ""
       end.

(** ** [processImage] and [onDrop] *)

(** The state of the quality search: the three variables of the loop,
    and the list of the quality values that [canvas.toDataURL] has been
    called with so far, oldest first. *)
Record search := {
  quality : float;
  webpUrl : DataURL.t;
  blob : Blob.t;
  encodes : list float
}.

(** The React state of [App]. *)
Record AppState := {
  processedImages : list ProcessedImage.t;
  isProcessing : bool
}.

Definition setProcessedImages (v : list ProcessedImage.t) (st : AppState)
  : AppState :=
  {| processedImages := v; isProcessing := isProcessing st |}.

Definition setIsProcessing (v : bool) (st : AppState) : AppState :=
  {| processedImages := processedImages st; isProcessing := v |}.

Section Pipeline.

(** The browser's image decoder: [None] when the bytes are not an image
    the browser can decode, in which case the [load] event never fires. *)
Variable decode : DataURL.t -> option Image.t.

(** The browser's encoder, [canvas.toDataURL(type, quality)]. *)
Variable toDataURL : Canvas.t -> string -> float -> DataURL.t.

(** [reader.readAsDataURL(file)], delivered as [e.target.result]: the
    bytes of the file under its media type, or under
    [application/octet-stream] when the file has no type. *)
Definition readAsDataURL (file : File.t) : DataURL.t :=
  {| DataURL.mediaType :=
       if String.eqb (File.type file) "" then "application/octet-stream"
       else File.type file;
     DataURL.body := File.bytes file |}.

(** [await (await fetch(url)).blob()] on a data: URL. *)
Definition fetch_blob (url : DataURL.t) : Blob.t :=
  {| Blob.type := DataURL.mediaType url; Blob.bytes := DataURL.body url |}.

(** Lines 23-37: the canvas, resized when the image is wider than 1600. *)
Definition render (img : Image.t) : Canvas.t :=
  let width := Image.width img in
  let height := Image.height img in
  let '(width, height) :=
    if 1600 <? width then
      let ratio := (1600 / Number.of_Z width)%float in
      (1600%float, (Number.of_Z height * ratio)%float)
    else (Number.of_Z width, Number.of_Z height) in
  {| Canvas.width := Canvas.dimension 300 width;
     Canvas.height := Canvas.dimension 150 height;
     Canvas.source := img;
     Canvas.drawn_width := width;
     Canvas.drawn_height := height |}.

(** One encode: [toDataURL], [fetch], [blob]. *)
Definition encode (canvas : Canvas.t) (q : float) (done : list float) : search :=
  let url := toDataURL canvas "image/webp" q in
  {| quality := q; webpUrl := url; blob := fetch_blob url;
     encodes := done ++ [q] |}.

(** The guard of the [while] loop, line 46. *)
Definition continue (file : File.t) (s : search) : bool :=
  (File.size file <? Blob.size (blob s)) && (0.1 <? quality s)%float.

(** Lines 46-51; [None] when [fuel] iterations were not enough. *)
Fixpoint adjust (fuel : nat) (canvas : Canvas.t) (file : File.t) (s : search)
  : option search :=
  if continue file s then
    match fuel with
    | O => None
    | S fuel' =>
        adjust fuel' canvas file
          (encode canvas (quality s - 0.1)%float (encodes s))
    end
  else Some s.

(** Lines 40-51: the search from quality 0.8. *)
Definition quality_search (canvas : Canvas.t) (file : File.t) : option search :=
  adjust 8 canvas file (encode canvas 0.8%float []).

(** Lines 53-68: keep the original or take the re-encoded image. *)
Definition choose (file : File.t) (s : search) : ProcessedImage.t :=
  if File.size file <=? Blob.size (blob s) then
    {| ProcessedImage.name := File.name file;
       ProcessedImage.url := readAsDataURL file;
       ProcessedImage.size := File.size file;
       ProcessedImage.originalSize := File.size file |}
  else
    {| ProcessedImage.name :=
         (replace_extension (File.name file) ++ "-optimized.webp")%string;
       ProcessedImage.url := webpUrl s;
       ProcessedImage.size := Blob.size (blob s);
       ProcessedImage.originalSize := File.size file |}.

(** [processImage]: the promise is resolved from inside [img.onload] and
    nowhere else.  The search always returns ([quality_search_spec]
    below), so the inner [Pending] is never reached. *)
Definition processImage (file : File.t) : Promise.t ProcessedImage.t :=
  match decode (readAsDataURL file) with
  | None => Promise.Pending
  | Some img =>
      match quality_search (render img) file with
      | Some s => Promise.Resolved (choose file s)
      | None => Promise.Pending
      end
  end.

(** [onDrop]: what follows the [await] runs only if [Promise.all]
    resolves.  [order] is the order in which the pipelines complete. *)
Definition onDrop (order : list nat) (acceptedFiles : list File.t)
  (st : AppState) : AppState :=
  let st := setIsProcessing true st in
  match Promise.all (map processImage acceptedFiles) order with
  | Promise.Resolved processed =>
      setIsProcessing false (setProcessedImages processed st)
  | Promise.Pending => st
  end.

End Pipeline.

(** ** The display helpers

    [formatSize] takes the unit from [Math.floor(Math.log(bytes) /
    Math.log(k))].  ECMA-262 (21.3.2.20) leaves [Math.log]
    implementation-approximated: it fixes the results at NaN, 1, the zeros
    and infinity, and asks for an approximation elsewhere.  The logarithm
    is therefore a parameter [Math_log] of the model, the rest is what
    binary64 gives: the division of the two logarithms, [Math.floor] of
    the quotient, the use of that Number as an exponent and as an array
    index. *)

Module Platform.

(** [Math.floor]: the largest integral Number that is not above [x]; NaN,
    the zeros and the infinities are returned as they are. *)
Definition Math_floor (x : float) : float :=
  match Prim2SF x with
  | S754_finite s m e =>
      if 0 <=? e then x
      else
        let d := 2 ^ (- e) in
        if s then Number.of_Z (- ((Z.pos m + d - 1) / d))
        else Number.of_Z (Z.pos m / d)
  | _ => x
  end.

Definition is_integer (x : float) : bool :=
  let '(n, d) := Number.magnitude x in n mod d =? 0.

(** [Math.pow(k, i)] for [1 < k] and an exponent that is integral, NaN or
    infinite, which is what [Math.floor] returns. *)
Definition Math_pow (k : Z) (i : float) : float :=
  match Prim2SF i with
  | S754_nan => nan
  | S754_infinity false => infinity
  | S754_infinity true => 0
  | _ =>
      let n := Number.trunc i in
      if 0 <=? n then Number.of_Z (k ^ n) else Number.of_ratio 1 (k ^ (- n))
  end.

(** [sizes[i]] followed by its conversion to a string.  The property key
    is [ToString(i)]: an array element for an integral [i] from 0 (or -0)
    below the length, and no property at all, hence [undefined], for
    every other Number. *)
Definition element (sizes : list string) (i : float) : string :=
  if Number.is_finite i && is_integer i && negb (Number.is_negative i) then
    match sizes !! Z.to_nat (Number.trunc i) with
    | Some u => u
    | None => "undefined"
    end
  else "undefined".

Section Log.

Variable Math_log : float -> float.

(** The index [i] of [formatSize] (line 117). *)
Definition size_index (bytes : Z) : float :=
  Math_floor (Math_log (Number.of_Z bytes) / Math_log 1024)%float.

(** [formatSize] (lines 113-119). *)
Definition formatSize (bytes : Z) : string :=
  if bytes =? 0 then "0 Bytes" else
  let k := 1024 in
  let sizes := ["Bytes"; "KB"; "MB"] in
  let i := Math_floor (Math_log (Number.of_Z bytes) / Math_log (Number.of_Z k))%float in
  (Number.toString
     (Number.parseFloat
        (Number.toFixed (Number.of_Z bytes / Math_pow k i)%float 2))
   ++ " " ++ element sizes i)%string.

End Log.

End Platform.

(** *** The display helpers where the index is the exact one

    [Math_floor_log x k] is [Math.floor(Math.log(x) / Math.log(k))] on a
    platform where the quotient of the two logarithms floors to the
    integer logarithm itself: for [x > 0] the integer [i] with
    [k^i <= x < k^(i+1)], found by repeated division.  For [x <= 0] the
    quotient is not a finite Number ([None]).  [formatSize] below is
    [Platform.formatSize] for such a platform
    ([formatSize_exact_index]); it is what [App] is rendered with. *)
Fixpoint floor_log_from (fuel : nat) (k x : Z) : Z :=
  match fuel with
  | O => 0
  | S fuel' => if x <? k then 0 else 1 + floor_log_from fuel' k (x / k)
  end.

Definition Math_floor_log (x k : Z) : option Z :=
  if 0 <? x then Some (floor_log_from (S (Z.to_nat (Z.log2 x))) k x)
  else None.

(** [Math.pow(k, i)] for an integer exponent; NaN for a NaN exponent. *)
Definition Math_pow (k : Z) (i : option Z) : float :=
  match i with
  | Some n => if 0 <=? n then Number.of_Z (k ^ n) else Number.of_ratio 1 (k ^ (- n))
  | None => nan
  end.

(** [sizes[i]] followed by its conversion to a string: an index outside
    the array reads [undefined]. *)
Definition element (sizes : list string) (i : option Z) : string :=
  match i with
  | Some n =>
      if 0 <=? n then
        match sizes !! Z.to_nat n with
        | Some u => u
        | None => "undefined"
        end
      else "undefined"
  | None => "undefined"
  end.

Definition formatSize (bytes : Z) : string :=
  if bytes =? 0 then "0 Bytes" else
  let k := 1024 in
  let sizes := ["Bytes"; "KB"; "MB"] in
  let i := Math_floor_log bytes k in
  (Number.toString
     (Number.parseFloat
        (Number.toFixed (Number.of_Z bytes / Math_pow k i)%float 2))
   ++ " " ++ element sizes i)%string.

Definition calculateTotalSavings (processedImages : list ProcessedImage.t)
  : string :=
  let totalOriginal :=
    fold_left (fun acc img => acc + ProcessedImage.originalSize img)
      processedImages 0 in
  let totalCompressed :=
    fold_left (fun acc img => acc + ProcessedImage.size img)
      processedImages 0 in
  let savings :=
    Number.toFixed
      (Number.of_Z (totalOriginal - totalCompressed)
         / Number.of_Z totalOriginal * 100)%float 1 in
  savings.

(** ** [downloadAll] (lines 92-100)

    A JSZip archive holds its entries by name: files with their data,
    and folders.  [zip.file(name, data)] first makes sure that the folder
    of [name] is there (JSZip's [createFolders], on by default), which in
    turn makes sure of the folder above it, and then writes the file
    entry under [name], replacing what was there. *)
Inductive ZipEntry :=
| ZipFile (data : list Byte.byte)
| ZipFolder.

(** [path.slice(-1) === "/"] *)
Fixpoint ends_with_slash (path : string) : bool :=
  match path with
  | EmptyString => false
  | String c EmptyString => Ascii.eqb c "/"
  | String _ rest => ends_with_slash rest
  end.

(** [path.lastIndexOf("/")]; [None] for -1. *)
Fixpoint lastIndexOf_slash (path : string) : option nat :=
  match path with
  | EmptyString => None
  | String c rest =>
      match lastIndexOf_slash rest with
      | Some i => Some (S i)
      | None => if Ascii.eqb c "/" then Some O else None
      end
  end.

(** JSZip's [parentFolder]: the path up to its last slash, a slash at
    the very end or at the very start not counting; [""] when there is no
    folder. *)
Definition parentFolder (path : string) : string :=
  let path :=
    if ends_with_slash path then substring 0 (String.length path - 1) path
    else path in
  match lastIndexOf_slash path with
  | Some (S i) => substring 0 (S i) path
  | _ => ""
  end.

Definition forceTrailingSlash (path : string) : string :=
  if ends_with_slash path then path else (path ++ "/")%string.

(** JSZip's [folderAdd]: nothing when the folder entry exists, else the
    folders above it and then the entry.  Each call is on a shorter
    path; [fuel] bounds the depth. *)
Fixpoint folderAdd (fuel : nat) (name : string) (zip : gmap string ZipEntry)
  : gmap string ZipEntry :=
  let name := forceTrailingSlash name in
  match zip !! name with
  | Some _ => zip
  | None =>
      let parent := parentFolder name in
      let zip :=
        match fuel with
        | S fuel' => if String.eqb parent "" then zip else folderAdd fuel' parent zip
        | O => zip
        end in
      <[name := ZipFolder]> zip
  end.

Definition zip_file (name : string) (data : list Byte.byte)
  (zip : gmap string ZipEntry) : gmap string ZipEntry :=
  let parent := parentFolder name in
  let zip :=
    if String.eqb parent "" then zip
    else folderAdd (String.length name) parent zip in
  <[name := ZipFile data]> zip.

(** [image.url.split(',')[1]], which JSZip reads as base64: the bytes
    that the data URL of the image stands for. *)
Definition base64Data (image : ProcessedImage.t) : list Byte.byte :=
  DataURL.body (ProcessedImage.url image).

(** The archive that [downloadAll] hands to [zip.generateAsync]. *)
Definition downloadAll (processedImages : list ProcessedImage.t)
  : gmap string ZipEntry :=
  fold_left
    (fun zip image => zip_file (ProcessedImage.name image) (base64Data image) zip)
    processedImages empty.

(** ** What [App] renders (lines 151-208) *)

(** One [<li>]: the thumbnail, the name, the two sizes and the download
    link. *)
Record Item := {
  thumbnail : DataURL.t;
  title : string;
  originalText : string;
  compressedText : string;
  href : DataURL.t;
  download : string
}.

(** The results block: the count in its heading, the text before the
    percent sign, and the list. *)
Record Panel := {
  count : nat;
  saved : string;
  items : list Item
}.

Record View := {
  spinner : bool;
  panel : option Panel
}.

Definition view_item (image : ProcessedImage.t) : Item :=
  {| thumbnail := ProcessedImage.url image;
     title := ProcessedImage.name image;
     originalText := formatSize (ProcessedImage.originalSize image);
     compressedText := formatSize (ProcessedImage.size image);
     href := ProcessedImage.url image;
     download := ProcessedImage.name image |}.

(** The spinner is rendered under [isProcessing], the results block under
    [processedImages.length > 0 && !isProcessing]. *)
Definition view (st : AppState) : View :=
  {| spinner := isProcessing st;
     panel :=
       if (0 <? length (processedImages st))%nat && negb (isProcessing st) then
         Some {| count := length (processedImages st);
                 saved := calculateTotalSavings (processedImages st);
                 items := map view_item (processedImages st) |}
       else None |}.

(** ** Definitions used to state the properties *)

(** The quality values that the search can pass to the encoder, in order:
    0.8 and the results of subtracting 0.1 from it again and again in
    binary64. *)
Definition quality_schedule : list float :=
  [0.8; 0.7000000000000001; 0.6000000000000001; 0.5000000000000001;
   0.40000000000000013; 0.30000000000000016; 0.20000000000000015;
   0.10000000000000014; 1.3877787807814457e-16]%float.

Definition scheduled (n : nat) : float := nth n quality_schedule nan.

(** The eight quality values that the loop is written to reach: 0.8 and
    seven steps of 0.1 down, the last one at about 0.1, where the guard
    [quality > 0.1] is meant to end the descent. *)
Definition designed_schedule : list float :=
  [0.8; 0.7000000000000001; 0.6000000000000001; 0.5000000000000001;
   0.40000000000000013; 0.30000000000000016; 0.20000000000000015;
   0.10000000000000014]%float.

(** The byte size of the encoding of [canvas] at quality [q]. *)
Definition encoded_size (toDataURL : Canvas.t -> string -> float -> DataURL.t)
  (canvas : Canvas.t) (q : float) : Z :=
  Blob.size (fetch_blob (toDataURL canvas "image/webp" q)).

(** [n] quality values, from [q] down in steps of 0.1. *)
Fixpoint descend (n : nat) (q : float) : list float :=
  match n with
  | O => []
  | S n' => q :: descend n' (q - 0.1)%float
  end.

(** The search is at its [n]-th re-encode: the loop variables hold the
    [n]-th scheduled quality and its encoding, and the encoder has been
    called with the scheduled values up to that one. *)
Definition search_at (toDataURL : Canvas.t -> string -> float -> DataURL.t)
  (canvas : Canvas.t) (n : nat) (s : search) : Prop :=
  quality s = scheduled n
  /\ encodes s = take (S n) quality_schedule
  /\ webpUrl s = toDataURL canvas "image/webp" (quality s)
  /\ blob s = fetch_blob (webpUrl s).

(** The number of empty slots of [Promise.all]. *)
Fixpoint empty_slots {A} (l : list (option A)) : nat :=
  match l with
  | [] => O
  | None :: l' => S (empty_slots l')
  | Some _ :: l' => empty_slots l'
  end.

(** What [Promise.all] keeps true while reactions run: one slot per
    promise, [remaining] counting the empty ones, and a filled slot
    holding the value its own promise resolved with. *)
Definition all_invariant {A} (ps : list (Promise.t A)) (st : Promise.all_state A)
  : Prop :=
  length (Promise.values st) = length ps
  /\ Promise.remaining st = empty_slots (Promise.values st)
  /\ (forall i v, Promise.values st !! i = Some (Some v) ->
        ps !! i = Some (Promise.Resolved v)).

(** [round(a / b)] for [0 <= a] and [0 < b], halves rounded up. *)
Definition round_div (a b : Z) : Z := (2 * a + b) / (2 * b).

(** The sum of a field over a result list. *)
Definition total (field : ProcessedImage.t -> Z) (l : list ProcessedImage.t) : Z :=
  foldr (fun img acc => field img + acc) 0 l.

(** A name without a slash: the name of a file that was dropped or
    picked is one (it is the last component of its path). *)
Fixpoint slash_free (name : string) : bool :=
  match name with
  | EmptyString => true
  | String c rest => negb (Ascii.eqb c "/") && slash_free rest
  end.

(** Rounding [a / b] to an integer under a fixed rule for the case that
    [a / b] lies exactly halfway between two integers. *)
Inductive tie_rule := ties_up | ties_down | ties_to_even.

Definition round_with (rule : tie_rule) (a b : Z) : Z :=
  let q := a / b in
  match 2 * (a mod b) ?= b with
  | Lt => q
  | Gt => q + 1
  | Eq =>
      match rule with
      | ties_up => q + 1
      | ties_down => q
      | ties_to_even => if Z.even q then q else q + 1
      end
  end.

(** [100 * (totalOriginal - totalFinal) / totalOriginal], rounded to one
    decimal place under [rule] and written with one digit after the
    point. *)
Definition savings_rounded (rule : tie_rule) (l : list ProcessedImage.t) : string :=
  Number.fixed_digits 1
    (round_with rule
       (1000 * (total ProcessedImage.originalSize l - total ProcessedImage.size l))
       (total ProcessedImage.originalSize l)).

(** *** Rounding

    What the rounding of [SpecFloat] does to a mantissa: the record of a
    right shift is exact when no non-zero bit has been shifted out. *)
Definition shr_exact (mrs : shr_record) : Prop :=
  shr_r mrs = false /\ shr_s mrs = false.

(** [y] is [x] shifted right by [k] bits. *)
Definition shifted_right (k : Z) (x y : shr_record) : Prop :=
  0 <= shr_m x
  /\ shr_m y = shr_m x / 2 ^ k
  /\ (shr_exact y <-> shr_exact x /\ shr_m x mod 2 ^ k = 0).

(** [x] is a finite Number with [0 <= x <= Y]. *)
Definition bounded_by (x : float) (Y : Z) : Prop :=
  Prim2SF x = S754_zero false
  \/ exists m e,
       Prim2SF x = S754_finite false m e /\ e <= 0 /\ Z.pos m <= Y * 2 ^ (- e).

(** *** Numbers as exact values

    [rne n d] is the integer nearest to [n / d], the even one of two. *)
Definition rne (n d : Z) : Z :=
  let q := n / d in
  match 2 * (n mod d) ?= d with
  | Lt => q
  | Gt => q + 1
  | Eq => if Z.even q then q else q + 1
  end.

(** The record of a shifted mantissa holds [n / d]: its integer part, the
    bit below it and whether anything is left below that bit. *)
Definition locates (n d : Z) (mrs : shr_record) : Prop :=
  shr_m mrs = n / d
  /\ shr_r mrs = (d <=? 2 * (n mod d))
  /\ shr_s mrs = negb ((n mod d =? 0) || (2 * (n mod d) =? d)).

(** The Number that rounding makes of the integer mantissa [M] at the
    exponent [E]. *)
Definition round_finish (s : bool) (M E : Z) : spec_float :=
  let '(mrs, e) := shr_fexp prec emax M E loc_Exact in
  match shr_m mrs with
  | Z0 => S754_zero s
  | Zpos m => if e <=? emax - prec then S754_finite s m e else S754_infinity s
  | Zneg _ => S754_nan
  end.

(** Values are scaled by [2 ^ bias], which makes every finite Number an
    integer. *)
Definition bias : Z := 4000.

(** The value of a Number that is zero or positive and finite, as the
    integer [value * 2^bias]. *)
Definition scaled (x : float) : option Z :=
  match Prim2SF x with
  | S754_zero _ => Some 0
  | S754_finite false m e => Some (Z.pos m * 2 ^ (e + bias))
  | _ => None
  end.

(** What the properties of [formatSize] ask of [Math.log]: the result at
    1 that ECMA-262 fixes, results that do not decrease where the
    argument grows, over the integers that a Number holds exactly, and a
    positive finite logarithm of 1024. *)
Definition log_platform (Math_log : float -> float) : Prop :=
  Math_log 1%float = 0%float
  /\ (forall x y : Z, 1 <= x -> x <= y -> y < 2 ^ 53 ->
        (Math_log (Number.of_Z x) <=? Math_log (Number.of_Z y))%float = true)
  /\ (0 <? Math_log 1024)%float = true
  /\ Number.is_finite (Math_log 1024%float) = true.

(** *** Concrete inputs *)

Definition zero_bytes (n : nat) : list Byte.byte := repeat Byte.x00 n.

Definition png (name : string) (n : nat) : File.t :=
  {| File.name := name; File.type := "image/png"; File.bytes := zero_bytes n |}.

Definition jpg (name : string) (n : nat) : File.t :=
  {| File.name := name; File.type := "image/jpeg"; File.bytes := zero_bytes n |}.

(** An encoder whose output has [n] bytes at every quality. *)
Definition flat_encoder (n : nat) : Canvas.t -> string -> float -> DataURL.t :=
  fun _ type _ => {| DataURL.mediaType := type; DataURL.body := zero_bytes n |}.

(** An encoder whose output has [2 * floor(10 * quality)] bytes. *)
Definition graded_encoder : Canvas.t -> string -> float -> DataURL.t :=
  fun _ type q =>
    {| DataURL.mediaType := type;
       DataURL.body := zero_bytes (Z.to_nat (2 * Number.trunc (q * 10)%float)) |}.

(** A decoder that accepts every non-empty file as a [w] x [h] image. *)
Definition decoder (w h : Z) : DataURL.t -> option Image.t :=
  fun url =>
    match DataURL.body url with
    | [] => None
    | _ => Some {| Image.width := w; Image.height := h |}
    end.

(** An image wider than the threshold whose scaled height, 333.67, is
    not an integer. *)
Definition wide_image : Image.t := {| Image.width := 4800; Image.height := 1001 |}.

(** An image 49 times as wide as the threshold and 49 high: its scaled
    height is exactly 1. *)
Definition flat_image : Image.t := {| Image.width := 78400; Image.height := 49 |}.

Definition small_image : Image.t := {| Image.width := 800; Image.height := 600 |}.

(** What [processImage] resolves with for a 5-byte file when every
    encoding has 7 bytes, and for a 9-byte file under [graded_encoder]. *)
Definition kept_result : ProcessedImage.t :=
  {| ProcessedImage.name := "photo.png";
     ProcessedImage.url := readAsDataURL (png "photo.png" 5);
     ProcessedImage.size := 5;
     ProcessedImage.originalSize := 5 |}.

Definition optimized_result : ProcessedImage.t :=
  {| ProcessedImage.name := "photo-optimized.webp";
     ProcessedImage.url :=
       graded_encoder (render small_image) "image/webp" 0.40000000000000013;
     ProcessedImage.size := 8;
     ProcessedImage.originalSize := 9 |}.

(** Three dropped files; the second one is empty and does not decode. *)
Definition broken_batch : list File.t :=
  [png "a.png" 20; png "broken.png" 0; png "c.png" 9].

Definition sound_batch : list File.t :=
  [png "a.png" 20; png "b.png" 2; png "c.png" 9].

(** Three results, the last one with the name of the first. *)
Definition repeated_names : list ProcessedImage.t :=
  [{| ProcessedImage.name := "a.png";
      ProcessedImage.url := {| DataURL.mediaType := "image/png"; DataURL.body := zero_bytes 1 |};
      ProcessedImage.size := 1; ProcessedImage.originalSize := 1 |};
   {| ProcessedImage.name := "b-optimized.webp";
      ProcessedImage.url := {| DataURL.mediaType := "image/webp"; DataURL.body := zero_bytes 2 |};
      ProcessedImage.size := 2; ProcessedImage.originalSize := 5 |};
   {| ProcessedImage.name := "a.png";
      ProcessedImage.url := {| DataURL.mediaType := "image/png"; DataURL.body := zero_bytes 3 |};
      ProcessedImage.size := 3; ProcessedImage.originalSize := 3 |}].

Definition idle : AppState := {| processedImages := []; isProcessing := false |}.

Definition result (original final : Z) : ProcessedImage.t :=
  {| ProcessedImage.name := "a.png";
     ProcessedImage.url := {| DataURL.mediaType := "image/png"; DataURL.body := [] |};
     ProcessedImage.size := final;
     ProcessedImage.originalSize := original |}.

(** A [Math_log] to run [formatSize] with: the logarithms at the byte
    counts where the index changes, as binary64 has them, and between
    two such counts the logarithm at the lower one. *)
Definition sampled_log (x : float) : float :=
  if (x <? 1023)%float then 0
  else if (x <? 1024)%float then 6.930494765951626
  else if (x <? 1048575)%float then 6.931471805599453
  else if (x <? 1048576)%float then 13.862942657524135
  else if (x <? 1073741823)%float then 13.862943611198906
  else if (x <? 1073741824)%float then 20.794415415867036
  else 20.79441541679836.

(** * Properties *)

(** ** Integers as Numbers

    An integer below 2^53 is a Number, exactly: converting it to binary64
    and truncating the result gives the integer back. *)

Section NumberFacts.

Ltac std_Z :=
  change IntDef.Z.max with Z.max in *; change IntDef.Z.sub with Z.sub in *;
  change IntDef.Z.add with Z.add in *; change IntDef.Z.leb with Z.leb in *;
  change IntDef.Z.eqb with Z.eqb in *.

Lemma digits2_iter_xO (p k : positive) :
  Z.pos (digits2_pos (Pos.iter xO p k)) = Z.pos (digits2_pos p) + Z.pos k.
Proof.
  induction k using Pos.peano_ind.
  - simpl. lia.
  - rewrite Pos.iter_succ. simpl digits2_pos. lia.
Qed.

Lemma iter_xO_value (p k : positive) :
  Z.pos (Pos.iter xO p k) = Z.pos p * 2 ^ Z.pos k.
Proof.
  induction k using Pos.peano_ind.
  - simpl. lia.
  - rewrite Pos.iter_succ, Pos2Z.inj_xO, IHk, Pos2Z.inj_succ, Z.pow_succ_r by lia.
    lia.
Qed.

Lemma digits2_lower (p : positive) : 2 ^ (Z.pos (digits2_pos p) - 1) <= Z.pos p.
Proof.
  induction p as [p IH | p IH |]; simpl digits2_pos; [| | simpl; lia];
    rewrite Pos2Z.inj_succ;
    replace (Z.succ (Z.pos (digits2_pos p)) - 1)
      with (Z.succ (Z.pos (digits2_pos p) - 1)) by lia;
    rewrite Z.pow_succ_r by lia; lia.
Qed.

Lemma fexp_canonical (m : positive) (e : Z) :
  Z.pos (digits2_pos m) = 53 -> -1074 <= e ->
  fexp prec emax (Z.pos (digits2_pos m) + e) = e.
Proof.
  intros Hd He. rewrite Hd. unfold fexp, SpecFloat.emin, prec, emax. std_Z. lia.
Qed.

Lemma round_aux_exact (s : bool) (m : positive) (e : Z) :
  Z.pos (digits2_pos m) = 53 -> -1074 <= e <= 971 ->
  binary_round_aux prec emax s (Z.pos m) e loc_Exact = S754_finite s m e.
Proof.
  intros Hd He. unfold binary_round_aux, shr_fexp. simpl Zdigits2. std_Z.
  rewrite fexp_canonical by lia. rewrite Z.sub_diag. simpl.
  rewrite fexp_canonical by lia. rewrite Z.sub_diag. simpl.
  replace (e <=? emax - prec) with true; [reflexivity|].
  symmetry. apply Z.leb_le. unfold emax, prec. lia.
Qed.

Lemma valid_canonical (s : bool) (m : positive) (e : Z) :
  Z.pos (digits2_pos m) = 53 -> -1074 <= e <= 971 ->
  SpecFloat.valid_binary prec emax (S754_finite s m e) = true.
Proof.
  intros Hd He. unfold SpecFloat.valid_binary, bounded, canonical_mantissa. std_Z.
  rewrite fexp_canonical by lia. rewrite Z.eqb_refl. simpl.
  apply Z.leb_le. unfold emax, prec. lia.
Qed.

(** A positive integer below 2^53 is rounded to itself: its mantissa is
    only shifted left until it has 53 bits. *)
Lemma binary_round_small (s : bool) (p : positive) :
  Z.pos p < 2 ^ 53 ->
  exists m e,
    binary_round prec emax s p 0 = S754_finite s m e
    /\ -52 <= e <= 0
    /\ Z.pos m = Z.pos p * 2 ^ (- e)
    /\ SpecFloat.valid_binary prec emax (S754_finite s m e) = true.
Proof.
  intros Hp.
  assert (Hd : Z.pos (digits2_pos p) <= 53).
  { pose proof (digits2_lower p) as Hl.
    destruct (Z_le_gt_dec (Z.pos (digits2_pos p)) 53) as [|Hgt]; [assumption|].
    assert (2 ^ 53 <= 2 ^ (Z.pos (digits2_pos p) - 1))
      by (apply Z.pow_le_mono_r; lia).
    lia. }
  unfold binary_round, shl_align. std_Z.
  assert (Hf : fexp prec emax (Z.pos (digits2_pos p) + 0)
               = Z.pos (digits2_pos p) - 53).
  { unfold fexp, SpecFloat.emin, prec, emax. std_Z. lia. }
  rewrite Hf, Z.sub_0_r.
  destruct (Z.pos (digits2_pos p) - 53) as [|k|k] eqn:Hk; [| lia |].
  - exists p, 0. rewrite round_aux_exact by lia.
    split; [reflexivity|]. split; [lia|]. split; [simpl; lia|].
    apply valid_canonical; lia.
  - exists (Pos.iter xO p k), (Z.neg k).
    assert (Hdk : Z.pos (digits2_pos (Pos.iter xO p k)) = 53)
      by (rewrite digits2_iter_xO; lia).
    rewrite round_aux_exact by lia.
    split; [reflexivity|]. split; [lia|]. split.
    + rewrite iter_xO_value. reflexivity.
    + apply valid_canonical; lia.
Qed.

Lemma trunc_of_Z (z : Z) :
  0 <= z < 2 ^ 53 -> Number.trunc (Number.of_Z z) = z.
Proof.
  intros [H0 H1].
  unfold Number.trunc, Number.magnitude, Number.is_negative, Number.of_Z,
    binary_normalize.
  destruct z as [|p|p]; [reflexivity | | lia].
  destruct (binary_round_small false p H1) as (m & e & -> & He & Hm & Hv).
  rewrite Prim2SF_SF2Prim by exact Hv.
  destruct (0 <=? e) eqn:E.
  - apply Z.leb_le in E. assert (e = 0) by lia. subst e.
    simpl in *. rewrite Z.div_1_r. lia.
  - rewrite Hm. apply Z.div_mul. apply Z.pow_nonzero; lia.
Qed.

(** Writing an integer below 2^31 to a canvas dimension stores it. *)
Lemma dimension_of_Z (default z : Z) :
  0 <= z <= 2147483647 -> Canvas.dimension default (Number.of_Z z) = z.
Proof.
  intros Hz. unfold Canvas.dimension, Number.ToUint32.
  rewrite trunc_of_Z by lia.
  rewrite Z.mod_small by lia.
  destruct (z <=? 2147483647) eqn:E; [reflexivity|].
  apply Z.leb_gt in E. lia.
Qed.

(** Writing a Number to a canvas dimension stores its integer part, when
    that is between 0 and 2^31 - 1. *)
Lemma dimension_trunc (default : Z) (x : float) :
  0 <= Number.trunc x <= 2147483647 ->
  Canvas.dimension default x = Number.trunc x.
Proof.
  intros Hx. unfold Canvas.dimension, Number.ToUint32.
  rewrite Z.mod_small by lia.
  destruct (Number.trunc x <=? 2147483647) eqn:E; [reflexivity|].
  apply Z.leb_gt in E. lia.
Qed.

End NumberFacts.

(** ** Down-scaling (lines 24-35) *)

(** C3, as the code has it.  For an image wider than 1600 the canvas is
    1600 wide and its height is the Number [height * (1600 / width)],
    computed in binary64 and then converted to an integer by the canvas
    attribute, which drops the fraction: the height is truncated, not
    rounded.  An image at most 1600 wide keeps its dimensions. *)
Theorem render_dimensions (img : Image.t) :
  0 < Image.width img <= 2147483647 ->
  0 < Image.height img <= 2147483647 ->
  let scaled :=
    (Number.of_Z (Image.height img) * (1600 / Number.of_Z (Image.width img)))%float in
  (1600 < Image.width img ->
     Canvas.width (render img) = 1600
     /\ Canvas.height (render img) = Canvas.dimension 150 scaled
     /\ (0 <= Number.trunc scaled <= 2147483647 ->
         Canvas.height (render img) = Number.trunc scaled))
  /\ (Image.width img <= 1600 ->
     Canvas.width (render img) = Image.width img
     /\ Canvas.height (render img) = Image.height img).
Proof.
  intros Hw Hh scaled. unfold render. split.
  - intros Hwide. apply Z.ltb_lt in Hwide. rewrite Hwide. cbn [Canvas.width Canvas.height].
    split; [vm_compute; reflexivity|]. split; [reflexivity|].
    intros Hrange. apply dimension_trunc. exact Hrange.
  - intros Hsmall. apply Z.ltb_ge in Hsmall. rewrite Hsmall.
    cbn [Canvas.width Canvas.height].
    split; apply dimension_of_Z; lia.
Qed.

Lemma render_dimensions_witness :
  (0 < Image.width wide_image <= 2147483647)
  /\ (0 < Image.height wide_image <= 2147483647)
  /\ Canvas.width (render wide_image) = 1600
  /\ Canvas.height (render wide_image) = 333
  /\ Canvas.width (render small_image) = 800
  /\ Canvas.height (render small_image) = 600.
Proof.
  assert (Hw : 0 < Image.width wide_image <= 2147483647) by (simpl; lia).
  assert (Hh : 0 < Image.height wide_image <= 2147483647) by (simpl; lia).
  assert (Hw' : 0 < Image.width small_image <= 2147483647) by (simpl; lia).
  assert (Hh' : 0 < Image.height small_image <= 2147483647) by (simpl; lia).
  split; [exact Hw|]. split; [exact Hh|].
  destruct (render_dimensions wide_image Hw Hh) as [Hwide _].
  destruct (render_dimensions small_image Hw' Hh') as [_ Hsmall].
  destruct Hwide as (H1 & _ & H3); [simpl; lia|].
  destruct Hsmall as (H4 & H5); [simpl; lia|].
  split; [exact H1|]. split; [|split; [exact H4 | exact H5]].
  rewrite H3; [vm_compute; reflexivity|].
  vm_compute. split; discriminate.
Defined.

(** C3 fails as stated: a 4800 x 1001 image is drawn on a canvas of height
    333, while [round(1001 * 1600 / 4800)] is 334. *)
Lemma render_height_not_rounded :
  1600 < Image.width wide_image
  /\ Canvas.height (render wide_image) = 333
  /\ round_div (Image.height wide_image * 1600) (Image.width wide_image) = 334
  /\ Canvas.height (render wide_image)
     <> round_div (Image.height wide_image * 1600) (Image.width wide_image).
Proof.
  split; [simpl; lia|]. split; [vm_compute; reflexivity|].
  split; [vm_compute; reflexivity|]. vm_compute. discriminate.
Qed.

(** ** The quality search (lines 40-51) *)

Lemma quality_schedule_descends : quality_schedule = descend 9 0.8%float.
Proof. vm_compute. reflexivity. Qed.

Lemma scheduled_next (n : nat) :
  (n < 8)%nat ->
  (scheduled n - 0.1)%float = scheduled (S n)
  /\ (0.1 <? scheduled n)%float = true
  /\ quality_schedule !! S n = Some (scheduled (S n)).
Proof.
  intros Hn.
  do 8 (destruct n as [|n]; [vm_compute; repeat split; reflexivity|]).
  lia.
Qed.

Lemma scheduled_last : (0.1 <? scheduled 8)%float = false.
Proof. vm_compute. reflexivity. Qed.

Section QualitySearch.

Variable toDataURL : Canvas.t -> string -> float -> DataURL.t.
Variable canvas : Canvas.t.
Variable file : File.t.

Lemma search_at_size (n : nat) (s : search) :
  search_at toDataURL canvas n s -> Blob.size (blob s) = encoded_size toDataURL canvas (scheduled n).
Proof.
  intros (Hq & _ & Hu & Hb). unfold encoded_size.
  rewrite Hb, Hu, Hq. reflexivity.
Qed.

Lemma search_at_encode (n : nat) (s : search) :
  (n < 8)%nat ->
  search_at toDataURL canvas n s ->
  search_at toDataURL canvas (S n)
    (encode toDataURL canvas (quality s - 0.1)%float (encodes s)).
Proof.
  intros Hn (Hq & He & _ & _).
  destruct (scheduled_next n Hn) as (Hnext & _ & Hlook).
  unfold search_at, encode. cbn [quality encodes webpUrl blob].
  rewrite Hq, Hnext, He. repeat split.
  symmetry. apply take_S_r. exact Hlook.
Qed.

(** The loop, started at the [n]-th scheduled quality with [8 - n]
    iterations allowed, ends; it ends at the first scheduled quality whose
    encoding is not larger than the file, or else at the last one. *)
Lemma adjust_spec (d : nat) :
  forall (n : nat) (s : search),
    (n + d = 8)%nat ->
    search_at toDataURL canvas n s ->
    (forall j, (j < n)%nat -> File.size file < encoded_size toDataURL canvas (scheduled j)) ->
    exists (s' : search) (m : nat),
      adjust toDataURL d canvas file s = Some s'
      /\ (n <= m <= 8)%nat
      /\ search_at toDataURL canvas m s'
      /\ (forall j, (j < m)%nat -> File.size file < encoded_size toDataURL canvas (scheduled j))
      /\ ((m < 8)%nat -> encoded_size toDataURL canvas (scheduled m) <= File.size file).
Proof.
  induction d as [|d IH]; intros n s Hnd Hs Hbefore.
  - assert (n = 8%nat) by lia. subst n.
    assert (Hstop : continue file s = false).
    { unfold continue. destruct Hs as (Hq & _). rewrite Hq, scheduled_last.
      apply andb_false_r. }
    simpl. rewrite Hstop. exists s, 8%nat.
    repeat split; try lia; try apply Hs; auto.
  - assert (Hn : (n < 8)%nat) by lia.
    destruct (scheduled_next n Hn) as (_ & Hgt & _).
    simpl. destruct (continue file s) eqn:Hc.
    + apply andb_true_iff in Hc as [Hlarger _]. apply Z.ltb_lt in Hlarger.
      rewrite (search_at_size n s Hs) in Hlarger.
      destruct (IH (S n) (encode toDataURL canvas (quality s - 0.1)%float (encodes s)))
        as (s' & m & Hrun & Hm & Hat & Hall & Hend).
      * lia.
      * apply search_at_encode; assumption.
      * intros j Hj. destruct (Nat.eq_dec j n) as [->|Hne]; [exact Hlarger|].
        apply Hbefore. lia.
      * exists s', m. repeat split; try lia; try apply Hat; auto.
    + exists s, n. repeat split; try lia; try apply Hs; auto.
      intros _. unfold continue in Hc.
      destruct Hs as (Hq & Hs'). rewrite Hq, Hgt, andb_true_r in Hc.
      apply Z.ltb_ge in Hc.
      rewrite (search_at_size n s (conj Hq Hs')) in Hc. exact Hc.
Qed.

Lemma search_at_start :
  search_at toDataURL canvas 0 (encode toDataURL canvas 0.8%float []).
Proof. unfold search_at, encode. simpl. repeat split. Qed.

(** The search always returns, and the state it returns is the one of
    the first scheduled quality that did not have to be lowered. *)
Lemma quality_search_spec :
  exists (s : search) (m : nat),
    quality_search toDataURL canvas file = Some s
    /\ (m <= 8)%nat
    /\ search_at toDataURL canvas m s
    /\ (forall j, (j < m)%nat -> File.size file < encoded_size toDataURL canvas (scheduled j))
    /\ ((m < 8)%nat -> encoded_size toDataURL canvas (scheduled m) <= File.size file).
Proof.
  destruct (adjust_spec 8 0 (encode toDataURL canvas 0.8%float []))
    as (s & m & Hrun & Hm & Hat & Hall & Hend).
  - reflexivity.
  - apply search_at_start.
  - intros j Hj. lia.
  - exists s, m. repeat split; try lia; try apply Hat; auto.
Qed.

End QualitySearch.

(** C1, as the code has it.  The search always ends, after at least one
    encode.  Its first eight quality values are the first ones of
    [designed_schedule], in order: 0.8, then the binary64 results of
    subtracting 0.1 again and again, which are within 2e-16 of 0.7, 0.6,
    ..., 0.2 and 0.1.  Every encode but the last was larger than the file,
    and a search of fewer than eight encodes has ended on an encode that
    is not larger than the file.  As the guard [quality > 0.1] is tested
    before the decrement, the encode at about 0.2 is followed by an eighth
    one at about 0.1 when the first seven were all larger than the
    file. *)
Theorem quality_search_encodes
  (toDataURL : Canvas.t -> string -> float -> DataURL.t)
  (canvas : Canvas.t) (file : File.t) :
  exists s : search,
    quality_search toDataURL canvas file = Some s
    /\ (1 <= length (encodes s))%nat
    /\ take 8 (encodes s) = take (length (encodes s)) designed_schedule
    /\ last (encodes s) = Some (quality s)
    /\ (forall (j : nat) (q : float),
          (S j < length (encodes s))%nat ->
          encodes s !! j = Some q ->
          File.size file < encoded_size toDataURL canvas q)
    /\ ((length (encodes s) < 8)%nat ->
        encoded_size toDataURL canvas (quality s) <= File.size file)
    /\ ((forall q, In q (take 7 designed_schedule) ->
           File.size file < encoded_size toDataURL canvas q) ->
        encodes s !! 7%nat = Some 0.10000000000000014%float).
Proof.
  destruct (quality_search_spec toDataURL canvas file)
    as (s & m & Hrun & Hm & (Hq & He & Hu & Hb) & Hall & Hend).
  assert (Hlen : length (encodes s) = S m).
  { rewrite He, length_take. change (length quality_schedule) with 9%nat. lia. }
  assert (Hdesigned : designed_schedule = take 8 quality_schedule) by reflexivity.
  exists s. split; [exact Hrun|]. split; [lia|]. split.
  { rewrite Hlen, Hdesigned, He, !take_take. f_equal. lia. }
  split.
  { rewrite He, Hq. clear -Hm.
    do 9 (destruct m as [|m]; [reflexivity|]). lia. }
  split.
  { intros j q Hj Hlook. rewrite Hlen in Hj.
    rewrite He, lookup_take_lt in Hlook by lia.
    assert (Hsched : q = scheduled j).
    { unfold scheduled. symmetry. apply nth_lookup_Some with (d := nan) in Hlook.
      exact Hlook. }
    subst q. apply Hall. lia. }
  split.
  { intros Hshort. rewrite Hq. apply Hend. lia. }
  intros Hseven.
  destruct (Nat.lt_ge_cases m 7) as [Hlt | Hge].
  - exfalso.
    assert (Hin : In (scheduled m) (take 7 designed_schedule)).
    { clear -Hlt. do 7 (destruct m as [|m]; [simpl; tauto|]). lia. }
    specialize (Hseven _ Hin). specialize (Hend ltac:(lia)). lia.
  - rewrite He, lookup_take_lt by lia. reflexivity.
Qed.

(** C1 fails as stated: for a 3-byte file and an encoder whose output
    has 4 bytes at about 0.2 and 2 bytes at about 0.1, the search encodes
    eight times, and its last quality value, just above 0.1, is below
    every value of 0.8, ..., 0.2. *)
Lemma quality_search_eighth_encode :
  exists s : search,
    quality_search graded_encoder (render small_image) (png "a.png" 3) = Some s
    /\ encodes s = designed_schedule
    /\ length (encodes s) = 8%nat
    /\ ~ (length (encodes s) <= 7)%nat
    /\ quality s = 0.10000000000000014%float
    /\ (quality s <? 0.2)%float = true
    /\ ~ In (quality s) [0.8; 0.7; 0.6; 0.5; 0.4; 0.3; 0.2]%float.
Proof.
  eexists. split; [vm_compute; reflexivity|].
  repeat split; try reflexivity; [simpl; lia|].
  simpl. intros H.
  repeat (destruct H as [H | H]; [apply (f_equal Prim2SF) in H; vm_compute in H; discriminate|]).
  exact H.
Qed.

(** ** The fall-back decision (lines 53-68) *)

(** What [replace] leaves of a name that ends in a dot and an extension
    without dots or slashes is the text before that dot. *)
Lemma class_to_end_app_dot (base rest : string) :
  class_to_end (base ++ String "." rest)%string = false.
Proof.
  induction base as [|c base IH]; simpl.
  - reflexivity.
  - rewrite IH. apply andb_false_r.
Qed.

Lemma extension_at_app_dot (c : ascii) (base rest : string) :
  extension_at (String c (base ++ String "." rest))%string = false.
Proof.
  unfold extension_at.
  destruct (Ascii.eqb_spec c ".") as [->|Hc].
  - pose proof (class_to_end_app_dot base rest) as H.
    destruct (base ++ String "." rest)%string; [reflexivity | exact H].
  - destruct c as [[] [] [] [] [] [] [] []]; try reflexivity. contradiction Hc.
    reflexivity.
Qed.

Lemma replace_extension_strips (base ext : string) :
  ext <> "" -> class_to_end ext = true ->
  replace_extension (base ++ String "." ext)%string = base.
Proof.
  intros Hne Hclass. induction base as [|c base IH].
  - simpl. destruct ext; [contradiction|]. rewrite Hclass. reflexivity.
  - change (String c base ++ String "." ext)%string
      with (String c (base ++ String "." ext))%string.
    unfold replace_extension; fold replace_extension.
    rewrite extension_at_app_dot. rewrite IH. reflexivity.
Qed.

(** C4.  When the blob left by the search is not smaller than the file,
    [processImage] resolves with the original: its name, its bytes, and
    its size in both size fields. *)
Theorem processImage_keeps_original
  (decode : DataURL.t -> option Image.t)
  (toDataURL : Canvas.t -> string -> float -> DataURL.t)
  (file : File.t) (img : Image.t) (s : search) :
  decode (readAsDataURL file) = Some img ->
  quality_search toDataURL (render img) file = Some s ->
  File.size file <= Blob.size (blob s) ->
  exists r : ProcessedImage.t,
    processImage decode toDataURL file = Promise.Resolved r
    /\ ProcessedImage.name r = File.name file
    /\ ProcessedImage.url r = readAsDataURL file
    /\ DataURL.body (ProcessedImage.url r) = File.bytes file
    /\ ProcessedImage.size r = File.size file
    /\ ProcessedImage.originalSize r = File.size file.
Proof.
  intros Hdec Hrun Hge. unfold processImage. rewrite Hdec, Hrun.
  unfold choose. apply Z.leb_le in Hge. rewrite Hge.
  eexists. split; [reflexivity|]. repeat split.
Qed.

Lemma processImage_keeps_original_witness :
  exists r : ProcessedImage.t,
    processImage (decoder 800 600) (flat_encoder 7) (png "photo.png" 5)
      = Promise.Resolved r
    /\ ProcessedImage.name r = "photo.png"
    /\ ProcessedImage.url r = readAsDataURL (png "photo.png" 5)
    /\ DataURL.body (ProcessedImage.url r) = zero_bytes 5
    /\ ProcessedImage.size r = 5
    /\ ProcessedImage.originalSize r = 5.
Proof.
  eapply (processImage_keeps_original (decoder 800 600) (flat_encoder 7)
            (png "photo.png" 5)).
  - vm_compute. reflexivity.
  - vm_compute. reflexivity.
  - vm_compute. discriminate.
Defined.

(** C5.  When one of the encodes that the search made is smaller than
    the file, it is the last one, and [processImage] resolves with it: its
    data URL, its byte length as [size], below [originalSize], and the
    file's name with the extension replaced by [-optimized.webp]. *)
Theorem processImage_takes_smaller
  (decode : DataURL.t -> option Image.t)
  (toDataURL : Canvas.t -> string -> float -> DataURL.t)
  (file : File.t) (img : Image.t) (s : search) (q : float) :
  decode (readAsDataURL file) = Some img ->
  quality_search toDataURL (render img) file = Some s ->
  In q (encodes s) ->
  encoded_size toDataURL (render img) q < File.size file ->
  exists r : ProcessedImage.t,
    processImage decode toDataURL file = Promise.Resolved r
    /\ q = quality s
    /\ ProcessedImage.url r = toDataURL (render img) "image/webp" q
    /\ ProcessedImage.size r = Z.of_nat (length (DataURL.body (ProcessedImage.url r)))
    /\ ProcessedImage.size r = encoded_size toDataURL (render img) q
    /\ ProcessedImage.size r < ProcessedImage.originalSize r
    /\ ProcessedImage.originalSize r = File.size file
    /\ ProcessedImage.name r
       = (replace_extension (File.name file) ++ "-optimized.webp")%string
    /\ (forall base ext : string,
          File.name file = (base ++ String "." ext)%string ->
          ext <> "" -> class_to_end ext = true ->
          ProcessedImage.name r = (base ++ "-optimized.webp")%string).
Proof.
  intros Hdec Hrun Hin Hsmall.
  destruct (quality_search_spec toDataURL (render img) file)
    as (s' & m & Hrun' & Hm & Hat & Hall & _).
  rewrite Hrun in Hrun'. injection Hrun' as <-.
  assert (Hq : q = quality s).
  { destruct Hat as (Hqs & He & _). rewrite He in Hin.
    apply list_elem_of_In, list_elem_of_lookup in Hin as [j Hj].
    apply lookup_take_Some in Hj as [Hj Hlt].
    apply nth_lookup_Some with (d := nan) in Hj. fold (scheduled j) in Hj.
    destruct (Nat.eq_dec j m) as [->|Hne]; [congruence|].
    specialize (Hall j ltac:(lia)). rewrite Hj in Hall. lia. }
  subst q.
  assert (Hsize : Blob.size (blob s) = encoded_size toDataURL (render img) (quality s)).
  { rewrite (search_at_size _ _ _ _ Hat). destruct Hat as (-> & _). reflexivity. }
  unfold processImage. rewrite Hdec, Hrun. unfold choose.
  assert (Hlt : (File.size file <=? Blob.size (blob s)) = false)
    by (apply Z.leb_gt; lia).
  rewrite Hlt. destruct Hat as (_ & _ & Hu & Hb).
  eexists. split; [reflexivity|]. cbn [ProcessedImage.name ProcessedImage.url
    ProcessedImage.size ProcessedImage.originalSize].
  split; [reflexivity|]. split; [exact Hu|].
  split; [rewrite Hb; reflexivity|]. split; [exact Hsize|].
  split; [lia|]. split; [reflexivity|]. split; [reflexivity|].
  intros base ext -> Hne Hclass.
  rewrite replace_extension_strips by assumption. reflexivity.
Qed.

Lemma processImage_takes_smaller_witness :
  exists r : ProcessedImage.t,
    processImage (decoder 800 600) graded_encoder (png "photo.png" 9)
      = Promise.Resolved r
    /\ ProcessedImage.name r = "photo-optimized.webp"
    /\ ProcessedImage.size r = 8
    /\ ProcessedImage.originalSize r = 9.
Proof.
  destruct (processImage_takes_smaller (decoder 800 600) graded_encoder
              (png "photo.png" 9) small_image
              {| quality := 0.40000000000000013;
                 webpUrl := graded_encoder (render small_image) "image/webp"
                              0.40000000000000013;
                 blob := fetch_blob (graded_encoder (render small_image) "image/webp"
                              0.40000000000000013);
                 encodes := take 5 quality_schedule |}
              0.40000000000000013%float)
    as (r & Hr & _ & _ & _ & Hs & _ & Ho & _ & Hn).
  - vm_compute. reflexivity.
  - vm_compute. reflexivity.
  - vm_compute. tauto.
  - vm_compute. reflexivity.
  - exists r. split; [exact Hr|]. split.
    + apply (Hn "photo" "png"); [reflexivity | discriminate | reflexivity].
    + split; [rewrite Hs; vm_compute; reflexivity | rewrite Ho; reflexivity].
Defined.

(** C6.  Whatever [processImage] resolves with, its [size] is the number
    of bytes of the data URL it carries: the file's own bytes when the
    original is kept, the bytes of the last encode otherwise. *)
Theorem processImage_size_is_payload_length
  (decode : DataURL.t -> option Image.t)
  (toDataURL : Canvas.t -> string -> float -> DataURL.t)
  (file : File.t) (r : ProcessedImage.t) :
  processImage decode toDataURL file = Promise.Resolved r ->
  ProcessedImage.size r
  = Z.of_nat (length (DataURL.body (ProcessedImage.url r))).
Proof.
  unfold processImage.
  destruct (decode (readAsDataURL file)) as [img|]; [|discriminate].
  destruct (quality_search_spec toDataURL (render img) file)
    as (s & m & Hrun & _ & (_ & _ & _ & Hb) & _).
  rewrite Hrun. intros [= <-]. unfold choose.
  destruct (File.size file <=? Blob.size (blob s)); cbn.
  - reflexivity.
  - rewrite Hb. reflexivity.
Qed.

Lemma processImage_size_is_payload_length_witness :
  (processImage (decoder 800 600) (flat_encoder 7) (png "photo.png" 5)
     = Promise.Resolved kept_result
   /\ ProcessedImage.size kept_result
      = Z.of_nat (length (DataURL.body (ProcessedImage.url kept_result))))
  /\ (processImage (decoder 800 600) graded_encoder (png "photo.png" 9)
        = Promise.Resolved optimized_result
      /\ ProcessedImage.size optimized_result
         = Z.of_nat (length (DataURL.body (ProcessedImage.url optimized_result)))).
Proof.
  split; (split; [vm_compute; reflexivity|]).
  - apply (processImage_size_is_payload_length (decoder 800 600) (flat_encoder 7)
             (png "photo.png" 5)).
    vm_compute. reflexivity.
  - apply (processImage_size_is_payload_length (decoder 800 600) graded_encoder
             (png "photo.png" 9)).
    vm_compute. reflexivity.
Defined.

(** ** The batch join (lines 76-83) *)

Section PromiseAll.

Context {A : Type}.
Variable ps : list (Promise.t A).

Lemma empty_slots_fill (l : list (option A)) (i : nat) (v : A) :
  l !! i = Some None ->
  empty_slots (<[i := Some v]> l) = pred (empty_slots l).
Proof.
  revert i. induction l as [|o l IH]; intros i Hi; [discriminate|].
  destruct i as [|i]; simpl in *.
  - injection Hi as ->. reflexivity.
  - rewrite (IH i Hi). destruct o; [reflexivity|].
    assert (empty_slots l <> 0%nat); [|lia].
    clear -Hi. revert i Hi. induction l as [|o l IH]; intros i Hi; [discriminate|].
    destruct i as [|i]; simpl in *.
    + injection Hi as ->. discriminate.
    + destruct o; [eauto | discriminate].
Qed.

Lemma empty_slots_pos (l : list (option A)) (i : nat) :
  l !! i = Some None -> (0 < empty_slots l)%nat.
Proof.
  revert i. induction l as [|o l IH]; intros i Hi; [discriminate|].
  destruct i as [|i]; simpl in *.
  - injection Hi as ->. lia.
  - specialize (IH i Hi). destruct o; lia.
Qed.

Lemma all_invariant_init : all_invariant ps (Promise.all_init (length ps)).
Proof.
  unfold all_invariant, Promise.all_init. cbn. split; [apply length_replicate|].
  split.
  - induction (length ps) as [|n IH]; simpl; congruence.
  - intros i v Hi. apply lookup_replicate in Hi as [? _]. discriminate.
Qed.

Lemma all_invariant_settle (st : Promise.all_state A) (i : nat) :
  all_invariant ps st -> all_invariant ps (Promise.all_settle ps st i).
Proof.
  intros (Hlen & Hrem & Hval). unfold Promise.all_settle.
  destruct (ps !! i) as [[v|]|] eqn:Hp; try (repeat split; assumption).
  destruct (Promise.values st !! i) as [[w|]|] eqn:Hs;
    try (repeat split; assumption).
  unfold all_invariant. cbn. split; [rewrite length_insert; exact Hlen|].
  split; [rewrite empty_slots_fill by exact Hs; congruence|].
  intros j w Hj. destruct (Nat.eq_dec i j) as [<-|Hne].
  - rewrite list_lookup_insert_eq in Hj by (eapply lookup_lt_Some; exact Hs).
    congruence.
  - rewrite list_lookup_insert_ne in Hj by exact Hne. auto.
Qed.

Lemma all_invariant_fold (order : list nat) (st : Promise.all_state A) :
  all_invariant ps st -> all_invariant ps (fold_left (Promise.all_settle ps) order st).
Proof.
  revert st. induction order as [|i order IH]; intros st Hst; simpl.
  - exact Hst.
  - apply IH, all_invariant_settle, Hst.
Qed.

(** A filled slot stays as it is. *)
Lemma all_settle_keeps (st : Promise.all_state A) (i j : nat) (v : A) :
  Promise.values st !! j = Some (Some v) ->
  Promise.values (Promise.all_settle ps st i) !! j = Some (Some v).
Proof.
  intros Hj. unfold Promise.all_settle.
  destruct (ps !! i) as [[w|]|]; try exact Hj.
  destruct (Promise.values st !! i) as [[u|]|] eqn:Hi; try exact Hj.
  cbn. rewrite list_lookup_insert_ne; [exact Hj|]. congruence.
Qed.

Lemma all_fold_keeps (order : list nat) (st : Promise.all_state A) (j : nat) (v : A) :
  Promise.values st !! j = Some (Some v) ->
  Promise.values (fold_left (Promise.all_settle ps) order st) !! j = Some (Some v).
Proof.
  revert st. induction order as [|i order IH]; intros st Hj; simpl.
  - exact Hj.
  - apply IH, all_settle_keeps, Hj.
Qed.

(** The reaction of a resolved promise fills its slot. *)
Lemma all_settle_fills (st : Promise.all_state A) (i : nat) (v : A) :
  all_invariant ps st ->
  ps !! i = Some (Promise.Resolved v) ->
  Promise.values (Promise.all_settle ps st i) !! i = Some (Some v).
Proof.
  intros (Hlen & _ & Hval) Hp. unfold Promise.all_settle. rewrite Hp.
  assert (Hlt : (i < length (Promise.values st))%nat).
  { rewrite Hlen. eapply lookup_lt_Some. exact Hp. }
  destruct (Promise.values st !! i) as [[w|]|] eqn:Hs.
  - rewrite Hs. f_equal. f_equal. specialize (Hval i w Hs). congruence.
  - cbn. apply list_lookup_insert_eq. exact Hlt.
  - apply lookup_ge_None in Hs. lia.
Qed.

Lemma all_fold_fills (order : list nat) (st : Promise.all_state A) (i : nat) (v : A) :
  all_invariant ps st ->
  In i order ->
  ps !! i = Some (Promise.Resolved v) ->
  Promise.values (fold_left (Promise.all_settle ps) order st) !! i = Some (Some v).
Proof.
  revert st. induction order as [|j order IH]; intros st Hst Hin Hp; [contradiction|].
  simpl. destruct Hin as [->|Hin].
  - apply all_fold_keeps, all_settle_fills; assumption.
  - apply IH; [apply all_invariant_settle, Hst | exact Hin | exact Hp].
Qed.

(** One promise that stays pending keeps the combined promise pending,
    whatever the other reactions do. *)
Lemma all_pending (order : list nat) (j : nat) :
  ps !! j = Some Promise.Pending -> Promise.all ps order = Promise.Pending.
Proof.
  intros Hj. unfold Promise.all, Promise.all_run.
  pose proof (all_invariant_fold order _ all_invariant_init) as (Hlen & Hrem & Hval).
  set (st := fold_left (Promise.all_settle ps) order (Promise.all_init (length ps))) in *.
  assert (Hslot : Promise.values st !! j = Some None).
  { destruct (Promise.values st !! j) as [[v|]|] eqn:Hs.
    - specialize (Hval j v Hs). congruence.
    - reflexivity.
    - apply lookup_ge_None in Hs. apply lookup_lt_Some in Hj. lia. }
  apply empty_slots_pos in Hslot. rewrite Hrem.
  destruct (empty_slots (Promise.values st)); [lia | reflexivity].
Qed.

End PromiseAll.

(** When every promise resolves and every reaction has run, in whatever
    order and however often, the combined promise resolves with the
    values in the order of the input list. *)
Lemma all_resolved {A} (vs : list A) (order : list nat) :
  (forall i, (i < length vs)%nat -> In i order) ->
  Promise.all (map Promise.Resolved vs) order = Promise.Resolved vs.
Proof.
  intros Hcover. unfold Promise.all, Promise.all_run.
  set (ps := map Promise.Resolved vs).
  pose proof (all_invariant_fold ps order _ (all_invariant_init ps))
    as (Hlen & Hrem & _).
  set (st := fold_left (Promise.all_settle ps) order (Promise.all_init (length ps))) in *.
  assert (Hvalues : Promise.values st = map Some vs).
  { apply list_eq. intros i. rewrite list_lookup_fmap.
    destruct (vs !! i) as [v|] eqn:Hv; simpl.
    - apply all_fold_fills.
      + apply all_invariant_init.
      + apply Hcover. eapply lookup_lt_Some. exact Hv.
      + unfold ps. rewrite list_lookup_fmap, Hv. reflexivity.
    - apply lookup_ge_None. apply lookup_ge_None in Hv.
      rewrite Hlen. unfold ps. rewrite length_map. exact Hv. }
  rewrite Hrem, Hvalues.
  assert (Hfull : forall l : list A, empty_slots (map Some l) = 0%nat
                                     /\ omap id (map Some l) = l).
  { induction l as [|a l [IH1 IH2]]; [split; reflexivity|].
    split; [exact IH1|]. simpl. cbn. f_equal. exact IH2. }
  destruct (Hfull vs) as [-> ->]. reflexivity.
Qed.

Section Batch.

Variable decode : DataURL.t -> option Image.t.
Variable toDataURL : Canvas.t -> string -> float -> DataURL.t.

(** A file that decodes has a pipeline that completes. *)
Lemma processImage_resolves (file : File.t) :
  decode (readAsDataURL file) <> None ->
  exists r, processImage decode toDataURL file = Promise.Resolved r.
Proof.
  intros Hdec. unfold processImage.
  destruct (decode (readAsDataURL file)) as [img|]; [|contradiction].
  destruct (quality_search_spec toDataURL (render img) file) as (s & _ & -> & _).
  eexists. reflexivity.
Qed.

(** A file that does not decode has a pipeline that never completes. *)
Lemma processImage_pending (file : File.t) :
  decode (readAsDataURL file) = None ->
  processImage decode toDataURL file = Promise.Pending.
Proof. intros Hdec. unfold processImage. rewrite Hdec. reflexivity. Qed.

End Batch.

(** C7.  When every pipeline of a batch completes, the result list that
    [onDrop] stores has the result of the i-th file at position i,
    whatever the order in which the pipelines completed. *)
Theorem onDrop_keeps_submission_order
  (decode : DataURL.t -> option Image.t)
  (toDataURL : Canvas.t -> string -> float -> DataURL.t)
  (acceptedFiles : list File.t) (results : list ProcessedImage.t)
  (order : list nat) (st : AppState) :
  Forall2 (fun f r => processImage decode toDataURL f = Promise.Resolved r)
    acceptedFiles results ->
  (forall i, (i < length acceptedFiles)%nat -> In i order) ->
  processedImages (onDrop decode toDataURL order acceptedFiles st) = results
  /\ isProcessing (onDrop decode toDataURL order acceptedFiles st) = false.
Proof.
  intros Hall Hcover.
  assert (Hmap : map (processImage decode toDataURL) acceptedFiles
                 = map Promise.Resolved results).
  { clear Hcover. induction Hall as [|f r fs rs Hf _ IH]; simpl; [reflexivity|].
    rewrite Hf, IH. reflexivity. }
  assert (Hlen : length acceptedFiles = length results)
    by (eapply Forall2_length; exact Hall).
  unfold onDrop. rewrite Hmap, all_resolved.
  - split; reflexivity.
  - intros i Hi. apply Hcover. lia.
Qed.

Lemma onDrop_keeps_submission_order_witness :
  map ProcessedImage.name
    (processedImages
       (onDrop (decoder 800 600) graded_encoder [2; 0; 1]%nat sound_batch idle))
  = ["a-optimized.webp"; "b.png"; "c-optimized.webp"].
Proof.
  destruct (onDrop_keeps_submission_order (decoder 800 600) graded_encoder
              sound_batch
              (omap (fun f =>
                       match processImage (decoder 800 600) graded_encoder f with
                       | Promise.Resolved r => Some r
                       | Promise.Pending => None
                       end) sound_batch)
              [2; 0; 1]%nat idle) as [-> _].
  - vm_compute. repeat constructor.
  - intros i Hi.
    destruct i as [|[|[|i]]]; simpl in *; [tauto | tauto | tauto | lia].
  - vm_compute. reflexivity.
Defined.

(** C2, as the code has it.  In a batch with a file that does not decode,
    the pipelines of the files that do decode still complete, each with
    its result; but the pipeline of the bad file never does, so
    [Promise.all] never resolves and [onDrop] stops at its [await]: the
    result list keeps its previous contents and [isProcessing] stays
    set. *)
Theorem onDrop_stalls_on_decode_failure
  (decode : DataURL.t -> option Image.t)
  (toDataURL : Canvas.t -> string -> float -> DataURL.t)
  (acceptedFiles : list File.t) (bad : File.t)
  (order : list nat) (st : AppState) :
  In bad acceptedFiles ->
  decode (readAsDataURL bad) = None ->
  (forall f, In f acceptedFiles -> decode (readAsDataURL f) <> None ->
     exists r, processImage decode toDataURL f = Promise.Resolved r)
  /\ processImage decode toDataURL bad = Promise.Pending
  /\ onDrop decode toDataURL order acceptedFiles st = setIsProcessing true st
  /\ processedImages (onDrop decode toDataURL order acceptedFiles st)
     = processedImages st
  /\ isProcessing (onDrop decode toDataURL order acceptedFiles st) = true.
Proof.
  intros Hin Hbad.
  split; [intros f _ Hf; apply processImage_resolves, Hf|].
  split; [apply processImage_pending, Hbad|].
  assert (Hstall : onDrop decode toDataURL order acceptedFiles st
                   = setIsProcessing true st).
  { apply list_elem_of_In, list_elem_of_lookup in Hin as [j Hj].
    unfold onDrop. rewrite (all_pending _ order j); [reflexivity|].
    rewrite list_lookup_fmap, Hj. simpl.
    rewrite processImage_pending by exact Hbad. reflexivity. }
  rewrite Hstall. repeat split.
Qed.

Lemma onDrop_stalls_on_decode_failure_witness :
  onDrop (decoder 800 600) graded_encoder [0; 2]%nat broken_batch idle
  = setIsProcessing true idle.
Proof.
  apply (onDrop_stalls_on_decode_failure (decoder 800 600) graded_encoder
           broken_batch (png "broken.png" 0) [0; 2]%nat idle).
  - simpl. tauto.
  - vm_compute. reflexivity.
Defined.

(** C2 fails as stated: of three dropped files of which the second does
    not decode, the first and the third are processed to the end, but
    after [onDrop] the result list is still empty and the page is still
    processing, in either order of completion. *)
Lemma onDrop_loses_sibling_results :
  decoder 800 600 (readAsDataURL (png "broken.png" 0)) = None
  /\ (exists r, processImage (decoder 800 600) graded_encoder (png "a.png" 20)
                = Promise.Resolved r)
  /\ (exists r, processImage (decoder 800 600) graded_encoder (png "c.png" 9)
                = Promise.Resolved r)
  /\ processedImages
       (onDrop (decoder 800 600) graded_encoder [0; 2]%nat broken_batch idle) = []
  /\ processedImages
       (onDrop (decoder 800 600) graded_encoder [2; 0]%nat broken_batch idle) = []
  /\ isProcessing
       (onDrop (decoder 800 600) graded_encoder [0; 2]%nat broken_batch idle) = true.
Proof.
  split; [reflexivity|].
  split; [eexists; vm_compute; reflexivity|].
  split; [eexists; vm_compute; reflexivity|].
  repeat split; vm_compute; reflexivity.
Qed.

(** ** The display helpers (lines 113-126) *)

Lemma fold_left_total (field : ProcessedImage.t -> Z) (l : list ProcessedImage.t) (a : Z) :
  fold_left (fun acc img => acc + field img) l a = a + total field l.
Proof.
  revert a. induction l as [|img l IH]; intros a; simpl.
  - lia.
  - rewrite IH. lia.
Qed.

Lemma magnitude_den_pos (x : float) : 0 < snd (Number.magnitude x).
Proof.
  unfold Number.magnitude. destruct (Prim2SF x) as [| | |sg m e]; simpl; try lia.
  destruct (0 <=? e) eqn:E; simpl; [lia|].
  apply Z.pow_pos_nonneg; [lia|]. apply Z.leb_gt in E. lia.
Qed.

(** [nearest_scaled f] is a nearest integer to [num / den * 10^f]. *)
Lemma nearest_scaled_spec (f : nat) (num den : Z) :
  0 < den ->
  2 * Z.abs (Number.nearest_scaled f num den * den - num * 10 ^ Z.of_nat f) <= den.
Proof.
  intros Hden. unfold Number.nearest_scaled.
  set (a := num * 10 ^ Z.of_nat f).
  replace (2 * num * 10 ^ Z.of_nat f + den) with (2 * a + den) by (unfold a; lia).
  pose proof (Z.div_mod (2 * a + den) (2 * den) ltac:(lia)) as Hdm.
  pose proof (Z.mod_pos_bound (2 * a + den) (2 * den) ltac:(lia)) as Hmod.
  lia.
Qed.

(** The exact floor of a logarithm: [k^i <= x < k^(i+1)]. *)
Lemma floor_log_from_spec (k : Z) (fuel : nat) :
  2 <= k ->
  forall x, 0 < x < 2 ^ Z.of_nat fuel ->
    0 <= floor_log_from fuel k x
    /\ k ^ floor_log_from fuel k x <= x < k ^ (floor_log_from fuel k x + 1).
Proof.
  intros Hk. induction fuel as [|fuel IH]; intros x Hx.
  - simpl in Hx. lia.
  - simpl floor_log_from. destruct (x <? k) eqn:E.
    + apply Z.ltb_lt in E. simpl. lia.
    + apply Z.ltb_ge in E.
      assert (Hq : 0 < x / k < 2 ^ Z.of_nat fuel).
      { split.
        - apply Z.div_str_pos. lia.
        - apply Z.div_lt_upper_bound; [lia|].
          rewrite Nat2Z.inj_succ, Z.pow_succ_r in Hx by lia. nia. }
      destruct (IH _ Hq) as (Hi & Hlo & Hhi).
      set (i := floor_log_from fuel k (x / k)) in *.
      pose proof (Z.div_mod x k ltac:(lia)) as Hdm.
      pose proof (Z.mod_pos_bound x k ltac:(lia)) as Hmod.
      split; [lia|].
      replace (1 + i) with (Z.succ i) by lia.
      replace (Z.succ i + 1) with (Z.succ (i + 1)) by lia.
      rewrite !Z.pow_succ_r by lia. nia.
Qed.

Lemma Math_floor_log_spec (x k : Z) :
  2 <= k -> 0 < x ->
  exists i, Math_floor_log x k = Some i /\ 0 <= i /\ k ^ i <= x < k ^ (i + 1).
Proof.
  intros Hk Hx. unfold Math_floor_log.
  replace (0 <? x) with true by (symmetry; apply Z.ltb_lt; exact Hx).
  eexists. split; [reflexivity|].
  apply floor_log_from_spec; [exact Hk|].
  split; [exact Hx|].
  rewrite Nat2Z.inj_succ, Z2Nat.id by apply Z.log2_nonneg.
  apply Z.log2_spec. exact Hx.
Qed.

(** What [formatSize] returns for a positive byte count, in terms of the
    index [i] with [1024^i <= bytes < 1024^(i+1)]. *)
Lemma formatSize_positive (bytes : Z) :
  0 < bytes ->
  exists i,
    Math_floor_log bytes 1024 = Some i
    /\ 0 <= i
    /\ 1024 ^ i <= bytes < 1024 ^ (i + 1)
    /\ formatSize bytes
       = (Number.toString
            (Number.parseFloat
               (Number.toFixed (Number.of_Z bytes / Number.of_Z (1024 ^ i))%float 2))
          ++ " "
          ++ match ["Bytes"; "KB"; "MB"] !! Z.to_nat i with
             | Some u => u
             | None => "undefined"
             end)%string.
Proof.
  intros Hb.
  destruct (Math_floor_log_spec bytes 1024 ltac:(lia) Hb) as (i & Hi & Hi0 & Hrange).
  exists i. split; [exact Hi|]. split; [exact Hi0|]. split; [exact Hrange|].
  unfold formatSize.
  replace (bytes =? 0) with false by (symmetry; apply Z.eqb_neq; lia).
  cbv zeta. rewrite Hi. unfold Math_pow, element.
  replace (0 <=? i) with true by (symmetry; apply Z.leb_le; exact Hi0).
  reflexivity.
Qed.

(** * Further properties of the code *)

(** ** [processImage] *)

(** The two shapes of a result. *)
Lemma processImage_result_cases
  (decode : DataURL.t -> option Image.t)
  (toDataURL : Canvas.t -> string -> float -> DataURL.t)
  (file : File.t) (r : ProcessedImage.t) :
  processImage decode toDataURL file = Promise.Resolved r ->
  (ProcessedImage.name r = File.name file
   /\ ProcessedImage.url r = readAsDataURL file
   /\ ProcessedImage.size r = File.size file
   /\ ProcessedImage.originalSize r = File.size file)
  \/ (ProcessedImage.name r
       = (replace_extension (File.name file) ++ "-optimized.webp")%string
      /\ ProcessedImage.size r < File.size file
      /\ ProcessedImage.originalSize r = File.size file).
Proof.
  unfold processImage.
  destruct (decode (readAsDataURL file)) as [img|]; [|discriminate].
  destruct (quality_search toDataURL (render img) file) as [s|]; [|discriminate].
  intros [= <-]. unfold choose.
  destruct (File.size file <=? Blob.size (blob s)) eqn:E; cbn.
  - left. repeat split.
  - right. apply Z.leb_gt in E. repeat split. exact E.
Qed.

(** X1.  A result is never larger than the file it came from, and
    [originalSize] is the file's size.  The sizes are equal exactly when
    the original was kept, and the result is strictly smaller exactly
    when it is the re-encoded image under its new name. *)
Theorem processImage_never_larger
  (decode : DataURL.t -> option Image.t)
  (toDataURL : Canvas.t -> string -> float -> DataURL.t)
  (file : File.t) (r : ProcessedImage.t) :
  processImage decode toDataURL file = Promise.Resolved r ->
  ProcessedImage.originalSize r = File.size file
  /\ ProcessedImage.size r <= ProcessedImage.originalSize r
  /\ (ProcessedImage.size r = ProcessedImage.originalSize r ->
      ProcessedImage.name r = File.name file
      /\ ProcessedImage.url r = readAsDataURL file)
  /\ (ProcessedImage.size r < ProcessedImage.originalSize r ->
      ProcessedImage.name r
      = (replace_extension (File.name file) ++ "-optimized.webp")%string).
Proof.
  intros Hr.
  destruct (processImage_result_cases _ _ _ _ Hr)
    as [(Hn & Hu & Hs & Ho) | (Hn & Hs & Ho)]; rewrite Ho.
  - split; [reflexivity|]. split; [lia|]. split; [intros _; split; assumption|].
    intros Hlt. lia.
  - split; [reflexivity|]. split; [lia|]. split; [intros Heq; lia|].
    intros _. exact Hn.
Qed.

Lemma processImage_never_larger_witness :
  ProcessedImage.originalSize optimized_result = File.size (png "photo.png" 9)
  /\ ProcessedImage.size optimized_result
     <= ProcessedImage.originalSize optimized_result.
Proof.
  destruct (processImage_never_larger (decoder 800 600) graded_encoder
              (png "photo.png" 9) optimized_result) as (H1 & H2 & _).
  - vm_compute. reflexivity.
  - split; assumption.
Defined.

(** X2.  [processImage] resolves exactly when the browser decodes the
    file; otherwise its promise stays pending.  It has no other outcome:
    no rejection, and no search that runs on for ever. *)
Theorem processImage_resolves_iff_decodes
  (decode : DataURL.t -> option Image.t)
  (toDataURL : Canvas.t -> string -> float -> DataURL.t)
  (file : File.t) :
  ((exists r, processImage decode toDataURL file = Promise.Resolved r)
   <-> decode (readAsDataURL file) <> None)
  /\ (processImage decode toDataURL file = Promise.Pending
      <-> decode (readAsDataURL file) = None).
Proof.
  split; split.
  - intros [r Hr] Hdec. rewrite (processImage_pending _ _ _ Hdec) in Hr.
    discriminate.
  - apply processImage_resolves.
  - intros Hp. destruct (decode (readAsDataURL file)) as [img|] eqn:Hdec;
      [|reflexivity].
    destruct (processImage_resolves decode toDataURL file) as [r Hr];
      [rewrite Hdec; discriminate | congruence].
  - apply processImage_pending.
Qed.

(** ** The quality search *)

(** X3.  The search encodes once, at quality 0.8 only, exactly when that
    first encoding is not larger than the file. *)
Theorem quality_search_single_encode
  (toDataURL : Canvas.t -> string -> float -> DataURL.t)
  (canvas : Canvas.t) (file : File.t) (s : search) :
  quality_search toDataURL canvas file = Some s ->
  (encodes s = [0.8%float]
   <-> encoded_size toDataURL canvas 0.8 <= File.size file).
Proof.
  intros Hrun.
  destruct (quality_search_spec toDataURL canvas file)
    as (s' & m & Hrun' & Hm & (Hq & He & _) & Hall & Hend).
  rewrite Hrun in Hrun'. injection Hrun' as <-.
  destruct m as [|m].
  - split; [intros _; apply Hend; lia | intros _; exact He].
  - split.
    + intros Hone. rewrite He in Hone. discriminate.
    + intros Hle. specialize (Hall 0%nat ltac:(lia)).
      change (scheduled 0) with 0.8%float in Hall. lia.
Qed.

Lemma quality_search_single_encode_witness :
  encodes (encode graded_encoder (render small_image) 0.8 []) = [0.8%float]
  <-> encoded_size graded_encoder (render small_image) 0.8
      <= File.size (png "photo.png" 20).
Proof.
  apply (quality_search_single_encode graded_encoder (render small_image)
           (png "photo.png" 20)).
  vm_compute. reflexivity.
Defined.

(** X4.  When the encoding is larger than the file at every quality of
    the schedule, the search goes through all nine of them and
    [processImage] falls back to the original file. *)
Theorem processImage_exhausted_search_keeps_original
  (decode : DataURL.t -> option Image.t)
  (toDataURL : Canvas.t -> string -> float -> DataURL.t)
  (file : File.t) (img : Image.t) :
  decode (readAsDataURL file) = Some img ->
  Forall (fun q => File.size file < encoded_size toDataURL (render img) q)
    quality_schedule ->
  (exists s, quality_search toDataURL (render img) file = Some s
             /\ encodes s = quality_schedule)
  /\ processImage decode toDataURL file
     = Promise.Resolved
         {| ProcessedImage.name := File.name file;
            ProcessedImage.url := readAsDataURL file;
            ProcessedImage.size := File.size file;
            ProcessedImage.originalSize := File.size file |}.
Proof.
  intros Hdec Hlarge.
  destruct (quality_search_spec toDataURL (render img) file)
    as (s & m & Hrun & Hm & Hat & Hall & Hend).
  assert (Hsched : forall n, (n <= 8)%nat ->
            File.size file < encoded_size toDataURL (render img) (scheduled n)).
  { intros n Hn. rewrite Forall_forall in Hlarge. apply Hlarge.
    unfold scheduled. apply list_elem_of_In, nth_In. simpl. lia. }
  assert (m = 8%nat).
  { destruct (Nat.eq_dec m 8%nat) as [|Hne]; [assumption|].
    specialize (Hend ltac:(lia)). specialize (Hsched m Hm). lia. }
  subst m. split.
  - exists s. split; [exact Hrun|]. destruct Hat as (_ & He & _). exact He.
  - unfold processImage. rewrite Hdec, Hrun. unfold choose.
    rewrite (search_at_size _ _ _ _ Hat).
    specialize (Hsched 8%nat ltac:(lia)).
    replace (File.size file <=? encoded_size toDataURL (render img) (scheduled 8))
      with true by (symmetry; apply Z.leb_le; lia).
    reflexivity.
Qed.

Lemma processImage_exhausted_search_keeps_original_witness :
  processImage (decoder 800 600) (flat_encoder 7) (png "photo.png" 5)
  = Promise.Resolved kept_result.
Proof.
  apply (processImage_exhausted_search_keeps_original (decoder 800 600)
           (flat_encoder 7) (png "photo.png" 5) small_image).
  - vm_compute. reflexivity.
  - repeat constructor.
Defined.

(** X5.  Every quality value that the search hands to the encoder lies
    in the range that [toDataURL] accepts, above 0 and at most 0.8, and
    each one is lower than the one before. *)
Theorem quality_search_qualities_in_range
  (toDataURL : Canvas.t -> string -> float -> DataURL.t)
  (canvas : Canvas.t) (file : File.t) (s : search) :
  quality_search toDataURL canvas file = Some s ->
  Forall (fun q => (0 <? q)%float = true /\ (q <=? 0.8)%float = true) (encodes s)
  /\ (forall (i : nat) (a b : float),
        encodes s !! i = Some a -> encodes s !! S i = Some b ->
        (b <? a)%float = true).
Proof.
  intros Hrun.
  destruct (quality_search_spec toDataURL canvas file)
    as (s' & m & Hrun' & Hm & (_ & He & _) & _).
  rewrite Hrun in Hrun'. injection Hrun' as <-. rewrite He. split.
  - apply Forall_take. repeat constructor.
  - intros i a b Ha Hb.
    apply lookup_take_Some in Ha as [Ha _]. apply lookup_take_Some in Hb as [Hb _].
    do 8 (destruct i as [|i];
          [injection Ha as <-; injection Hb as <-; vm_compute; reflexivity|]).
    destruct i; discriminate.
Qed.

Lemma quality_search_qualities_in_range_witness :
  Forall (fun q => (0 <? q)%float = true /\ (q <=? 0.8)%float = true)
    quality_schedule.
Proof.
  destruct (quality_search_qualities_in_range (flat_encoder 2)
              (render small_image) (png "a.png" 1)
              {| quality := 1.3877787807814457e-16;
                 webpUrl := flat_encoder 2 (render small_image) "image/webp"
                              1.3877787807814457e-16;
                 blob := fetch_blob (flat_encoder 2 (render small_image)
                              "image/webp" 1.3877787807814457e-16);
                 encodes := quality_schedule |}) as [H _].
  - vm_compute. reflexivity.
  - exact H.
Defined.

(** ** The result name *)

Lemma extension_at_cons (c : ascii) (s : string) :
  extension_at (String c s)
  = Ascii.eqb c "." && negb (String.eqb s "") && class_to_end s.
Proof.
  destruct (Ascii.eqb_spec c ".") as [->|Hc].
  - destruct s; reflexivity.
  - destruct c as [[] [] [] [] [] [] [] []]; try reflexivity.
    contradiction Hc. reflexivity.
Qed.

(** X6.  The regular expression removes a final extension and nothing
    else: when the name ends in a dot followed by at least one character,
    none of them a dot or a slash, what is left is the text before that
    dot; every other name (no dot, a dot at the very end, a slash after
    the last dot) is left whole. *)
Theorem replace_extension_cases (s : string) :
  (exists base ext : string,
     s = (base ++ String "." ext)%string
     /\ ext <> "" /\ class_to_end ext = true
     /\ replace_extension s = base)
  \/ (replace_extension s = s
      /\ forall base ext : string,
           s = (base ++ String "." ext)%string ->
           ext = "" \/ class_to_end ext = false).
Proof.
  induction s as [|c s IH].
  - right. split; [reflexivity|]. intros [|b base] ext H; discriminate.
  - unfold replace_extension; fold replace_extension.
    destruct (extension_at (String c s)) eqn:E.
    + left. rewrite extension_at_cons in E.
      apply andb_true_iff in E as [E Hclass].
      apply andb_true_iff in E as [Hc Hne].
      apply Ascii.eqb_eq in Hc. subst c.
      exists "", s. repeat split; [|exact Hclass].
      intros ->. discriminate.
    + destruct IH as [(base & ext & -> & Hne & Hclass & Hrep) | [Hrep Hno]].
      * left. exists (String c base), ext. repeat split; [exact Hne | exact Hclass |].
        rewrite Hrep. reflexivity.
      * right. rewrite Hrep. split; [reflexivity|].
        intros [|b base] ext H.
        -- simpl in H. injection H as -> ->.
           rewrite extension_at_cons in E. simpl in E.
           destruct ext; [left; reflexivity | right; exact E].
        -- simpl in H. injection H as _ ->. eapply Hno. reflexivity.
Qed.

(** ** [Promise.all] and [onDrop] *)

Section PromiseAllConverse.

Context {A : Type}.
Variable ps : list (Promise.t A).

(** A slot is filled only by the reaction of its own index. *)
Lemma all_fold_filled_by (order : list nat) (st : Promise.all_state A)
  (i : nat) (v : A) :
  Promise.values (fold_left (Promise.all_settle ps) order st) !! i = Some (Some v) ->
  Promise.values st !! i = Some (Some v) \/ In i order.
Proof.
  revert st. induction order as [|j order IH]; intros st H; simpl in *.
  - left. exact H.
  - destruct (IH _ H) as [Hst|Hin]; [|right; right; exact Hin].
    unfold Promise.all_settle in Hst.
    destruct (ps !! j) as [[w|]|]; try (left; exact Hst).
    destruct (Promise.values st !! j) as [[u|]|] eqn:Hj; try (left; exact Hst).
    cbn in Hst. destruct (Nat.eq_dec j i) as [->|Hne]; [right; left; reflexivity|].
    rewrite list_lookup_insert_ne in Hst by exact Hne. left. exact Hst.
Qed.

Lemma empty_slots_none (l : list (option A)) :
  empty_slots l = 0%nat -> exists vs, l = map Some vs.
Proof.
  induction l as [|[a|] l IH]; simpl; intros H.
  - exists []. reflexivity.
  - destruct (IH H) as [vs ->]. exists (a :: vs). reflexivity.
  - discriminate.
Qed.

Lemma omap_id_Some (vs : list A) : omap id (map Some vs) = vs.
Proof. induction vs as [|a vs IH]; [reflexivity|]. cbn. f_equal. exact IH. Qed.

End PromiseAllConverse.

(** X7.  [Promise.all] resolves exactly when every input promise has
    resolved and the reaction of each one has run, and then with their
    values in input order; short of that it stays pending, so no result
    is delivered before the last pipeline is done. *)
Theorem Promise_all_resolves_iff {A : Type}
  (ps : list (Promise.t A)) (order : list nat) (vs : list A) :
  Promise.all ps order = Promise.Resolved vs
  <-> ps = map Promise.Resolved vs
      /\ forall i, (i < length ps)%nat -> In i order.
Proof.
  split.
  - unfold Promise.all, Promise.all_run.
    pose proof (all_invariant_fold ps order _ (all_invariant_init ps))
      as (Hlen & Hrem & Hval).
    pose proof (all_fold_filled_by ps order (Promise.all_init (length ps))) as Hby.
    set (st := fold_left (Promise.all_settle ps) order (Promise.all_init (length ps))) in *.
    destruct (Promise.remaining st) eqn:Hzero; [|discriminate].
    symmetry in Hrem.
    destruct (empty_slots_none _ Hrem) as [ws Hws].
    rewrite Hws, omap_id_Some. intros [= ->].
    rewrite Hws, length_map in Hlen.
    split.
    + apply list_eq. intros i. rewrite list_lookup_fmap.
      destruct (vs !! i) as [v|] eqn:Hv; simpl.
      * apply Hval. rewrite Hws, list_lookup_fmap, Hv. reflexivity.
      * apply lookup_ge_None. apply lookup_ge_None in Hv. lia.
    + intros i Hi.
      destruct (lookup_lt_is_Some_2 vs i ltac:(lia)) as [v Hv].
      destruct (Hby i v) as [Hinit|Hin]; [| |exact Hin].
      * rewrite Hws, list_lookup_fmap, Hv. reflexivity.
      * cbn in Hinit. apply lookup_replicate in Hinit as [? _]. discriminate.
  - intros [-> Hcover]. apply all_resolved.
    intros i Hi. apply Hcover. rewrite length_map. exact Hi.
Qed.

(** X8.  A drop without accepted files resolves at once with an empty
    list: the results of the previous batch are discarded and nothing is
    left to show. *)
Theorem onDrop_empty_clears_results
  (decode : DataURL.t -> option Image.t)
  (toDataURL : Canvas.t -> string -> float -> DataURL.t)
  (order : list nat) (st : AppState) :
  onDrop decode toDataURL order [] st
  = {| processedImages := []; isProcessing := false |}
  /\ view (onDrop decode toDataURL order [] st)
     = {| spinner := false; panel := None |}.
Proof.
  assert (H : onDrop decode toDataURL order [] st
              = {| processedImages := []; isProcessing := false |}).
  { pose proof (all_resolved (@nil ProcessedImage.t) order) as Hall.
    simpl in Hall. unfold onDrop. simpl map.
    rewrite Hall; [reflexivity|]. intros i Hi. lia. }
  rewrite H. split; reflexivity.
Qed.

(** ** [downloadAll] *)

Lemma downloadAll_snoc (l : list ProcessedImage.t) (image : ProcessedImage.t) :
  downloadAll (l ++ [image])
  = zip_file (ProcessedImage.name image) (base64Data image) (downloadAll l).
Proof. unfold downloadAll. rewrite fold_left_app. reflexivity. Qed.

Lemma slash_free_app (s t : string) :
  slash_free (s ++ t)%string = slash_free s && slash_free t.
Proof.
  induction s as [|c s IH]; simpl; [reflexivity|].
  rewrite IH. apply andb_assoc.
Qed.

Lemma slash_free_ends (name : string) :
  slash_free name = true -> ends_with_slash name = false.
Proof.
  induction name as [|c name IH]; simpl; [reflexivity|].
  intros H. apply andb_true_iff in H as [Hc Hrest].
  destruct name as [|c' name'].
  - destruct (Ascii.eqb c "/"); [discriminate | reflexivity].
  - apply IH. exact Hrest.
Qed.

Lemma slash_free_lastIndexOf (name : string) :
  slash_free name = true -> lastIndexOf_slash name = None.
Proof.
  induction name as [|c name IH]; simpl; [reflexivity|].
  intros H. apply andb_true_iff in H as [Hc Hrest].
  rewrite (IH Hrest). destruct (Ascii.eqb c "/"); [discriminate | reflexivity].
Qed.

(** A name without a slash has no folder, and [zip.file] only writes
    the entry of the name. *)
Lemma zip_file_slash_free (name : string) (data : list Byte.byte)
  (zip : gmap string ZipEntry) :
  slash_free name = true ->
  zip_file name data zip = <[name := ZipFile data]> zip.
Proof.
  intros H. unfold zip_file, parentFolder.
  rewrite (slash_free_ends name H), (slash_free_lastIndexOf name H). reflexivity.
Qed.

(** X9.  When no result name has a slash, the archive has an entry under
    a name exactly when some result has that name, and the entry is a
    file with the bytes of the last result of that name in the list: a
    later result replaces an earlier one of the same name. *)
Theorem downloadAll_lookup (l : list ProcessedImage.t) (n : string) :
  Forall (fun image => slash_free (ProcessedImage.name image) = true) l ->
  downloadAll l !! n
  = fmap (fun image => ZipFile (base64Data image))
      (last (filter (fun image => ProcessedImage.name image = n) l)).
Proof.
  induction l as [|image l IH] using rev_ind; intros Hl.
  - reflexivity.
  - apply Forall_app in Hl as [Hl Himage]. apply Forall_inv in Himage.
    rewrite downloadAll_snoc, filter_app, zip_file_slash_free by exact Himage.
    destruct (decide (ProcessedImage.name image = n)) as [Hn|Hn].
    + rewrite Hn, lookup_insert_eq.
      rewrite filter_cons_True by exact Hn.
      rewrite filter_nil, last_snoc. reflexivity.
    + rewrite lookup_insert_ne by exact Hn.
      rewrite filter_cons_False by exact Hn.
      rewrite filter_nil, app_nil_r. exact (IH Hl).
Qed.

Lemma downloadAll_lookup_witness :
  downloadAll repeated_names !! "a.png" = Some (ZipFile (zero_bytes 3))
  /\ downloadAll repeated_names !! "b-optimized.webp" = Some (ZipFile (zero_bytes 2))
  /\ downloadAll repeated_names !! "b.png" = None.
Proof.
  split; [|split];
    (rewrite (downloadAll_lookup repeated_names); [reflexivity | repeat constructor]).
Defined.

Lemma downloadAll_is_Some (l : list ProcessedImage.t) (n : string) :
  Forall (fun image => slash_free (ProcessedImage.name image) = true) l ->
  is_Some (downloadAll l !! n) <-> In n (map ProcessedImage.name l).
Proof.
  induction l as [|image l IH] using rev_ind; intros Hl.
  - simpl. split; [intros [x Hx]; discriminate | contradiction].
  - apply Forall_app in Hl as [Hl Himage]. apply Forall_inv in Himage.
    rewrite downloadAll_snoc, map_app, in_app_iff, zip_file_slash_free by exact Himage.
    simpl.
    destruct (decide (ProcessedImage.name image = n)) as [Hn|Hn].
    + rewrite Hn, lookup_insert_eq. split; [tauto | eauto].
    + rewrite lookup_insert_ne by exact Hn. rewrite (IH Hl). tauto.
Qed.

(** X10.  When no result name has a slash, the archive never has more
    entries than there are results, and it has one entry per result
    exactly when the result names are pairwise different; with a
    repeated name, images are missing from the download. *)
Theorem downloadAll_size (l : list ProcessedImage.t) :
  Forall (fun image => slash_free (ProcessedImage.name image) = true) l ->
  (size (downloadAll l) <= length l)%nat
  /\ (size (downloadAll l) = length l <-> NoDup (map ProcessedImage.name l)).
Proof.
  induction l as [|image l IH] using rev_ind; intros Hl.
  - unfold downloadAll. simpl. rewrite map_size_empty.
    split; [lia|]. split; [intros _; constructor | reflexivity].
  - apply Forall_app in Hl as [Hl Himage]. apply Forall_inv in Himage.
    destruct (IH Hl) as [IHle IHiff].
    rewrite downloadAll_snoc, length_app, map_app, zip_file_slash_free by exact Himage.
    simpl. rewrite map_size_insert. unfold id.
    pose proof (downloadAll_is_Some l (ProcessedImage.name image) Hl) as Hin.
    rewrite NoDup_app.
    destruct (downloadAll l !! ProcessedImage.name image) as [d|] eqn:Hd; simpl.
    + assert (Hmem : In (ProcessedImage.name image) (map ProcessedImage.name l))
        by (apply Hin; eauto).
      split; [lia|]. split; [lia|].
      intros (_ & Hdisj & _). exfalso.
      apply (Hdisj (ProcessedImage.name image)).
      * apply list_elem_of_In. exact Hmem.
      * constructor.
    + assert (Hnot : ~ In (ProcessedImage.name image) (map ProcessedImage.name l)).
      { intros Hmem. apply Hin in Hmem. destruct Hmem as [x Hx]. discriminate. }
      split; [lia|]. split.
      * intros Hsize. split; [apply IHiff; lia|]. split.
        -- intros x Hx Hx'. apply list_elem_of_In in Hx.
           apply list_elem_of_singleton in Hx'. subst x. contradiction.
        -- repeat constructor. intros H. inversion H.
      * intros (Hnd & _ & _). apply IHiff in Hnd. lia.
Qed.

Lemma downloadAll_size_witness :
  (size (downloadAll repeated_names) <= 3)%nat
  /\ (size (downloadAll repeated_names) = 3%nat
      <-> NoDup ["a.png"; "b-optimized.webp"; "a.png"]).
Proof.
  apply (downloadAll_size repeated_names). repeat constructor.
Defined.

(** X11.  Two files whose names differ only in the extension and that
    are both re-encoded get the same result name, so the archive of the
    two results has a single entry, with the bytes of the second.  (The
    names have no slash.) *)
Theorem processImage_name_collision
  (decode : DataURL.t -> option Image.t)
  (toDataURL : Canvas.t -> string -> float -> DataURL.t)
  (f1 f2 : File.t) (r1 r2 : ProcessedImage.t) (base ext1 ext2 : string) :
  File.name f1 = (base ++ String "." ext1)%string ->
  File.name f2 = (base ++ String "." ext2)%string ->
  slash_free base = true ->
  ext1 <> "" -> class_to_end ext1 = true ->
  ext2 <> "" -> class_to_end ext2 = true ->
  processImage decode toDataURL f1 = Promise.Resolved r1 ->
  processImage decode toDataURL f2 = Promise.Resolved r2 ->
  ProcessedImage.size r1 < ProcessedImage.originalSize r1 ->
  ProcessedImage.size r2 < ProcessedImage.originalSize r2 ->
  ProcessedImage.name r1 = (base ++ "-optimized.webp")%string
  /\ ProcessedImage.name r2 = ProcessedImage.name r1
  /\ size (downloadAll [r1; r2]) = 1%nat
  /\ downloadAll [r1; r2] !! ProcessedImage.name r1 = Some (ZipFile (base64Data r2)).
Proof.
  intros Hn1 Hn2 Hbase He1 Hc1 He2 Hc2 Hr1 Hr2 Hs1 Hs2.
  destruct (processImage_result_cases _ _ _ _ Hr1)
    as [(_ & _ & Hk & Ho) | (Hname1 & _)]; [lia|].
  destruct (processImage_result_cases _ _ _ _ Hr2)
    as [(_ & _ & Hk & Ho) | (Hname2 & _)]; [lia|].
  rewrite Hn1, replace_extension_strips in Hname1 by assumption.
  rewrite Hn2, replace_extension_strips in Hname2 by assumption.
  split; [exact Hname1|]. split; [congruence|].
  assert (Hfree : slash_free (base ++ "-optimized.webp")%string = true).
  { rewrite slash_free_app, Hbase. reflexivity. }
  unfold downloadAll. simpl. rewrite Hname2, Hname1.
  rewrite !zip_file_slash_free by exact Hfree.
  rewrite insert_insert_eq. split.
  - rewrite insert_empty. apply map_size_singleton.
  - apply lookup_insert_eq.
Qed.

Lemma processImage_name_collision_witness :
  size (downloadAll
          [optimized_result;
           {| ProcessedImage.name := "photo-optimized.webp";
              ProcessedImage.url :=
                graded_encoder (render small_image) "image/webp" 0.5000000000000001;
              ProcessedImage.size := 10;
              ProcessedImage.originalSize := 11 |}]) = 1%nat.
Proof.
  eapply (processImage_name_collision (decoder 800 600) graded_encoder
            (png "photo.png" 9) (jpg "photo.jpg" 11) _ _ "photo" "png" "jpg").
  - reflexivity.
  - reflexivity.
  - reflexivity.
  - discriminate.
  - reflexivity.
  - discriminate.
  - reflexivity.
  - vm_compute. reflexivity.
  - vm_compute. reflexivity.
  - vm_compute. reflexivity.
  - vm_compute. reflexivity.
Defined.

(** ** What is shown after a drop *)

Section Shown.

Variable decode : DataURL.t -> option Image.t.
Variable toDataURL : Canvas.t -> string -> float -> DataURL.t.

Lemma onDrop_pending (order : list nat) (acceptedFiles : list File.t)
  (bad : File.t) (st : AppState) :
  In bad acceptedFiles ->
  decode (readAsDataURL bad) = None ->
  onDrop decode toDataURL order acceptedFiles st = setIsProcessing true st.
Proof.
  intros Hin Hbad.
  apply list_elem_of_In, list_elem_of_lookup in Hin as [j Hj].
  unfold onDrop. rewrite (all_pending _ order j); [reflexivity|].
  rewrite list_lookup_fmap, Hj. simpl.
  rewrite processImage_pending by exact Hbad. reflexivity.
Qed.

Lemma onDrop_resolved (order : list nat) (acceptedFiles : list File.t)
  (results : list ProcessedImage.t) (st : AppState) :
  Forall2 (fun f r => processImage decode toDataURL f = Promise.Resolved r)
    acceptedFiles results ->
  (forall i, (i < length acceptedFiles)%nat -> In i order) ->
  onDrop decode toDataURL order acceptedFiles st
  = {| processedImages := results; isProcessing := false |}.
Proof.
  intros Hall Hcover.
  assert (Hlen : length acceptedFiles = length results)
    by (eapply Forall2_length; exact Hall).
  assert (Hmap : map (processImage decode toDataURL) acceptedFiles
                 = map Promise.Resolved results).
  { clear Hcover Hlen. induction Hall as [|f r fs rs Hf _ IH]; simpl; [reflexivity|].
    rewrite Hf, IH. reflexivity. }
  unfold onDrop. rewrite Hmap, all_resolved; [reflexivity|].
  intros i Hi. apply Hcover. lia.
Qed.

End Shown.

(** X12.  After a drop that contains a file the browser cannot decode,
    the page shows the spinner and no results block, whatever it showed
    before: the results of the previous batch are hidden as well, and
    they stay hidden, as [isProcessing] is never reset. *)
Theorem view_after_stalled_drop
  (decode : DataURL.t -> option Image.t)
  (toDataURL : Canvas.t -> string -> float -> DataURL.t)
  (order : list nat) (acceptedFiles : list File.t) (bad : File.t)
  (st : AppState) :
  In bad acceptedFiles ->
  decode (readAsDataURL bad) = None ->
  view (onDrop decode toDataURL order acceptedFiles st)
  = {| spinner := true; panel := None |}.
Proof.
  intros Hin Hbad. rewrite (onDrop_pending _ _ _ _ bad) by assumption.
  unfold view, setIsProcessing. cbn. rewrite andb_false_r. reflexivity.
Qed.

Lemma view_after_stalled_drop_witness :
  view (onDrop (decoder 800 600) graded_encoder [0; 2]%nat broken_batch
          {| processedImages := [kept_result]; isProcessing := false |})
  = {| spinner := true; panel := None |}.
Proof.
  apply (view_after_stalled_drop (decoder 800 600) graded_encoder [0; 2]%nat
           broken_batch (png "broken.png" 0)).
  - simpl. tauto.
  - vm_compute. reflexivity.
Defined.

(** X13.  After a drop of at least one file in which every pipeline
    completes, the spinner is gone and the results block lists one item
    per dropped file, in the order of the drop, under the result's name
    and with both sizes written by [formatSize]; the heading counts the
    dropped files. *)
Theorem view_after_completed_drop
  (decode : DataURL.t -> option Image.t)
  (toDataURL : Canvas.t -> string -> float -> DataURL.t)
  (order : list nat) (acceptedFiles : list File.t)
  (results : list ProcessedImage.t) (st : AppState) :
  acceptedFiles <> [] ->
  Forall2 (fun f r => processImage decode toDataURL f = Promise.Resolved r)
    acceptedFiles results ->
  (forall i, (i < length acceptedFiles)%nat -> In i order) ->
  view (onDrop decode toDataURL order acceptedFiles st)
  = {| spinner := false;
       panel := Some {| count := length acceptedFiles;
                        saved := calculateTotalSavings results;
                        items := map view_item results |} |}.
Proof.
  intros Hne Hall Hcover.
  rewrite (onDrop_resolved decode toDataURL order acceptedFiles results st Hall Hcover).
  assert (Hlen : length acceptedFiles = length results)
    by (eapply Forall2_length; exact Hall).
  unfold view. cbn [processedImages isProcessing].
  destruct results as [|r results].
  - destruct acceptedFiles; [contradiction | discriminate].
  - rewrite Hlen. reflexivity.
Qed.

Lemma view_after_completed_drop_witness :
  exists p : Panel,
    panel (view (onDrop (decoder 800 600) graded_encoder [2; 0; 1]%nat
                   sound_batch idle)) = Some p
    /\ count p = 3%nat
    /\ saved p = "16.1"
    /\ map title (items p) = ["a-optimized.webp"; "b.png"; "c-optimized.webp"]
    /\ map originalText (items p) = ["20 Bytes"; "2 Bytes"; "9 Bytes"]
    /\ map compressedText (items p) = ["16 Bytes"; "2 Bytes"; "8 Bytes"].
Proof.
  rewrite (view_after_completed_drop (decoder 800 600) graded_encoder
             [2; 0; 1]%nat sound_batch
             (omap (fun f =>
                      match processImage (decoder 800 600) graded_encoder f with
                      | Promise.Resolved r => Some r
                      | Promise.Pending => None
                      end) sound_batch) idle).
  - eexists. split; [reflexivity|]. vm_compute. repeat split.
  - discriminate.
  - vm_compute. repeat constructor.
  - intros i Hi.
    destruct i as [|[|[|i]]]; simpl in *; [tauto | tauto | tauto | lia].
Defined.

(** ** The display helpers, continued *)

(** X14.  A size below 1024 bytes is shown as that very number of
    "Bytes", and a whole number of kibibytes or mebibytes below 1024 is
    shown as that number, without decimals, followed by "KB" or "MB". *)
Theorem formatSize_whole_units (n : Z) :
  0 < n < 1024 ->
  formatSize n = (Number.digits n ++ " Bytes")%string
  /\ formatSize (n * 1024) = (Number.digits n ++ " KB")%string
  /\ formatSize (n * 1048576) = (Number.digits n ++ " MB")%string.
Proof.
  intros Hn.
  assert (Hall :
    forallb (fun k : nat =>
               let n := Z.of_nat k in
               String.eqb (formatSize n) (Number.digits n ++ " Bytes")
               && String.eqb (formatSize (n * 1024)) (Number.digits n ++ " KB")
               && String.eqb (formatSize (n * 1048576)) (Number.digits n ++ " MB"))
      (seq 1 1023) = true) by (vm_compute; reflexivity).
  rewrite forallb_forall in Hall.
  specialize (Hall (Z.to_nat n)).
  rewrite Z2Nat.id in Hall by lia.
  assert (Hin : In (Z.to_nat n) (seq 1 1023)) by (apply in_seq; lia).
  specialize (Hall Hin). cbv zeta in Hall.
  apply andb_true_iff in Hall as [Hall Hmb].
  apply andb_true_iff in Hall as [Hb Hkb].
  apply String.eqb_eq in Hb, Hkb, Hmb. auto.
Qed.

Lemma formatSize_whole_units_witness :
  formatSize 853 = "853 Bytes"
  /\ formatSize (853 * 1024) = "853 KB"
  /\ formatSize (853 * 1048576) = "853 MB".
Proof. apply (formatSize_whole_units 853). lia. Defined.

(** An integer between 1 and 2^53 - 1 is a finite positive Number. *)
Lemma Prim2SF_of_Z_pos (z : Z) :
  0 < z < 2 ^ 53 ->
  exists m e, Prim2SF (Number.of_Z z) = S754_finite false m e.
Proof.
  intros [H0 H1]. destruct z as [|p|p]; try lia.
  unfold Number.of_Z, binary_normalize.
  destruct (binary_round_small false p H1) as (m & e & -> & _ & _ & Hv).
  exists m, e. apply Prim2SF_SF2Prim. exact Hv.
Qed.

(** X15.  When the results together are exactly as large as the
    originals (nothing was saved, for instance because every original
    was kept), the savings text is "0.0". *)
Theorem calculateTotalSavings_nothing_saved (l : list ProcessedImage.t) :
  total ProcessedImage.size l = total ProcessedImage.originalSize l ->
  0 < total ProcessedImage.originalSize l < 2 ^ 53 ->
  calculateTotalSavings l = "0.0".
Proof.
  intros Heq Hpos. unfold calculateTotalSavings.
  rewrite !fold_left_total, !Z.add_0_l, Heq, Z.sub_diag.
  destruct (Prim2SF_of_Z_pos _ Hpos) as (m & e & Hsf).
  assert (Hzero : (Number.of_Z 0 / Number.of_Z (total ProcessedImage.originalSize l))%float
                  = 0%float).
  { apply Prim2SF_inj. rewrite div_spec, Hsf. reflexivity. }
  rewrite Hzero. vm_compute. reflexivity.
Qed.

Lemma calculateTotalSavings_nothing_saved_witness :
  calculateTotalSavings [result 1000 1000; result 2000 2000] = "0.0".
Proof.
  apply calculateTotalSavings_nothing_saved.
  - reflexivity.
  - vm_compute. split; reflexivity.
Defined.

(** X16.  When the original sizes add up to zero, as they do for an
    empty result list, the division is 0 / 0 and the savings text is
    "NaN". *)
Theorem calculateTotalSavings_zero_total (l : list ProcessedImage.t) :
  total ProcessedImage.originalSize l = 0 ->
  total ProcessedImage.size l = 0 ->
  calculateTotalSavings l = "NaN".
Proof.
  intros Ho Hs. unfold calculateTotalSavings.
  rewrite !fold_left_total, !Z.add_0_l, Ho, Hs. vm_compute. reflexivity.
Qed.

Lemma calculateTotalSavings_zero_total_witness :
  calculateTotalSavings [] = "NaN".
Proof. apply calculateTotalSavings_zero_total; reflexivity. Defined.

(** ** Bounds on binary64 results

    The rounding of a non-negative value never passes a bound that is
    itself an integer below 2^53: this gives upper bounds on quotients
    and products of Numbers without any error analysis. *)

Section Rounding.

Ltac fold_Z :=
  change IntDef.Z.max with Z.max in *; change IntDef.Z.sub with Z.sub in *;
  change IntDef.Z.add with Z.add in *; change IntDef.Z.leb with Z.leb in *;
  change IntDef.Z.eqb with Z.eqb in *; change IntDef.Z.mul with Z.mul in *;
  change IntDef.Z.min with Z.min in *; change IntDef.Z.opp with Z.opp in *;
  change IntDef.Z.even with Z.even in *; change IntDef.Z.compare with Z.compare in *;
  change IntDef.Z.div_eucl with Z.div_eucl in *; change IntDef.Z.shiftl with Z.shiftl in *.

Lemma shifted_one (x : shr_record) : 0 <= shr_m x -> shifted_right 1 x (shr_1 x).
Proof.
  destruct x as [m r s]. simpl. intros Hm. unfold shifted_right, shr_exact. simpl.
  split; [exact Hm|].
  destruct m as [|[p|p|]|p]; try lia; simpl shr_m; simpl shr_r; simpl shr_s.
  - split; [reflexivity|]. rewrite orb_false_iff. simpl. tauto.
  - split; [rewrite Pos2Z.inj_xI; change (2 ^ 1) with 2; apply Z.div_unique with 1; lia|].
    rewrite Pos2Z.inj_xI. change (2 ^ 1) with 2.
    replace ((2 * Z.pos p + 1) mod 2) with 1 by (apply Z.mod_unique with (Z.pos p); lia).
    split; [intros [H _]; discriminate | intros [_ H]; discriminate].
  - split; [rewrite Pos2Z.inj_xO; change (2 ^ 1) with 2; apply Z.div_unique with 0; lia|].
    rewrite Pos2Z.inj_xO. change (2 ^ 1) with 2.
    replace ((2 * Z.pos p) mod 2) with 0 by (apply Z.mod_unique with (Z.pos p); lia).
    rewrite orb_false_iff. tauto.
  - split; [reflexivity|]. change (1 mod 2 ^ 1) with 1.
    split; [intros [H _]; discriminate | intros [_ H]; discriminate].
Qed.

Lemma shifted_trans (a b : Z) (x y z : shr_record) :
  0 < a -> 0 < b -> shifted_right a x y -> shifted_right b y z -> shifted_right (a + b) x z.
Proof.
  intros Ha Hb (Hx & Hy & Hey) (Hy0 & Hz & Hez). unfold shifted_right.
  split; [exact Hx|].
  rewrite Z.pow_add_r by lia.
  split.
  - rewrite Hz, Hy. apply Z.div_div; [|apply Z.pow_pos_nonneg; lia].
    apply Z.pow_nonzero; lia.
  - rewrite Hez, Hey, Hy.
    rewrite Z.rem_mul_r by (try apply Z.pow_nonzero; try apply Z.pow_pos_nonneg; lia).
    pose proof (Z.mod_pos_bound (shr_m x) (2 ^ a) ltac:(apply Z.pow_pos_nonneg; lia)).
    pose proof (Z.mod_pos_bound (shr_m x / 2 ^ a) (2 ^ b) ltac:(apply Z.pow_pos_nonneg; lia)).
    assert (0 < 2 ^ a) by (apply Z.pow_pos_nonneg; lia).
    split.
    + intros [[He Hm] Hm']. split; [exact He|]. rewrite Hm, Hm'. lia.
    + intros [He Hm]. split; [split; [exact He|]|]; nia.
Qed.

Lemma shifted_nonneg k x y : 0 < k -> shifted_right k x y -> 0 <= shr_m y.
Proof.
  intros Hk (Hx & Hy & _). rewrite Hy. apply Z.div_pos; [exact Hx|].
  apply Z.pow_pos_nonneg; lia.
Qed.

Lemma shifted_iter (n : positive) :
  forall x, 0 <= shr_m x -> shifted_right (Z.pos n) x (SpecFloat.iter_pos shr_1 n x).
Proof.
  induction n as [n IH|n IH|]; intros x Hx; simpl SpecFloat.iter_pos.
  - rewrite Pos2Z.inj_xI.
    replace (2 * Z.pos n + 1) with (1 + Z.pos n + Z.pos n) by lia.
    pose proof (shifted_one x Hx) as H1.
    pose proof (shifted_nonneg 1 _ _ ltac:(lia) H1) as Hx1.
    pose proof (IH _ Hx1) as H2.
    pose proof (shifted_nonneg (Z.pos n) _ _ ltac:(lia) H2) as Hx2.
    pose proof (IH _ Hx2) as H3.
    eapply shifted_trans; [lia | lia | | exact H3].
    eapply shifted_trans; [lia | lia | exact H1 | exact H2].
  - rewrite Pos2Z.inj_xO.
    replace (2 * Z.pos n) with (Z.pos n + Z.pos n) by lia.
    pose proof (IH _ Hx) as H2.
    pose proof (shifted_nonneg (Z.pos n) _ _ ltac:(lia) H2) as Hx2.
    pose proof (IH _ Hx2) as H3.
    eapply shifted_trans; [lia | lia | exact H2 | exact H3].
  - apply shifted_one. exact Hx.
Qed.

Lemma shr_exact_of_loc (m : Z) (l : location) :
  shr_m (shr_record_of_loc m l) = m
  /\ (shr_exact (shr_record_of_loc m l) <-> l = loc_Exact).
Proof.
  unfold shr_exact. destruct l as [|[]]; simpl; (split; [reflexivity|]);
    split; try tauto; try discriminate; intros [H1 H2]; discriminate.
Qed.

Lemma loc_of_shr_exact (mrs : shr_record) :
  loc_of_shr_record mrs = loc_Exact <-> shr_exact mrs.
Proof.
  unfold shr_exact. destruct mrs as [m [] []]; simpl; split;
    try discriminate; try tauto; intros [H1 H2]; discriminate.
Qed.

Lemma round_nearest_even_bounds (m : Z) (l : location) :
  m <= round_nearest_even m l <= m + 1
  /\ (l = loc_Exact -> round_nearest_even m l = m).
Proof.
  unfold round_nearest_even. fold_Z.
  destruct l as [|[]]; try destruct (Z.even m); split; try lia; try discriminate;
    reflexivity.
Qed.

Lemma shr_fexp_spec (m e : Z) (l : location) :
  0 <= m ->
  exists n mrs,
    shr_fexp prec emax m e l = (mrs, e + n)
    /\ 0 <= n
    /\ e + n = Z.max e (fexp prec emax (Zdigits2 m + e))
    /\ shr_m mrs = m / 2 ^ n
    /\ (shr_exact mrs <-> l = loc_Exact /\ m mod 2 ^ n = 0).
Proof.
  intros Hm. unfold shr_fexp, shr. fold_Z.
  destruct (shr_exact_of_loc m l) as [Hrm Hrex].
  destruct (fexp prec emax (Zdigits2 m + e) - e) as [|p|p] eqn:Hd.
  - exists 0, (shr_record_of_loc m l). rewrite Z.add_0_r.
    split; [reflexivity|]. split; [lia|]. split; [lia|].
    split; [rewrite Hrm; change (2 ^ 0) with 1; symmetry; apply Z.div_1_r|].
    rewrite Hrex. change (2 ^ 0) with 1. rewrite Z.mod_1_r. tauto.
  - exists (Z.pos p), (SpecFloat.iter_pos shr_1 p (shr_record_of_loc m l)).
    destruct (shifted_iter p (shr_record_of_loc m l)) as (_ & Hsm & Hex);
      [rewrite Hrm; exact Hm|].
    rewrite Hrm in Hsm, Hex. rewrite Hrex in Hex.
    split; [reflexivity|]. split; [lia|]. split; [lia|].
    split; [exact Hsm | exact Hex].
  - exists 0, (shr_record_of_loc m l). rewrite Z.add_0_r.
    split; [reflexivity|]. split; [lia|]. split; [lia|].
    split; [rewrite Hrm; change (2 ^ 0) with 1; symmetry; apply Z.div_1_r|].
    rewrite Hrex. change (2 ^ 0) with 1. rewrite Z.mod_1_r. tauto.
Qed.

Lemma Zdigits2_le (m k : Z) : 0 <= k -> 0 <= m < 2 ^ k -> Zdigits2 m <= k.
Proof.
  intros Hk [Hm Hlt]. destruct m as [|p|p]; simpl; try lia.
  pose proof (digits2_lower p) as Hl.
  destruct (Z_le_gt_dec (Z.pos (digits2_pos p)) k) as [|Hgt]; [assumption|].
  assert (2 ^ k <= 2 ^ (Z.pos (digits2_pos p) - 1)) by (apply Z.pow_le_mono_r; lia).
  lia.
Qed.

Lemma fexp_le_0 (d : Z) : d <= 53 -> fexp prec emax d <= 0.
Proof. intros. unfold fexp, emin, prec, emax. fold_Z. lia. Qed.

Lemma round_aux_upper (s : bool) (mx ex : Z) (lx : location) (Y : Z) :
  0 <= mx -> ex <= 0 -> 0 <= Y < 2 ^ 53 ->
  mx <= Y * 2 ^ (- ex) ->
  (lx <> loc_Exact -> mx < Y * 2 ^ (- ex)) ->
  binary_round_aux prec emax s mx ex lx = S754_zero s
  \/ exists m e,
       binary_round_aux prec emax s mx ex lx = S754_finite s m e
       /\ e <= 0 /\ Z.pos m <= Y * 2 ^ (- e).
Proof.
  intros Hmx Hex HY Hle Hlt.
  unfold binary_round_aux.
  destruct (shr_fexp_spec mx ex lx Hmx) as (n1 & mrs1 & -> & Hn1 & He1 & Hm1 & Hx1).
  set (e1 := ex + n1) in *.
  assert (Hpow : forall a b, 0 <= a -> 0 <= b -> 2 ^ (a + b) = 2 ^ a * 2 ^ b)
    by (intros; apply Z.pow_add_r; lia).
  assert (Hpos : forall a, 0 <= a -> 0 < 2 ^ a) by (intros; apply Z.pow_pos_nonneg; lia).
  assert (Hd1 : Zdigits2 mx + ex <= 53).
  { assert (Zdigits2 mx <= 53 - ex); [|lia].
    apply Zdigits2_le; [lia|]. split; [lia|].
    replace (53 - ex) with (53 + - ex) by lia. rewrite Hpow by lia.
    pose proof (Hpos (- ex) ltac:(lia)). nia. }
  assert (He1' : e1 <= 0) by (pose proof (fexp_le_0 _ Hd1); lia).
  set (G := Y * 2 ^ (- e1)).
  assert (HG : Y * 2 ^ (- ex) = G * 2 ^ n1).
  { unfold G. replace (- ex) with (- e1 + n1) by (unfold e1; lia).
    rewrite Hpow by lia. lia. }
  set (m1 := shr_m mrs1) in *.
  destruct (round_nearest_even_bounds m1 (loc_of_shr_record mrs1)) as [Hb Hbe].
  set (m2 := round_nearest_even m1 (loc_of_shr_record mrs1)) in *.
  assert (Hm1nn : 0 <= m1) by (rewrite Hm1; apply Z.div_pos; [lia | apply Hpos; lia]).
  assert (Hm2 : 0 <= m2 <= G).
  { split; [lia|].
    destruct (loc_of_shr_record mrs1) eqn:Hloc.
    - rewrite (Hbe eq_refl). rewrite Hm1.
      apply Z.div_le_upper_bound; [apply Hpos; lia|]. lia.
    - assert (Hstrict : mx < G * 2 ^ n1).
      { destruct lx as [|c'] eqn:Hlx; [|rewrite <- HG; apply Hlt; discriminate].
        destruct (Z.eq_dec (mx mod 2 ^ n1) 0) as [Hz|Hnz].
        - assert (shr_exact mrs1) by (apply Hx1; split; [reflexivity | exact Hz]).
          apply loc_of_shr_exact in H. congruence.
        - destruct (Z.eq_dec mx (G * 2 ^ n1)) as [Heq|Hne]; [|lia].
          exfalso. apply Hnz. rewrite Heq. apply Z.mod_mul.
          pose proof (Hpos n1 Hn1). lia. }
      assert (m1 < G); [|lia].
      rewrite Hm1. apply Z.div_lt_upper_bound; [apply Hpos; lia|]. lia. }
  destruct (shr_fexp_spec m2 e1 loc_Exact ltac:(lia))
    as (n2 & mrs2 & -> & Hn2 & He2 & Hm3 & _).
  set (e2 := e1 + n2) in *.
  assert (Hd2 : Zdigits2 m2 + e1 <= 53).
  { assert (Zdigits2 m2 <= 53 - e1); [|lia].
    apply Zdigits2_le; [lia|]. split; [lia|].
    replace (53 - e1) with (53 + - e1) by lia. rewrite Hpow by lia.
    pose proof (Hpos (- e1) ltac:(lia)). unfold G in Hm2. nia. }
  assert (He2' : e2 <= 0) by (pose proof (fexp_le_0 _ Hd2); lia).
  assert (HG2 : G = Y * 2 ^ (- e2) * 2 ^ n2).
  { unfold G. replace (- e1) with (- e2 + n2) by (unfold e2; lia).
    rewrite Hpow by lia. lia. }
  assert (Hm3' : 0 <= shr_m mrs2 <= Y * 2 ^ (- e2)).
  { rewrite Hm3. split; [apply Z.div_pos; [lia | apply Hpos; lia]|].
    apply Z.div_le_upper_bound; [apply Hpos; lia|]. lia. }
  destruct (shr_m mrs2) as [|m|m] eqn:Hres; [left; reflexivity | | lia].
  right. exists m, e2. fold_Z.
  replace (e2 <=? emax - prec) with true
    by (symmetry; apply Z.leb_le; unfold emax, prec; lia).
  split; [reflexivity|]. split; [exact He2' | lia].
Qed.

(** The canonical form of a positive integer below 2^53. *)
Lemma Prim2SF_of_Z_value (z : Z) :
  0 < z < 2 ^ 53 ->
  exists m e,
    Prim2SF (Number.of_Z z) = S754_finite false m e
    /\ -52 <= e <= 0
    /\ Z.pos m = z * 2 ^ (- e)
    /\ Z.pos (digits2_pos m) = 53.
Proof.
  intros [H0 H1]. destruct z as [|p|p]; try lia.
  unfold Number.of_Z, binary_normalize.
  destruct (binary_round_small false p H1) as (m & e & -> & He & Hm & Hv).
  exists m, e. split; [apply Prim2SF_SF2Prim; exact Hv|].
  split; [exact He|]. split; [exact Hm|].
  unfold SpecFloat.valid_binary, bounded, canonical_mantissa in Hv.
  apply andb_true_iff in Hv as [Hc _]. fold_Z. apply Z.eqb_eq in Hc.
  unfold fexp, emin, prec, emax in Hc. fold_Z. lia.
Qed.

Lemma new_location_exact (nb k : Z) :
  new_location nb k = loc_Exact <-> k = 0.
Proof.
  unfold new_location, new_location_even, new_location_odd. fold_Z.
  destruct (Z.even nb); destruct (Z.eqb_spec k 0); split; try tauto; try discriminate.
Qed.

Lemma SFdiv_le_one (m1 m2 : positive) (e1 e2 A B : Z) :
  Z.pos (digits2_pos m1) = 53 -> Z.pos (digits2_pos m2) = 53 ->
  -52 <= e1 <= 0 -> -52 <= e2 <= 0 ->
  Z.pos m1 = A * 2 ^ (- e1) -> Z.pos m2 = B * 2 ^ (- e2) ->
  A <= B ->
  SFdiv prec emax (S754_finite false m1 e1) (S754_finite false m2 e2)
    = S754_zero false
  \/ exists m e,
       SFdiv prec emax (S754_finite false m1 e1) (S754_finite false m2 e2)
         = S754_finite false m e
       /\ e <= 0 /\ Z.pos m <= 1 * 2 ^ (- e).
Proof.
  intros Hd1 Hd2 He1 He2 Hm1 Hm2 HAB.
  unfold SFdiv, SFdiv_core_binary. simpl Zdigits2. rewrite Hd1, Hd2. fold_Z.
  assert (Hf : fexp prec emax (53 + e1 - (53 + e2)) = e1 - e2 - 53).
  { unfold fexp, emin, prec, emax. fold_Z. lia. }
  rewrite Hf. rewrite Z.min_l by lia.
  replace (e1 - e2 - (e1 - e2 - 53)) with 53 by lia.
  cbv iota. rewrite Z.shiftl_mul_pow2 by lia.
  pose proof (Z.div_eucl_eq (Z.pos m1 * 2 ^ 53) (Z.pos m2) ltac:(lia)) as Hdm.
  pose proof (Z.mod_pos_bound (Z.pos m1 * 2 ^ 53) (Z.pos m2) ltac:(lia)) as Hmod.
  unfold Z.modulo in Hmod.
  destruct (Z.div_eucl (Z.pos m1 * 2 ^ 53) (Z.pos m2)) as [q r].
  simpl. change (xorb false false) with false.
  assert (Hpos : forall a, 0 <= a -> 0 < 2 ^ a) by (intros; apply Z.pow_pos_nonneg; lia).
  assert (Hq : 0 <= q) by nia.
  assert (Hbound : Z.pos m1 * 2 ^ 53 <= Z.pos m2 * 2 ^ (- (e1 - e2 - 53))).
  { rewrite Hm1, Hm2.
    replace (- (e1 - e2 - 53)) with (53 + - e1 - - e2) by lia.
    assert (H2 : 2 ^ (53 + - e1) = 2 ^ (53 + - e1 - - e2) * 2 ^ (- e2)).
    { rewrite <- Z.pow_add_r by lia. f_equal. lia. }
    assert (H3 : 2 ^ (53 + - e1) = 2 ^ (- e1) * 2 ^ 53).
    { rewrite <- Z.pow_add_r by lia. f_equal. lia. }
    pose proof (Hpos (53 + - e1) ltac:(lia)).
    pose proof (Hpos (53 + - e1 - - e2) ltac:(lia)).
    pose proof (Hpos (- e2) ltac:(lia)). pose proof (Hpos (- e1) ltac:(lia)).
    nia. }
  apply round_aux_upper; try lia.
  - rewrite Z.mul_1_l. pose proof (Hpos (- (e1 - e2 - 53)) ltac:(lia)). nia.
  - intros Hne. rewrite Z.mul_1_l.
    assert (r <> 0) by (intros ->; apply Hne; apply new_location_exact; reflexivity).
    pose proof (Hpos (- (e1 - e2 - 53)) ltac:(lia)). nia.
Qed.

Lemma SFmul_upper (mx my : positive) (ex ey Yx Yy : Z) :
  ex <= 0 -> ey <= 0 ->
  Z.pos mx <= Yx * 2 ^ (- ex) -> Z.pos my <= Yy * 2 ^ (- ey) ->
  0 <= Yx -> 0 <= Yy -> Yx * Yy < 2 ^ 53 ->
  SFmul prec emax (S754_finite false mx ex) (S754_finite false my ey)
    = S754_zero false
  \/ exists m e,
       SFmul prec emax (S754_finite false mx ex) (S754_finite false my ey)
         = S754_finite false m e
       /\ e <= 0 /\ Z.pos m <= (Yx * Yy) * 2 ^ (- e).
Proof.
  intros Hex Hey Hx Hy HYx HYy HY. unfold SFmul. fold_Z.
  change (xorb false false) with false.
  assert (Hprod : Z.pos (mx * my) <= Yx * Yy * 2 ^ (- (ex + ey))).
  { replace (- (ex + ey)) with (- ex + - ey) by lia. rewrite Z.pow_add_r by lia.
    rewrite Pos2Z.inj_mul.
    pose proof (Z.pow_pos_nonneg 2 (- ex) ltac:(lia) ltac:(lia)).
    pose proof (Z.pow_pos_nonneg 2 (- ey) ltac:(lia) ltac:(lia)).
    nia. }
  apply round_aux_upper; try lia.
  intros Hne. contradiction Hne. reflexivity.
Qed.

Lemma of_Z_bounded (z : Z) : 0 <= z < 2 ^ 53 -> bounded_by (Number.of_Z z) z.
Proof.
  intros [H0 H1]. destruct (Z.eq_dec z 0) as [->|Hne].
  - left. vm_compute. reflexivity.
  - destruct (Prim2SF_of_Z_value z ltac:(lia)) as (m & e & Hsf & He & Hm & _).
    right. exists m, e. split; [exact Hsf|]. split; lia.
Qed.

Lemma div_bounded (a b : Z) :
  0 <= a <= b -> 0 < b < 2 ^ 53 ->
  bounded_by (Number.of_Z a / Number.of_Z b) 1.
Proof.
  intros Ha Hb. unfold bounded_by. rewrite div_spec.
  destruct (Prim2SF_of_Z_value b Hb) as (m2 & e2 & -> & He2 & Hm2 & Hd2).
  destruct (Z.eq_dec a 0) as [->|Hne].
  - left. reflexivity.
  - destruct (Prim2SF_of_Z_value a ltac:(lia)) as (m1 & e1 & -> & He1 & Hm1 & Hd1).
    apply (SFdiv_le_one m1 m2 e1 e2 a b); try assumption. lia.
Qed.

Lemma mul_bounded (x y : float) (Yx Yy : Z) :
  bounded_by x Yx -> bounded_by y Yy ->
  0 <= Yx -> 0 <= Yy -> Yx * Yy < 2 ^ 53 ->
  bounded_by (x * y) (Yx * Yy).
Proof.
  intros Hx Hy HYx HYy HY. unfold bounded_by. rewrite mul_spec.
  destruct Hx as [-> | (mx & ex & -> & Hex & Hmx)];
    destruct Hy as [-> | (my & ey & -> & Hey & Hmy)];
    try (left; reflexivity).
  apply SFmul_upper; assumption.
Qed.

Lemma trunc_bounded (x : float) (Y : Z) :
  bounded_by x Y -> 0 <= Y -> 0 <= Number.trunc x <= Y.
Proof.
  unfold Number.trunc, Number.magnitude, Number.is_negative.
  intros [-> | (m & e & -> & He & Hm)] HY.
  - change (0 / 1) with 0. lia.
  - destruct (0 <=? e) eqn:E.
    + apply Z.leb_le in E. assert (e = 0) by lia. subst e.
      change (2 ^ (- 0)) with 1 in Hm. change (2 ^ 0) with 1.
      rewrite Z.div_1_r. lia.
    + pose proof (Z.pow_pos_nonneg 2 (- e) ltac:(lia) ltac:(lia)) as Hp.
      split; [apply Z.div_pos; lia|].
      apply Z.div_le_upper_bound; lia.
Qed.

Lemma toFixed_bounded (x : float) (Y : Z) (f : nat) :
  bounded_by x Y -> 0 <= Y < 10 ^ 21 ->
  exists n, 0 <= n <= Y * 10 ^ Z.of_nat f
            /\ Number.toFixed x f = Number.fixed_digits f n.
Proof.
  intros Hx HY.
  assert (Hten : 0 < 10 ^ Z.of_nat f) by (apply Z.pow_pos_nonneg; lia).
  assert (Hkey : forall num den, 0 < den -> 0 <= num <= Y * den ->
            (10 ^ 21 * den <=? num) = false
            /\ 0 <= Number.nearest_scaled f num den <= Y * 10 ^ Z.of_nat f).
  { intros num den Hden Hnum. split; [apply Z.leb_gt; nia|].
    unfold Number.nearest_scaled. split.
    - apply Z.div_pos; nia.
    - assert ((2 * num * 10 ^ Z.of_nat f + den) / (2 * den) < Y * 10 ^ Z.of_nat f + 1);
        [|lia].
      apply Z.div_lt_upper_bound; nia. }
  unfold Number.toFixed, Number.is_finite, Number.magnitude, Number.is_negative.
  destruct Hx as [-> | (m & e & -> & He & Hm)]; cbn [negb].
  - destruct (Hkey 0 1 ltac:(lia) ltac:(lia)) as [-> Hn].
    eexists. split; [exact Hn | reflexivity].
  - destruct (0 <=? e) eqn:E.
    + apply Z.leb_le in E. assert (e = 0) by lia. subst e.
      change (2 ^ (- 0)) with 1 in Hm. change (2 ^ 0) with 1.
      destruct (Hkey (Z.pos m * 1) 1 ltac:(lia) ltac:(lia)) as [-> Hn].
      eexists. split; [exact Hn | reflexivity].
    + pose proof (Z.pow_pos_nonneg 2 (- e) ltac:(lia) ltac:(lia)) as Hp.
      destruct (Hkey (Z.pos m) (2 ^ (- e)) Hp ltac:(lia)) as [-> Hn].
      eexists. split; [exact Hn | reflexivity].
Qed.


End Rounding.

(** X17.  For results that are not larger than their originals, with a
    positive total, the savings text is a plain decimal with one digit
    after the point, from "0.0" to "100.0": it is never negative, never
    "NaN" or "Infinity", and never in exponent notation. *)
Theorem calculateTotalSavings_range (l : list ProcessedImage.t) :
  0 <= total ProcessedImage.size l <= total ProcessedImage.originalSize l ->
  0 < total ProcessedImage.originalSize l < 2 ^ 53 ->
  exists tenths : Z,
    0 <= tenths <= 1000
    /\ calculateTotalSavings l = Number.fixed_digits 1 tenths.
Proof.
  intros Hs Ho. unfold calculateTotalSavings.
  rewrite !fold_left_total, !Z.add_0_l.
  assert (Hb : bounded_by
                 (Number.of_Z (total ProcessedImage.originalSize l
                               - total ProcessedImage.size l)
                  / Number.of_Z (total ProcessedImage.originalSize l) * 100)%float
                 (1 * 100)).
  { apply mul_bounded; try lia.
    - apply div_bounded; lia.
    - right. exists 7036874417766400%positive, (-46). vm_compute.
      repeat split; discriminate. }
  destruct (toFixed_bounded _ _ 1%nat Hb ltac:(lia)) as (n & Hn & ->).
  exists n. split; [|reflexivity]. change (10 ^ Z.of_nat 1) with 10 in Hn. lia.
Qed.

Lemma calculateTotalSavings_range_witness :
  exists tenths : Z,
    0 <= tenths <= 1000
    /\ calculateTotalSavings [result 1000 500; result 2000 1800]
       = Number.fixed_digits 1 tenths.
Proof.
  apply calculateTotalSavings_range; unfold total; simpl; lia.
Defined.

(** X18.  A canvas that has been scaled down is never taller than the
    image: its height is the integer part of the Number
    [height * (1600 / width)], which lies between 0 and the image's
    height. *)
Theorem render_height_bounded (img : Image.t) :
  1600 < Image.width img < 2 ^ 53 ->
  0 < Image.height img <= 2147483647 ->
  Canvas.height (render img)
  = Number.trunc (Number.of_Z (Image.height img)
                  * (1600 / Number.of_Z (Image.width img)))%float
  /\ 0 <= Canvas.height (render img) <= Image.height img.
Proof.
  intros Hw Hh. unfold render.
  replace (1600 <? Image.width img) with true by (symmetry; apply Z.ltb_lt; lia).
  cbn [Canvas.height].
  assert (Hb : bounded_by
                 (Number.of_Z (Image.height img)
                  * (1600 / Number.of_Z (Image.width img)))%float
                 (Image.height img * 1)).
  { apply mul_bounded; try lia.
    - apply of_Z_bounded. lia.
    - change 1600%float with (Number.of_Z 1600). apply div_bounded; lia. }
  rewrite Z.mul_1_r in Hb.
  pose proof (trunc_bounded _ _ Hb ltac:(lia)) as Ht.
  rewrite dimension_trunc by lia. split; [reflexivity | exact Ht].
Qed.

Lemma render_height_bounded_witness :
  0 <= Canvas.height (render wide_image) <= Image.height wide_image.
Proof.
  apply (render_height_bounded wide_image); simpl; lia.
Defined.

(** ** The height of a scaled canvas, exactly

    A quotient and a product of Numbers, each rounded to 53 bits, stay
    within one unit in the last place of the exact value; for pixel
    dimensions that is too close to [1600 * height / width] to reach the
    next integer. *)

Section Nearness.

Ltac fold_Z :=
  change IntDef.Z.max with Z.max in *; change IntDef.Z.sub with Z.sub in *;
  change IntDef.Z.add with Z.add in *; change IntDef.Z.leb with Z.leb in *;
  change IntDef.Z.eqb with Z.eqb in *; change IntDef.Z.mul with Z.mul in *;
  change IntDef.Z.min with Z.min in *; change IntDef.Z.opp with Z.opp in *;
  change IntDef.Z.even with Z.even in *; change IntDef.Z.compare with Z.compare in *;
  change IntDef.Z.div_eucl with Z.div_eucl in *; change IntDef.Z.shiftl with Z.shiftl in *.

Lemma digits2_upper (p : positive) : Z.pos p < 2 ^ Z.pos (digits2_pos p).
Proof.
  induction p as [p IH | p IH |]; simpl digits2_pos; [| | simpl; lia];
    rewrite Pos2Z.inj_succ, Z.pow_succ_r by lia; lia.
Qed.

Lemma Zdigits2_eq (m k : Z) :
  0 < k -> 2 ^ (k - 1) <= m < 2 ^ k -> Zdigits2 m = k.
Proof.
  intros Hk [Hlo Hhi].
  assert (0 < m) by (pose proof (Z.pow_pos_nonneg 2 (k - 1) ltac:(lia) ltac:(lia)); lia).
  destruct m as [|p|p]; try lia. simpl.
  pose proof (digits2_lower p) as Hl. pose proof (digits2_upper p) as Hu.
  set (d := Z.pos (digits2_pos p)) in *.
  destruct (Z.lt_trichotomy d k) as [Hlt | [Heq | Hgt]]; [|exact Heq|].
  - assert (2 ^ d <= 2 ^ (k - 1)) by (apply Z.pow_le_mono_r; lia). lia.
  - assert (2 ^ k <= 2 ^ (d - 1)) by (apply Z.pow_le_mono_r; lia). lia.
Qed.

Lemma Zdigits2_bounds (m : Z) :
  0 < m -> 2 ^ (Zdigits2 m - 1) <= m < 2 ^ Zdigits2 m.
Proof.
  intros Hm. destruct m as [|p|p]; try lia. simpl.
  split; [apply digits2_lower | apply digits2_upper].
Qed.

(** Rounding a value with at least 53 significant bits, away from
    underflow and overflow: the result is normal and within one unit of
    its last place of the value. *)
Lemma round_aux_near (s : bool) (mx ex : Z) (lx : location) :
  0 <= mx -> 53 <= Zdigits2 mx -> -1074 <= ex -> Zdigits2 mx + ex <= 1000 ->
  exists m e,
    binary_round_aux prec emax s mx ex lx = S754_finite s m e
    /\ ex <= e
    /\ 2 ^ 52 <= Z.pos m <= 2 ^ 53
    /\ (Z.pos m - 1) * 2 ^ (e - ex) <= mx
    /\ mx + 1 <= (Z.pos m + 1) * 2 ^ (e - ex).
Proof.
  intros Hnn Hd Hex Hov.
  assert (Hmx : 0 < mx) by (destruct mx; simpl in Hd; lia).
  destruct (Zdigits2_bounds mx Hmx) as [Hlo Hhi].
  set (d := Zdigits2 mx) in *.
  assert (Hpos : forall a, 0 <= a -> 0 < 2 ^ a) by (intros; apply Z.pow_pos_nonneg; lia).
  unfold binary_round_aux.
  destruct (shr_fexp_spec mx ex lx ltac:(lia)) as (n1 & mrs1 & -> & Hn1 & He1 & Hm1 & _).
  fold d in He1.
  assert (Hn1' : n1 = d - 53).
  { unfold fexp, emin, prec, emax in He1. fold_Z. lia. }
  set (m1 := shr_m mrs1) in *.
  assert (H2n : 2 ^ (d - 1) = 2 ^ 52 * 2 ^ n1 /\ 2 ^ d = 2 ^ 53 * 2 ^ n1).
  { split; rewrite <- Z.pow_add_r by lia; f_equal; lia. }
  destruct H2n as [H2lo H2hi].
  pose proof (Hpos n1 Hn1) as Hp1.
  assert (Hm1b : 2 ^ 52 <= m1 < 2 ^ 53).
  { rewrite Hm1. split.
    - apply Z.div_le_lower_bound; lia.
    - apply Z.div_lt_upper_bound; lia. }
  assert (Hm1v : m1 * 2 ^ n1 <= mx < (m1 + 1) * 2 ^ n1).
  { rewrite Hm1. pose proof (Z.div_mod mx (2 ^ n1) ltac:(lia)).
    pose proof (Z.mod_pos_bound mx (2 ^ n1) Hp1). nia. }
  destruct (round_nearest_even_bounds m1 (loc_of_shr_record mrs1)) as [Hb _].
  set (m2 := round_nearest_even m1 (loc_of_shr_record mrs1)) in *.
  destruct (shr_fexp_spec m2 (ex + n1) loc_Exact ltac:(lia))
    as (n2 & mrs2 & -> & Hn2 & He2 & Hm3 & _).
  destruct (Z_lt_ge_dec m2 (2 ^ 53)) as [Hsmall | Hbig].
  - assert (Hd2 : Zdigits2 m2 = 53) by (apply Zdigits2_eq; lia).
    rewrite Hd2 in He2.
    assert (n2 = 0) by (unfold fexp, emin, prec, emax in He2; fold_Z; lia).
    subst n2. change (2 ^ 0) with 1 in Hm3. rewrite Z.div_1_r in Hm3.
    rewrite Hm3. destruct m2 as [|m|m]; try lia.
    exists m, (ex + n1 + 0). fold_Z.
    replace (ex + n1 + 0 <=? emax - prec) with true
      by (symmetry; apply Z.leb_le; unfold emax, prec; lia).
    split; [reflexivity|]. split; [lia|]. split; [lia|].
    replace (ex + n1 + 0 - ex) with n1 by lia. nia.
  - assert (Hm2 : m2 = 2 ^ 53) by lia.
    assert (Hd2 : Zdigits2 m2 = 54) by (rewrite Hm2; reflexivity).
    rewrite Hd2 in He2.
    assert (n2 = 1) by (unfold fexp, emin, prec, emax in He2; fold_Z; lia).
    subst n2. rewrite Hm2 in Hm3. change (2 ^ 53 / 2 ^ 1) with (2 ^ 52) in Hm3.
    rewrite Hm3. change (2 ^ 52) with (Z.pos (2 ^ 52)%positive).
    exists (2 ^ 52)%positive, (ex + n1 + 1). fold_Z.
    replace (ex + n1 + 1 <=? emax - prec) with true
      by (symmetry; apply Z.leb_le; unfold emax, prec; lia).
    split; [reflexivity|]. split; [lia|]. split; [simpl; lia|].
    replace (ex + n1 + 1 - ex) with (n1 + 1) by lia.
    rewrite Z.pow_add_r by lia. change (2 ^ 1) with 2.
    change (Z.pos (2 ^ 52)) with (2 ^ 52). 
    assert (m1 = 2 ^ 53 - 1) by lia.
    change (2 ^ 52) with 4503599627370496 in *.
    change (2 ^ 53) with 9007199254740992 in *. nia.
Qed.

Lemma div_near (a b : Z) :
  0 < a <= b -> b < 2 ^ 53 ->
  exists mr er,
    Prim2SF (Number.of_Z a / Number.of_Z b) = S754_finite false mr er
    /\ -105 <= er <= 0
    /\ 2 ^ 52 <= Z.pos mr <= 2 ^ 53
    /\ (Z.pos mr - 1) * b <= a * 2 ^ (- er)
    /\ a * 2 ^ (- er) < (Z.pos mr + 1) * b.
Proof.
  intros Ha Hb.
  assert (Hpos : forall x, 0 <= x -> 0 < 2 ^ x) by (intros; apply Z.pow_pos_nonneg; lia).
  destruct (Prim2SF_of_Z_value a ltac:(lia)) as (m1 & e1 & Hsa & He1 & Hm1 & Hd1).
  destruct (Prim2SF_of_Z_value b ltac:(lia)) as (m2 & e2 & Hsb & He2 & Hm2 & Hd2).
  pose proof (SFdiv_le_one m1 m2 e1 e2 a b Hd1 Hd2 He1 He2 Hm1 Hm2 ltac:(lia)) as Hupper.
  rewrite div_spec, Hsa, Hsb. unfold SF64div in *.
  revert Hupper.
  unfold SFdiv, SFdiv_core_binary. simpl Zdigits2. rewrite Hd1, Hd2. fold_Z.
  assert (Hf : fexp prec emax (53 + e1 - (53 + e2)) = e1 - e2 - 53).
  { unfold fexp, emin, prec, emax. fold_Z. lia. }
  rewrite Hf. rewrite Z.min_l by lia.
  replace (e1 - e2 - (e1 - e2 - 53)) with 53 by lia.
  cbv iota. rewrite Z.shiftl_mul_pow2 by lia.
  pose proof (Z.div_eucl_eq (Z.pos m1 * 2 ^ 53) (Z.pos m2) ltac:(lia)) as Hdm.
  pose proof (Z.mod_pos_bound (Z.pos m1 * 2 ^ 53) (Z.pos m2) ltac:(lia)) as Hmod.
  unfold Z.modulo in Hmod.
  destruct (Z.div_eucl (Z.pos m1 * 2 ^ 53) (Z.pos m2)) as [q r].
  simpl fst in *. simpl snd in *. cbv beta iota. change (xorb false false) with false.
  pose proof (digits2_lower m1) as Hl1. rewrite Hd1 in Hl1.
  pose proof (digits2_upper m1) as Hu1. rewrite Hd1 in Hu1.
  pose proof (digits2_lower m2) as Hl2. rewrite Hd2 in Hl2.
  pose proof (digits2_upper m2) as Hu2. rewrite Hd2 in Hu2.
  change (2 ^ (53 - 1)) with (2 ^ 52) in *.
  assert (Hq : 2 ^ 52 <= q < 2 ^ 54).
  { change (2 ^ 52) with 4503599627370496 in *.
    change (2 ^ 53) with 9007199254740992 in *.
    change (2 ^ 54) with 18014398509481984. nia. }
  assert (Hdq : 53 <= Zdigits2 q <= 54).
  { split.
    - destruct (Zdigits2_bounds q ltac:(lia)) as [_ Hhi].
      destruct (Z_lt_ge_dec (Zdigits2 q) 53) as [Hlt|]; [|lia].
      assert (0 <= Zdigits2 q) by (destruct q; simpl; lia).
      assert (2 ^ Zdigits2 q <= 2 ^ 52) by (apply Z.pow_le_mono_r; lia). lia.
    - apply Zdigits2_le; lia. }
  destruct (round_aux_near false q (e1 - e2 - 53)
              (new_location (Z.pos m2) r) ltac:(lia) ltac:(lia) ltac:(lia) ltac:(lia))
    as (mr & er & Hres & Her & Hmr & Hlo & Hhi).
  rewrite Hres. intros Hupper.
  assert (Her0 : er <= 0).
  { destruct Hupper as [Hz | (m' & e' & Heq & He' & _)]; [discriminate|].
    injection Heq as <- <-. exact He'. }
  exists mr, er. split; [reflexivity|]. split; [lia|]. split; [exact Hmr|].
  set (k := er - (e1 - e2 - 53)) in *.
  set (t := k - e2).
  assert (Ht : 2 ^ (- e1) * 2 ^ 53 = 2 ^ (- er) * 2 ^ t).
  { rewrite <- !Z.pow_add_r by (unfold t, k; lia). f_equal; unfold t, k; lia. }
  assert (Hk : 2 ^ k * 2 ^ (- e2) = 2 ^ t).
  { rewrite <- Z.pow_add_r by (unfold k; lia). f_equal; unfold t; lia. }
  pose proof (Hpos t ltac:(unfold t, k; lia)) as Hpt.
  pose proof (Hpos k ltac:(unfold k; lia)) as Hpk.
  pose proof (Hpos (- e2) ltac:(lia)) as Hp2.
  pose proof (Hpos (- er) ltac:(lia)) as Hpr.
  assert (Hnum : Z.pos m1 * 2 ^ 53 = a * 2 ^ (- er) * 2 ^ t).
  { rewrite Hm1. rewrite <- !Z.mul_assoc. f_equal. exact Ht. }
  assert (Hden : forall c, c * 2 ^ k * Z.pos m2 = c * b * 2 ^ t).
  { intros c. rewrite Hm2. rewrite <- Hk. ring. }
  split.
  - apply (Z.mul_le_mono_pos_r _ _ (2 ^ t) Hpt).
    rewrite <- Hnum, <- Hden.
    assert ((Z.pos mr - 1) * 2 ^ k * Z.pos m2 <= q * Z.pos m2)
      by (apply Z.mul_le_mono_nonneg_r; lia).
    lia.
  - apply (Z.mul_lt_mono_pos_r (2 ^ t) _ _ Hpt).
    rewrite <- Hnum, <- Hden.
    assert ((q + 1) * Z.pos m2 <= (Z.pos mr + 1) * 2 ^ k * Z.pos m2)
      by (apply Z.mul_le_mono_nonneg_r; lia).
    lia.
Qed.

Lemma mul_near (h : Z) (y : float) (mr : positive) (er : Z) :
  0 < h < 2 ^ 53 ->
  Prim2SF y = S754_finite false mr er ->
  -105 <= er <= 0 -> 2 ^ 52 <= Z.pos mr <= 2 ^ 53 ->
  Z.pos mr <= 1 * 2 ^ (- er) ->
  exists mp ep eh k,
    Prim2SF (Number.of_Z h * y) = S754_finite false mp ep
    /\ ep <= 0 /\ -52 <= eh <= 0 /\ 0 <= k
    /\ - eh + - er = - ep + k
    /\ 2 ^ 52 <= Z.pos mp
    /\ (Z.pos mp - 1) * 2 ^ k <= h * 2 ^ (- eh) * Z.pos mr
    /\ h * 2 ^ (- eh) * Z.pos mr < (Z.pos mp + 1) * 2 ^ k.
Proof.
  intros Hh Hy Her Hmr Hone.
  destruct (Prim2SF_of_Z_value h Hh) as (mh & eh & Hsh & Heh & Hmh & Hdh).
  assert (Hb : bounded_by (Number.of_Z h * y) (h * 1)).
  { apply mul_bounded; try lia.
    - apply of_Z_bounded. lia.
    - right. exists mr, er. split; [exact Hy|]. split; [lia | exact Hone]. }
  unfold bounded_by in Hb. revert Hb.
  rewrite mul_spec, Hsh, Hy. unfold SF64mul, SFmul. fold_Z.
  change (xorb false false) with false.
  pose proof (digits2_lower mh) as Hl. rewrite Hdh in Hl.
  pose proof (digits2_upper mh) as Hu. rewrite Hdh in Hu.
  change (2 ^ (53 - 1)) with (2 ^ 52) in *.
  assert (Hprod : 2 ^ 104 <= Z.pos (mh * mr) < 2 ^ 107).
  { rewrite Pos2Z.inj_mul.
    change (2 ^ 52) with 4503599627370496 in *.
    change (2 ^ 53) with 9007199254740992 in *.
    change (2 ^ 104) with (4503599627370496 * 4503599627370496).
    change (2 ^ 107) with (9007199254740992 * (2 * 9007199254740992)). nia. }
  assert (Hdp : 53 <= Zdigits2 (Z.pos (mh * mr)) <= 107).
  { split.
    - destruct (Zdigits2_bounds (Z.pos (mh * mr)) ltac:(lia)) as [_ Hhi].
      destruct (Z_lt_ge_dec (Zdigits2 (Z.pos (mh * mr))) 53) as [Hlt|]; [|lia].
      assert (2 ^ Zdigits2 (Z.pos (mh * mr)) <= 2 ^ 104)
        by (apply Z.pow_le_mono_r; lia).
      lia.
    - apply Zdigits2_le; lia. }
  destruct (round_aux_near false (Z.pos (mh * mr)) (eh + er) loc_Exact
              ltac:(lia) ltac:(lia) ltac:(lia) ltac:(lia))
    as (mp & ep & Hres & Hep & Hmp & Hlo & Hhi).
  rewrite Hres. intros Hb.
  assert (Hep0 : ep <= 0).
  { destruct Hb as [Hz | (m' & e' & Heq & He' & _)]; [discriminate|].
    injection Heq as <- <-. exact He'. }
  exists mp, ep, eh, (ep - (eh + er)).
  split; [reflexivity|]. split; [exact Hep0|]. split; [exact Heh|].
  split; [lia|]. split; [lia|]. split; [lia|].
  rewrite Pos2Z.inj_mul, Hmh in Hlo, Hhi. split; lia.
Qed.


(** Two roundings in a row, [R = fl(A / B)] and then [P = fl(H * R)]:
    the product is within [1 / (S * B)] of the exact [H * A / B] as long
    as [A * H * S] stays below 2^50. *)
Lemma scaled_product_near (A B H S mr Er mp E Eh K : Z) :
  0 < B -> 0 < H -> 0 <= A -> 0 < S -> A * H * S <= 2 ^ 50 ->
  0 < Er -> 0 < E -> 0 < Eh -> 0 < K ->
  Eh * Er = E * K ->
  2 ^ 52 <= mr -> 2 ^ 52 <= mp ->
  (mr - 1) * B <= A * Er -> A * Er < (mr + 1) * B ->
  (mp - 1) * K <= H * Eh * mr -> H * Eh * mr < (mp + 1) * K ->
  - E < S * (mp * B - A * H * E) < E.
Proof.
  intros HB HH HA HS Hsmall HEr HE HEh HK HX Hmr Hmp Ha1 Ha2 Hb1 Hb2.
  change (2 ^ 52) with 4503599627370496 in *.
  change (2 ^ 50) with 1125899906842624 in *.
  assert (HX0 : 0 < Eh * Er) by (apply Z.mul_pos_pos; lia).
  assert (HhE : 0 <= H * Eh) by (apply Z.mul_nonneg_nonneg; lia).
  assert (HSh : 0 <= S * H) by (apply Z.mul_nonneg_nonneg; lia).
  assert (Hbig : A * H * S * (Eh * Er) <= 1125899906842624 * (Eh * Er))
    by (apply Z.mul_le_mono_nonneg_r; lia).
  assert (H1 : 4503599627370495 * B <= A * Er).
  { assert (4503599627370495 * B <= (mr - 1) * B)
      by (apply Z.mul_le_mono_nonneg_r; lia).
    lia. }
  assert (H1' : 4503599627370495 * (Eh * B) <= A * (Eh * Er)).
  { assert (Eh * (4503599627370495 * B) <= Eh * (A * Er))
      by (apply Z.mul_le_mono_nonneg_l; lia).
    lia. }
  assert (Ha : 4503599627370495 * (S * (H * Eh * B)) <= 1125899906842624 * (Eh * Er)).
  { assert (S * H * (4503599627370495 * (Eh * B)) <= S * H * (A * (Eh * Er)))
      by (apply Z.mul_le_mono_nonneg_l; lia).
    lia. }
  assert (HTw : H * Eh * (mr * B) <= A * H * (Eh * Er) + H * Eh * B).
  { assert (H * Eh * (mr * B) <= H * Eh * (A * Er + B))
      by (apply Z.mul_le_mono_nonneg_l; lia).
    lia. }
  assert (HTw' : A * H * (Eh * Er) - H * Eh * B <= H * Eh * (mr * B)).
  { assert (H * Eh * (A * Er - B + 1) <= H * Eh * (mr * B))
      by (apply Z.mul_le_mono_nonneg_l; lia).
    lia. }
  assert (Hb : 4503599627370495 * (S * (K * B))
               <= 1125899906842624 * (Eh * Er) + S * (H * Eh * B)).
  { assert (4503599627370495 * K <= (mp - 1) * K)
      by (apply Z.mul_le_mono_nonneg_r; lia).
    assert (4503599627370495 * K * B <= H * Eh * mr * B)
      by (apply Z.mul_le_mono_nonneg_r; lia).
    assert (S * (4503599627370495 * K * B) <= S * (A * H * (Eh * Er) + H * Eh * B))
      by (apply Z.mul_le_mono_nonneg_l; lia).
    lia. }
  assert (Hab : S * (H * Eh * B) + S * (K * B) < Eh * Er) by lia.
  assert (Hup : S * (mp * K * B) <= S * (A * H * (Eh * Er) + H * Eh * B + K * B)).
  { apply Z.mul_le_mono_nonneg_l; [lia|].
    assert (mp * K * B <= (H * Eh * mr + K) * B)
      by (apply Z.mul_le_mono_nonneg_r; lia).
    lia. }
  assert (Hdown : S * (A * H * (Eh * Er) - H * Eh * B - K * B) <= S * (mp * K * B)).
  { apply Z.mul_le_mono_nonneg_l; [lia|].
    assert ((H * Eh * mr - K) * B <= mp * K * B)
      by (apply Z.mul_le_mono_nonneg_r; lia).
    lia. }
  rewrite HX in Hab, Hup, Hdown.
  assert (Hu : S * (mp * B - A * H * E) * K < E * K) by lia.
  assert (Hl : (- E) * K < S * (mp * B - A * H * E) * K) by lia.
  apply Z.mul_lt_mono_pos_r in Hu; [|lia].
  apply Z.mul_lt_mono_pos_r in Hl; [|lia].
  lia.
Qed.

Lemma scaled_height_arith (w h F mr Er mp E Eh K : Z) :
  0 < w -> 0 < h -> 1600 * h < 2 ^ 42 ->
  0 < Er -> 0 < E -> 0 < Eh -> 0 < K ->
  Eh * Er = E * K ->
  2 ^ 52 <= mr -> 2 ^ 52 <= mp ->
  (mr - 1) * w <= 1600 * Er -> 1600 * Er < (mr + 1) * w ->
  (mp - 1) * K <= h * Eh * mr -> h * Eh * mr < (mp + 1) * K ->
  F * w <= 1600 * h < (F + 1) * w ->
  (F - 1) * E < mp < (F + 1) * E
  /\ (1600 * h <> F * w -> F * E <= mp).
Proof.
  intros Hw Hh Hsmall HEr HE HEh HK HX Hmr Hmp Ha1 Ha2 Hb1 Hb2 HF.
  assert (Hnear : - E < 1 * (mp * w - 1600 * h * E) < E).
  { apply (scaled_product_near 1600 w h 1 mr Er mp E Eh K); try assumption; lia. }
  rewrite Z.mul_1_l in Hnear. destruct Hnear as [Hl Hu].
  assert (Hf1 : F * w * E <= 1600 * h * E) by (apply Z.mul_le_mono_nonneg_r; lia).
  assert (Hf2 : 1600 * h * E <= ((F + 1) * w - 1) * E)
    by (apply Z.mul_le_mono_nonneg_r; lia).
  assert (HEw : E <= E * w).
  { assert (E * 1 <= E * w) by (apply Z.mul_le_mono_nonneg_l; lia). lia. }
  clear - Hu Hl Hf1 Hf2 Hw HE HF HEw.
  assert (Hlow : (F - 1) * E < mp).
  { destruct (Z_lt_ge_dec ((F - 1) * E) mp) as [|Hge]; [assumption|].
    assert (mp * w <= (F - 1) * E * w) by (apply Z.mul_le_mono_nonneg_r; lia).
    lia. }
  assert (Hhigh : mp < (F + 1) * E).
  { destruct (Z_lt_ge_dec mp ((F + 1) * E)) as [|Hge]; [assumption|].
    assert ((F + 1) * E * w <= mp * w) by (apply Z.mul_le_mono_nonneg_r; lia).
    lia. }
  split; [split; assumption|].
  intros Hne.
  destruct (Z_le_gt_dec (F * E) mp) as [|Hgt]; [assumption|].
  exfalso.
  assert (Hf3 : (F * w + 1) * E <= 1600 * h * E)
    by (apply Z.mul_le_mono_nonneg_r; lia).
  assert (mp * w <= F * E * w) by (apply Z.mul_le_mono_nonneg_r; lia).
  lia.
Qed.

Lemma trunc_finite (x : float) (m : positive) (e : Z) :
  Prim2SF x = S754_finite false m e -> e <= 0 ->
  Number.trunc x = Z.pos m / 2 ^ (- e).
Proof.
  intros Hx He. unfold Number.trunc, Number.magnitude, Number.is_negative.
  rewrite Hx. destruct (0 <=? e) eqn:E.
  - apply Z.leb_le in E. assert (e = 0) by lia. subst e.
    change (2 ^ (- 0)) with 1. change (2 ^ 0) with 1. rewrite !Z.div_1_r. lia.
  - reflexivity.
Qed.

(** Multiplication of Numbers is commutative, and [toFixed] of a
    positive finite Number below 10^21 is the digit string of the
    nearest scaled integer. *)
Lemma SFmul_comm (x y : spec_float) : SFmul prec emax x y = SFmul prec emax y x.
Proof.
  destruct x as [sx|sx| |sx mx ex], y as [sy|sy| |sy my ey]; simpl; try reflexivity;
    try (f_equal; apply xorb_comm).
  rewrite (xorb_comm sx sy), (Pos.mul_comm mx my), (Z.add_comm ex ey). reflexivity.
Qed.

Lemma Number_mul_comm (x y : float) : (x * y = y * x)%float.
Proof.
  apply Prim2SF_inj. rewrite !mul_spec. apply SFmul_comm.
Qed.

Lemma toFixed_finite (x : float) (m : positive) (e : Z) (f : nat) :
  Prim2SF x = S754_finite false m e -> e <= 0 ->
  Z.pos m < 10 ^ 21 * 2 ^ (- e) ->
  Number.toFixed x f
  = Number.fixed_digits f (Number.nearest_scaled f (Z.pos m) (2 ^ (- e))).
Proof.
  intros Hx He Hm.
  unfold Number.toFixed, Number.is_finite, Number.magnitude, Number.is_negative.
  rewrite Hx. cbn [negb].
  destruct (0 <=? e) eqn:E.
  - apply Z.leb_le in E. assert (e = 0) by lia. subst e.
    change (2 ^ (- 0)) with 1 in *. change (2 ^ 0) with 1.
    rewrite Z.mul_1_r in Hm. rewrite !Z.mul_1_r.
    replace (10 ^ 21 <=? Z.pos m) with false by (symmetry; apply Z.leb_gt; lia).
    reflexivity.
  - replace (10 ^ 21 * 2 ^ (- e) <=? Z.pos m) with false
      by (symmetry; apply Z.leb_gt; lia).
    reflexivity.
Qed.

Lemma nearest_tenth_arith (a b mp E : Z) :
  0 < b -> 0 < E -> 0 <= a ->
  - E < 32 * (mp * b - a * 100 * E) < E ->
  (round_div (1000 * a) b - 1 <= Number.nearest_scaled 1 mp E <= round_div (1000 * a) b)
  /\ ((2000 * a + b) mod (2 * b) <> 0 ->
      Number.nearest_scaled 1 mp E = round_div (1000 * a) b).
Proof.
  intros Hb HE Ha Hd.
  unfold round_div, Number.nearest_scaled. change (10 ^ Z.of_nat 1) with 10.
  replace (2 * (1000 * a) + b) with (2000 * a + b) by lia.
  set (G := 2000 * a + b). set (R := G / (2 * b)).
  pose proof (Z.div_mod G (2 * b) ltac:(lia)) as HG.
  pose proof (Z.mod_pos_bound G (2 * b) ltac:(lia)) as Hmod.
  fold R in HG.
  set (r := G mod (2 * b)) in *.
  assert (HGE : G * E = 2 * (b * E) * R + r * E) by (rewrite HG at 1; ring).
  assert (HrE : 0 <= r * E) by (apply Z.mul_nonneg_nonneg; lia).
  assert (HrE' : r * E <= (2 * b - 1) * E) by (apply Z.mul_le_mono_nonneg_r; lia).
  assert (HbE : E <= b * E).
  { assert (1 * E <= b * E) by (apply Z.mul_le_mono_nonneg_r; lia). lia. }
  assert (HN : (2 * mp * 10 + E) * b = 20 * (mp * b - a * 100 * E) + G * E)
    by (unfold G; ring).
  assert (Hlow : (R - 1) * (2 * E) < 2 * mp * 10 + E).
  { destruct (Z_lt_ge_dec ((R - 1) * (2 * E)) (2 * mp * 10 + E)) as [|Hge]; [assumption|].
    assert ((2 * mp * 10 + E) * b <= (R - 1) * (2 * E) * b)
      by (apply Z.mul_le_mono_nonneg_r; lia).
    lia. }
  assert (Hhigh : 2 * mp * 10 + E < (R + 1) * (2 * E)).
  { destruct (Z_lt_ge_dec (2 * mp * 10 + E) ((R + 1) * (2 * E))) as [|Hge]; [assumption|].
    assert ((R + 1) * (2 * E) * b <= (2 * mp * 10 + E) * b)
      by (apply Z.mul_le_mono_nonneg_r; lia).
    lia. }
  assert (Hup : (2 * mp * 10 + E) / (2 * E) <= R).
  { assert ((2 * mp * 10 + E) / (2 * E) < R + 1); [|lia].
    apply Z.div_lt_upper_bound; lia. }
  split.
  - split; [|exact Hup]. apply Z.div_le_lower_bound; lia.
  - intros Hr.
    assert (R <= (2 * mp * 10 + E) / (2 * E)); [|lia].
    apply Z.div_le_lower_bound; [lia|].
    destruct (Z_le_gt_dec (2 * E * R) (2 * mp * 10 + E)) as [|Hgt]; [assumption|].
    exfalso.
    assert (E <= r * E).
    { assert (1 * E <= r * E) by (apply Z.mul_le_mono_nonneg_r; lia). lia. }
    assert ((2 * mp * 10 + E) * b <= (2 * E * R - 1) * b)
      by (apply Z.mul_le_mono_nonneg_r; lia).
    lia.
Qed.

End Nearness.

(** ** The savings figure (lines 121-126) *)

(** The digits that [toFixed(1)] writes for [saved / total * 100]: the
    exact value rounded to a tenth, halves up, or one tenth less when the
    exact value is a half. *)
Lemma savings_tenths (saved b : Z) :
  0 <= saved <= b -> 0 < b < 2 ^ 38 ->
  exists tenths : Z,
    Number.toFixed (Number.of_Z saved / Number.of_Z b * 100)%float 1
    = Number.fixed_digits 1 tenths
    /\ round_div (1000 * saved) b - 1 <= tenths <= round_div (1000 * saved) b
    /\ ((2000 * saved + b) mod (2 * b) <> 0 -> tenths = round_div (1000 * saved) b).
Proof.
  intros Hs Ho.
  assert (Hpos : forall x, 0 <= x -> 0 < 2 ^ x) by (intros; apply Z.pow_pos_nonneg; lia).
  assert (H38 : 2 ^ 38 < 2 ^ 53) by reflexivity.
  destruct (Z.eq_dec saved 0) as [Hz | Hnz].
  - destruct (Prim2SF_of_Z_pos b ltac:(lia)) as (m & e & Hsf).
    assert (Hzero : (Number.of_Z saved / Number.of_Z b)%float = 0%float).
    { rewrite Hz. apply Prim2SF_inj. rewrite div_spec, Hsf. reflexivity. }
    rewrite Hzero. exists 0. split; [vm_compute; reflexivity|].
    assert (He : round_div (1000 * saved) b = 0).
    { unfold round_div. rewrite Hz. apply Z.div_small. lia. }
    rewrite He. split; [lia | reflexivity].
  - assert (Ha : 0 < saved <= b) by lia.
    destruct (div_near saved b ltac:(lia) ltac:(lia))
      as (mr & er & HR & Her & Hmr & Ha1 & Ha2).
    assert (Hone : Z.pos mr <= 1 * 2 ^ (- er)).
    { destruct (div_bounded saved b ltac:(lia) ltac:(lia))
        as [Hzr | (m' & e' & Heq & _ & Hm')].
      - rewrite HR in Hzr. discriminate.
      - rewrite HR in Heq. injection Heq as <- <-. exact Hm'. }
    rewrite Number_mul_comm. change 100%float with (Number.of_Z 100).
    destruct (mul_near 100 _ mr er ltac:(lia) HR Her Hmr Hone)
      as (mp & ep & eh & k & HP & Hep & Heh & Hk & Hexp & Hmp & Hb1 & Hb2).
    assert (HX : 2 ^ (- eh) * 2 ^ (- er) = 2 ^ (- ep) * 2 ^ k).
    { rewrite <- !Z.pow_add_r by lia. f_equal; lia. }
    pose proof (Hpos (- ep) ltac:(lia)) as HE.
    assert (Hnear : - 2 ^ (- ep) < 32 * (Z.pos mp * b - saved * 100 * 2 ^ (- ep))
                    < 2 ^ (- ep)).
    { apply (scaled_product_near saved b 100 32 (Z.pos mr) (2 ^ (- er)) (Z.pos mp)
               (2 ^ (- ep)) (2 ^ (- eh)) (2 ^ k));
        try (apply Hpos; lia); lia. }
    destruct (nearest_tenth_arith saved b (Z.pos mp) (2 ^ (- ep))
                ltac:(lia) HE ltac:(lia) Hnear) as [Hrange Hexactly].
    rewrite (toFixed_finite _ mp ep 1 HP Hep).
    + eexists. split; [reflexivity|]. split; [exact Hrange | exact Hexactly].
    + assert (Z.pos mp * b <= 101 * 2 ^ (- ep) * b); [|nia].
      assert (saved * 100 * 2 ^ (- ep) <= b * 100 * 2 ^ (- ep)).
      { apply Z.mul_le_mono_nonneg_r; [lia|]. lia. }
      assert (2 ^ (- ep) <= 2 ^ (- ep) * b).
      { assert (2 ^ (- ep) * 1 <= 2 ^ (- ep) * b)
          by (apply Z.mul_le_mono_nonneg_l; lia). lia. }
      lia.
Qed.

(** Results that are not larger than their originals add up to totals
    in the same order. *)
Lemma total_size_le (l : list ProcessedImage.t) :
  Forall (fun r => 0 <= ProcessedImage.size r <= ProcessedImage.originalSize r) l ->
  0 <= total ProcessedImage.size l <= total ProcessedImage.originalSize l.
Proof.
  induction 1 as [|r l Hr _ IH]; unfold total in *; simpl; lia.
Qed.

(** C8, as the code has it.  For results that are not larger than their
    originals, with a positive total of original sizes below 2^38 bytes,
    the savings figure is a text with one digit after the point, and its
    value is a tenth nearest to the exact percentage
    [100 * (totalOriginal - totalFinal) / totalOriginal]: it differs from
    it by at most 0.05.  Original sizes 1000 and 2000 with final sizes 500
    and 1800 give "23.3". *)
Theorem calculateTotalSavings_nearest_tenth_of_exact :
  (forall l : list ProcessedImage.t,
     Forall (fun r => 0 <= ProcessedImage.size r <= ProcessedImage.originalSize r) l ->
     0 < total ProcessedImage.originalSize l < 2 ^ 38 ->
     exists tenths : Z,
       calculateTotalSavings l = Number.fixed_digits 1 tenths
       /\ 2 * Z.abs (tenths * total ProcessedImage.originalSize l
                     - 1000 * (total ProcessedImage.originalSize l
                               - total ProcessedImage.size l))
          <= total ProcessedImage.originalSize l)
  /\ calculateTotalSavings [result 1000 500; result 2000 1800] = "23.3".
Proof.
  split; [|vm_compute; reflexivity].
  intros l Hl Ho. pose proof (total_size_le l Hl) as Hs.
  set (b := total ProcessedImage.originalSize l) in *.
  set (saved := b - total ProcessedImage.size l).
  destruct (savings_tenths saved b ltac:(unfold saved; lia) Ho)
    as (n & Htext & Hrange & Hexactly).
  exists n. split.
  { unfold calculateTotalSavings. rewrite !fold_left_total, !Z.add_0_l. exact Htext. }
  unfold round_div in Hrange, Hexactly.
  replace (2 * (1000 * saved) + b) with (2000 * saved + b) in Hrange, Hexactly by lia.
  pose proof (Z.div_mod (2000 * saved + b) (2 * b) ltac:(lia)) as Hdm.
  pose proof (Z.mod_pos_bound (2000 * saved + b) (2 * b) ltac:(lia)) as Hmod.
  set (R := (2000 * saved + b) / (2 * b)) in *.
  set (r := (2000 * saved + b) mod (2 * b)) in *.
  assert (HbR : 2 * b * R = 2 * (R * b)) by ring.
  destruct (Z.eq_dec r 0) as [Hr0 | Hr].
  - assert (Hn : n = R \/ n = R - 1) by lia.
    destruct Hn as [-> | ->].
    + lia.
    + replace ((R - 1) * b) with (R * b - b) by ring. lia.
  - rewrite (Hexactly Hr). lia.
Qed.

Lemma calculateTotalSavings_nearest_tenth_of_exact_witness :
  exists tenths : Z,
    calculateTotalSavings [result 1000 500; result 2000 1800]
    = Number.fixed_digits 1 tenths
    /\ 2 * Z.abs (tenths * 3000 - 1000 * (3000 - 2300)) <= 3000.
Proof.
  destruct calculateTotalSavings_nearest_tenth_of_exact as [H _].
  apply (H [result 1000 500; result 2000 1800]).
  - repeat constructor; simpl; lia.
  - unfold total; simpl; lia.
Defined.

(** C8 fails as stated: 3 bytes saved out of 2000 are exactly 0.15
    percent and the text is "0.1", while 1 byte saved out of 400 is
    exactly 0.25 percent and the text is "0.3".  No rule for rounding a
    half, upwards, downwards or to the even digit, gives both texts. *)
Lemma calculateTotalSavings_halves_not_by_rule :
  calculateTotalSavings [result 2000 1997] = "0.1"
  /\ calculateTotalSavings [result 400 399] = "0.3"
  /\ savings_rounded ties_up [result 2000 1997] = "0.2"
  /\ savings_rounded ties_to_even [result 2000 1997] = "0.2"
  /\ savings_rounded ties_down [result 400 399] = "0.2"
  /\ calculateTotalSavings [result 2000 1997] <> savings_rounded ties_up [result 2000 1997]
  /\ calculateTotalSavings [result 2000 1997]
     <> savings_rounded ties_to_even [result 2000 1997]
  /\ calculateTotalSavings [result 400 399] <> savings_rounded ties_down [result 400 399].
Proof.
  repeat split; try (vm_compute; reflexivity); vm_compute; discriminate.
Qed.

(** X19.  For an image wider than 1600, with pixel dimensions up to
    2147483647, the canvas height is the whole part of the exact scaled
    height, [floor(1600 * height / width)], or one less than that; and
    it is one less only when the exact scaled height is itself a whole
    number ([width] divides [1600 * height]), where binary64 rounding can
    leave the product just below it. *)
Theorem render_height_floor (img : Image.t) :
  1600 < Image.width img <= 2147483647 ->
  0 < Image.height img <= 2147483647 ->
  (Canvas.height (render img) = 1600 * Image.height img / Image.width img
   \/ Canvas.height (render img) = 1600 * Image.height img / Image.width img - 1)
  /\ ((1600 * Image.height img) mod Image.width img <> 0 ->
      Canvas.height (render img) = 1600 * Image.height img / Image.width img).
Proof.
  intros Hw Hh.
  set (w := Image.width img) in *. set (h := Image.height img) in *.
  set (F := 1600 * h / w).
  assert (Hpos : forall x, 0 <= x -> 0 < 2 ^ x) by (intros; apply Z.pow_pos_nonneg; lia).
  destruct (div_near 1600 w ltac:(lia) ltac:(lia))
    as (mr & er & HR & Her & Hmr & Ha1 & Ha2).
  assert (Hone : Z.pos mr <= 1 * 2 ^ (- er)).
  { destruct (div_bounded 1600 w ltac:(lia) ltac:(lia)) as [Hz | (m' & e' & Heq & _ & Hm')].
    - rewrite HR in Hz. discriminate.
    - rewrite HR in Heq. injection Heq as <- <-. exact Hm'. }
  destruct (mul_near h _ mr er ltac:(lia) HR Her Hmr Hone)
    as (mp & ep & eh & k & HP & Hep & Heh & Hk & Hexp & Hmp & Hb1 & Hb2).
  assert (HF : F * w <= 1600 * h < (F + 1) * w).
  { unfold F. pose proof (Z.div_mod (1600 * h) w ltac:(lia)).
    pose proof (Z.mod_pos_bound (1600 * h) w ltac:(lia)). nia. }
  assert (HF0 : 0 <= F < h).
  { unfold F. split; [apply Z.div_pos; lia|].
    apply Z.div_lt_upper_bound; nia. }
  assert (HX : 2 ^ (- eh) * 2 ^ (- er) = 2 ^ (- ep) * 2 ^ k).
  { rewrite <- !Z.pow_add_r by lia. f_equal; lia. }
  destruct (scaled_height_arith w h F (Z.pos mr) (2 ^ (- er)) (Z.pos mp)
              (2 ^ (- ep)) (2 ^ (- eh)) (2 ^ k))
    as [[Hlow Hhigh] Hexactly]; try (apply Hpos; lia); try lia.
  assert (Htrunc : Number.trunc (Number.of_Z h * (Number.of_Z 1600 / Number.of_Z w))
                   = Z.pos mp / 2 ^ (- ep)) by (apply trunc_finite; assumption).
  pose proof (Hpos (- ep) ltac:(lia)) as HE.
  assert (Hrange : F - 1 <= Z.pos mp / 2 ^ (- ep) <= F).
  { split.
    - apply Z.div_le_lower_bound; lia.
    - assert (Z.pos mp / 2 ^ (- ep) < F + 1); [|lia].
      apply Z.div_lt_upper_bound; lia. }
  assert (Hnn : 0 <= Z.pos mp / 2 ^ (- ep)) by (apply Z.div_pos; lia).
  assert (Hheight : Canvas.height (render img) = Z.pos mp / 2 ^ (- ep)).
  { unfold render. fold w h.
    replace (1600 <? w) with true by (symmetry; apply Z.ltb_lt; lia).
    cbn [Canvas.height]. change 1600%float with (Number.of_Z 1600).
    rewrite dimension_trunc; rewrite Htrunc; [reflexivity | lia]. }
  rewrite Hheight. split; [lia|].
  intros Hmod.
  assert (Hne : 1600 * h <> F * w).
  { intros Heq. apply Hmod. rewrite Heq. apply Z.mod_mul. lia. }
  specialize (Hexactly Hne).
  assert (F <= Z.pos mp / 2 ^ (- ep)) by (apply Z.div_le_lower_bound; lia).
  lia.
Qed.

Lemma render_height_floor_witness :
  Canvas.height (render wide_image) = 333
  /\ (Canvas.height (render flat_image) = 1 \/ Canvas.height (render flat_image) = 0).
Proof.
  split.
  - destruct (render_height_floor wide_image) as [_ H]; [simpl; lia | simpl; lia |].
    rewrite H; [reflexivity|]. vm_compute. discriminate.
  - destruct (render_height_floor flat_image) as [H _]; [simpl; lia | simpl; lia |].
    exact H.
Defined.

(** X20.  For results that are not larger than their originals, with a
    positive total below 2^38 bytes, the savings text is the exact
    percentage [100 * saved / total] rounded to the nearest tenth.  Only
    when the exact percentage lies exactly halfway between two tenths
    can the text be the lower one instead of the upper one, since the
    Number that is formatted may lie just below the halfway point. *)
Theorem calculateTotalSavings_nearest_tenth (l : list ProcessedImage.t) :
  0 <= total ProcessedImage.size l <= total ProcessedImage.originalSize l ->
  0 < total ProcessedImage.originalSize l < 2 ^ 38 ->
  exists tenths : Z,
    calculateTotalSavings l = Number.fixed_digits 1 tenths
    /\ (tenths
        = round_div
            (1000 * (total ProcessedImage.originalSize l - total ProcessedImage.size l))
            (total ProcessedImage.originalSize l)
        \/ tenths
           = round_div
               (1000 * (total ProcessedImage.originalSize l - total ProcessedImage.size l))
               (total ProcessedImage.originalSize l) - 1)
    /\ ((2000 * (total ProcessedImage.originalSize l - total ProcessedImage.size l)
         + total ProcessedImage.originalSize l)
          mod (2 * total ProcessedImage.originalSize l) <> 0 ->
        tenths
        = round_div
            (1000 * (total ProcessedImage.originalSize l - total ProcessedImage.size l))
            (total ProcessedImage.originalSize l)).
Proof.
  intros Hs Ho.
  set (b := total ProcessedImage.originalSize l) in *.
  set (saved := b - total ProcessedImage.size l).
  destruct (savings_tenths saved b ltac:(unfold saved; lia) Ho)
    as (n & Htext & Hrange & Hexactly).
  exists n. split.
  { unfold calculateTotalSavings. rewrite !fold_left_total, !Z.add_0_l. exact Htext. }
  split; [|exact Hexactly].
  destruct (Z.eq_dec n (round_div (1000 * saved) b)) as [Heq | Hne];
    [left; exact Heq | right; lia].
Qed.

Lemma calculateTotalSavings_nearest_tenth_witness :
  calculateTotalSavings [result 1000 500; result 2000 1800] = "23.3"
  /\ (calculateTotalSavings [result 2000 1997] = "0.2"
      \/ calculateTotalSavings [result 2000 1997] = "0.1").
Proof.
  split.
  - destruct (calculateTotalSavings_nearest_tenth [result 1000 500; result 2000 1800])
      as (n & Hn & _ & He); [unfold total; simpl; lia | unfold total; simpl; lia |].
    rewrite Hn, He; [reflexivity|]. vm_compute. discriminate.
  - destruct (calculateTotalSavings_nearest_tenth [result 2000 1997])
      as (n & Hn & [He | He] & _); [unfold total; simpl; lia | unfold total; simpl; lia | |];
      rewrite Hn, He; [left | right]; reflexivity.
Defined.

(** ** Rounding to nearest, ties to even

    The rounding of [SpecFloat] keeps, while it shifts a mantissa to the
    right, the last bit shifted out and whether a bit before it was set.
    That record locates the exact value between two integers, and the
    rounded mantissa is [rne] of the exact value. *)

Section Locations.

Ltac fold_Z :=
  change IntDef.Z.max with Z.max in *; change IntDef.Z.sub with Z.sub in *;
  change IntDef.Z.add with Z.add in *; change IntDef.Z.leb with Z.leb in *;
  change IntDef.Z.eqb with Z.eqb in *; change IntDef.Z.mul with Z.mul in *;
  change IntDef.Z.min with Z.min in *; change IntDef.Z.opp with Z.opp in *;
  change IntDef.Z.even with Z.even in *; change IntDef.Z.compare with Z.compare in *;
  change IntDef.Z.div_eucl with Z.div_eucl in *; change IntDef.Z.shiftl with Z.shiftl in *.

Lemma locates_rne (n d : Z) (mrs : shr_record) :
  0 < d -> locates n d mrs ->
  round_nearest_even (shr_m mrs) (loc_of_shr_record mrs) = rne n d.
Proof.
  intros Hd (Hm & Hr & Hs). destruct mrs as [m r s]. simpl in *.
  unfold rne, round_nearest_even. fold_Z. rewrite <- Hm.
  pose proof (Z.mod_pos_bound n d Hd) as Hmod.
  destruct (Z.compare_spec (2 * (n mod d)) d) as [Heq | Hlt | Hgt].
  - replace (d <=? 2 * (n mod d)) with true in Hr by (symmetry; apply Z.leb_le; lia).
    replace (2 * (n mod d) =? d) with true in Hs by (symmetry; apply Z.eqb_eq; lia).
    rewrite orb_true_r in Hs. simpl in Hs. rewrite Hr, Hs. reflexivity.
  - replace (d <=? 2 * (n mod d)) with false in Hr by (symmetry; apply Z.leb_gt; lia).
    rewrite Hr. destruct s; reflexivity.
  - replace (d <=? 2 * (n mod d)) with true in Hr by (symmetry; apply Z.leb_le; lia).
    replace (2 * (n mod d) =? d) with false in Hs by (symmetry; apply Z.eqb_neq; lia).
    replace (n mod d =? 0) with false in Hs by (symmetry; apply Z.eqb_neq; lia).
    simpl in Hs. rewrite Hr, Hs. reflexivity.
Qed.

Lemma locates_shr_1 (n d : Z) (x : shr_record) :
  0 <= n -> 0 < d -> locates n d x -> locates n (2 * d) (shr_1 x).
Proof.
  intros Hn Hd (Hm & Hr & Hs). destruct x as [m r s]. simpl in Hm, Hr, Hs.
  pose proof (Z.div_mod n d ltac:(lia)) as Hdm.
  pose proof (Z.mod_pos_bound n d Hd) as Hmod.
  assert (Hm0 : 0 <= m) by (rewrite Hm; apply Z.div_pos; lia).
  set (rem := n mod d) in *.
  assert (Hors : (r || s) = negb (rem =? 0)).
  { rewrite Hr, Hs.
    destruct (Z.eqb_spec rem 0) as [H0|H0]; simpl.
    - rewrite orb_false_r. apply Z.leb_gt. lia.
    - destruct (Z.eqb_spec (2 * rem) d) as [H1|H1]; simpl.
      + rewrite orb_false_r. apply Z.leb_le. lia.
      + apply orb_true_r. }
  assert (Hkey : forall h b : Z, m = 2 * h + b -> 0 <= b < 2 ->
            locates n (2 * d)
              {| shr_m := h; shr_r := (b =? 1); shr_s := r || s |}).
  { intros h b Hmb Hb.
    assert (Hq : n / (2 * d) = h).
    { symmetry. apply Z.div_unique with (b * d + rem); [nia | nia]. }
    assert (Hrem : n mod (2 * d) = b * d + rem).
    { symmetry. apply Z.mod_unique with h; [nia | nia]. }
    unfold locates. simpl. rewrite Hq, Hrem, Hors. split; [reflexivity|].
    assert (Hb' : b = 0 \/ b = 1) by lia.
    destruct Hb' as [-> | ->].
    - split; [symmetry; apply Z.leb_gt; lia|].
      repeat match goal with
             | |- context [?a =? ?b] => destruct (Z.eqb_spec a b)
             end; simpl; try reflexivity; lia.
    - split; [symmetry; apply Z.leb_le; lia|].
      repeat match goal with
             | |- context [?a =? ?b] => destruct (Z.eqb_spec a b)
             end; simpl; try reflexivity; lia. }
  destruct m as [|[p|p|]|p]; try lia; simpl shr_1.
  - apply (Hkey 0 0); lia.
  - apply (Hkey (Z.pos p) 1); lia.
  - apply (Hkey (Z.pos p) 0); lia.
  - apply (Hkey 0 1); lia.
Qed.

Lemma locates_nonneg n d x : 0 <= n -> 0 < d -> locates n d x -> 0 <= shr_m x.
Proof. intros Hn Hd (Hm & _). rewrite Hm. apply Z.div_pos; lia. Qed.

Lemma locates_iter (p : positive) :
  forall n d x, 0 <= n -> 0 < d -> locates n d x ->
    locates n (d * 2 ^ Z.pos p) (SpecFloat.iter_pos shr_1 p x).
Proof.
  induction p as [p IH|p IH|]; intros n d x Hn Hd Hx; simpl SpecFloat.iter_pos.
  - change (Z.pos p~1) with (2 * Z.pos p + 1).
    replace (d * 2 ^ (2 * Z.pos p + 1)) with (2 * d * 2 ^ Z.pos p * 2 ^ Z.pos p).
    + assert (0 < 2 ^ Z.pos p) by (apply Z.pow_pos_nonneg; lia).
      apply IH; [lia | nia |]. apply IH; [lia | lia |].
      apply locates_shr_1; assumption.
    + replace (2 * Z.pos p + 1) with (1 + Z.pos p + Z.pos p) by lia.
      rewrite !Z.pow_add_r by lia. change (2 ^ 1) with 2. ring.
  - change (Z.pos p~0) with (2 * Z.pos p).
    replace (d * 2 ^ (2 * Z.pos p)) with (d * 2 ^ Z.pos p * 2 ^ Z.pos p).
    + assert (0 < 2 ^ Z.pos p) by (apply Z.pow_pos_nonneg; lia).
      apply IH; [lia | nia |]. apply IH; assumption.
    + replace (2 * Z.pos p) with (Z.pos p + Z.pos p) by lia.
      rewrite !Z.pow_add_r by lia. ring.
  - change (2 ^ 1) with 2. replace (d * 2) with (2 * d) by lia.
    apply locates_shr_1; assumption.
Qed.

Lemma locates_exact (n : Z) : locates n 1 (shr_record_of_loc n loc_Exact).
Proof.
  unfold locates. simpl. rewrite Z.div_1_r, Z.mod_1_r. repeat split.
Qed.

Lemma new_location_cases (d r : Z) :
  0 <= r < d ->
  (r = 0 /\ new_location d r = loc_Exact)
  \/ (0 < 2 * r < d /\ new_location d r = loc_Inexact Lt)
  \/ (2 * r = d /\ new_location d r = loc_Inexact Eq)
  \/ (d < 2 * r /\ new_location d r = loc_Inexact Gt).
Proof.
  intros Hr. unfold new_location, new_location_even, new_location_odd. fold_Z.
  destruct (Z.even d) eqn:Hev; cbv beta; destruct (Z.eqb_spec r 0) as [H0|H0];
    try (left; split; [exact H0 | reflexivity]); right.
  - destruct (Z.compare_spec (2 * r) d); [right; left | left | right; right];
      (split; [lia | reflexivity]).
  - assert (Hodd : Z.odd d = true) by (rewrite <- Z.negb_even, Hev; reflexivity).
    apply Z.odd_spec in Hodd as [c Hc].
    destruct (Z.compare_spec (2 * r + 1) d); [left | left | right; right];
      (split; [lia | reflexivity]).
Qed.

Lemma locates_new_location (n d : Z) :
  0 <= n -> 0 < d ->
  locates n d (shr_record_of_loc (n / d) (new_location d (n mod d))).
Proof.
  intros Hn Hd. pose proof (Z.mod_pos_bound n d Hd) as Hmod.
  pose proof (new_location_cases d (n mod d) Hmod) as Hcases.
  unfold locates.
  destruct Hcases as [[H1 ->] | [[H1 ->] | [[H1 ->] | [H1 ->]]]]; simpl;
    (split; [reflexivity|]); split;
    repeat match goal with
           | |- context [?a =? ?b] => destruct (Z.eqb_spec a b)
           | |- context [?a <=? ?b] => destruct (Z.leb_spec a b)
           end; simpl; try reflexivity; lia.
Qed.

Lemma rne_bounds (n d : Z) : 0 < d -> n / d <= rne n d <= n / d + 1.
Proof.
  intros Hd. unfold rne.
  destruct (2 * (n mod d) ?= d); try destruct (Z.even (n / d)); lia.
Qed.

Lemma rne_mono (n n' d : Z) : 0 < d -> n <= n' -> rne n d <= rne n' d.
Proof.
  intros Hd Hn.
  pose proof (Z.div_mod n d ltac:(lia)) as H1.
  pose proof (Z.div_mod n' d ltac:(lia)) as H2.
  pose proof (Z.mod_pos_bound n d Hd) as H3.
  pose proof (Z.mod_pos_bound n' d Hd) as H4.
  pose proof (Z.div_le_mono n n' d Hd Hn) as Hq.
  pose proof (rne_bounds n d Hd) as Hb. pose proof (rne_bounds n' d Hd) as Hb'.
  destruct (Z.eq_dec (n / d) (n' / d)) as [Heq | Hne].
  - unfold rne. rewrite <- Heq.
    assert (Hr : n mod d <= n' mod d) by (rewrite Heq in H1; nia).
    destruct (Z.compare_spec (2 * (n mod d)) d);
      destruct (Z.compare_spec (2 * (n' mod d)) d);
      try destruct (Z.even (n / d)); lia.
  - lia.
Qed.

Lemma rne_scale (c n d : Z) : 0 < c -> 0 < d -> rne (c * n) (c * d) = rne n d.
Proof.
  intros Hc Hd. unfold rne.
  rewrite Z.div_mul_cancel_l by lia.
  rewrite Z.mul_mod_distr_l by lia.
  replace (2 * (c * (n mod d))) with (c * (2 * (n mod d))) by ring.
  rewrite <- Zmult_compare_compat_l by lia. reflexivity.
Qed.

Lemma round_aux_locates (s : bool) (mx ex : Z) (lx : location) (n d : Z) :
  0 <= n -> 0 < d ->
  locates n d (shr_record_of_loc mx lx) ->
  binary_round_aux prec emax s mx ex lx
  = round_finish s
      (rne n (d * 2 ^ Z.max 0 (fexp prec emax (Zdigits2 mx + ex) - ex)))
      (ex + Z.max 0 (fexp prec emax (Zdigits2 mx + ex) - ex)).
Proof.
  intros Hn Hd Hloc. unfold binary_round_aux, round_finish.
  assert (Hfirst : exists mrs,
            shr_fexp prec emax mx ex lx
            = (mrs, ex + Z.max 0 (fexp prec emax (Zdigits2 mx + ex) - ex))
            /\ locates n (d * 2 ^ Z.max 0 (fexp prec emax (Zdigits2 mx + ex) - ex)) mrs).
  { unfold shr_fexp, shr. fold_Z.
    destruct (fexp prec emax (Zdigits2 mx + ex) - ex) as [|p|p] eqn:Hk.
    - exists (shr_record_of_loc mx lx). rewrite Z.max_l by lia.
      rewrite Z.add_0_r. change (2 ^ 0) with 1. rewrite Z.mul_1_r. auto.
    - exists (SpecFloat.iter_pos shr_1 p (shr_record_of_loc mx lx)).
      rewrite Z.max_r by lia. split; [reflexivity|].
      apply locates_iter; assumption.
    - exists (shr_record_of_loc mx lx). rewrite Z.max_l by lia.
      rewrite Z.add_0_r. change (2 ^ 0) with 1. rewrite Z.mul_1_r. auto. }
  destruct Hfirst as (mrs & -> & Hmrs).
  assert (Hpos : 0 < d * 2 ^ Z.max 0 (fexp prec emax (Zdigits2 mx + ex) - ex))
    by (apply Z.mul_pos_pos; [lia | apply Z.pow_pos_nonneg; lia]).
  rewrite (locates_rne _ _ _ Hpos Hmrs). reflexivity.
Qed.

Lemma round_finish_spec (s : bool) (M E : Z) :
  0 <= M <= 2 ^ 53 -> -1074 <= E ->
  round_finish s M E
  = if M =? 0 then S754_zero s
    else if M <? 2 ^ 53 then
           if E <=? emax - prec then S754_finite s (Z.to_pos M) E else S754_infinity s
         else
           if E + 1 <=? emax - prec then S754_finite s (2 ^ 52)%positive (E + 1)
           else S754_infinity s.
Proof.
  intros HM HE. unfold round_finish.
  destruct (shr_fexp_spec M E loc_Exact ltac:(lia)) as (k & mrs & -> & Hk & Hek & Hm & _).
  destruct (Z.eqb_spec M 0) as [H0 | H0].
  - subst M. rewrite Z.div_0_l in Hm by (apply Z.pow_nonzero; lia). rewrite Hm. reflexivity.
  - destruct (Z.ltb_spec M (2 ^ 53)) as [Hlt | Hge].
    + assert (Hd : Zdigits2 M <= 53) by (apply Zdigits2_le; lia).
      assert (k = 0).
      { unfold fexp, SpecFloat.emin, prec, emax in *. fold_Z. lia. }
      subst k. change (2 ^ 0) with 1 in Hm. rewrite Z.div_1_r in Hm. rewrite Hm.
      rewrite Z.add_0_r. destruct M as [|p|p]; try lia. reflexivity.
    + assert (M = 2 ^ 53) by lia. subst M.
      change (Zdigits2 (2 ^ 53)) with 54 in Hek.
      assert (k = 1).
      { unfold fexp, SpecFloat.emin, prec, emax in *. fold_Z. lia. }
      subst k. change (2 ^ 53 / 2 ^ 1) with (Z.pos (2 ^ 52)) in Hm. rewrite Hm.
      reflexivity.
Qed.

End Locations.

(** ** Division of Numbers

    The quotient of two positive finite Numbers is [rne] of the exact
    quotient at the exponent that the operands fix; it does not decrease
    where the dividend grows. *)

Section Division.

Ltac fold_Z :=
  change IntDef.Z.max with Z.max in *; change IntDef.Z.sub with Z.sub in *;
  change IntDef.Z.add with Z.add in *; change IntDef.Z.leb with Z.leb in *;
  change IntDef.Z.eqb with Z.eqb in *; change IntDef.Z.mul with Z.mul in *;
  change IntDef.Z.min with Z.min in *; change IntDef.Z.opp with Z.opp in *;
  change IntDef.Z.even with Z.even in *; change IntDef.Z.compare with Z.compare in *;
  change IntDef.Z.div_eucl with Z.div_eucl in *; change IntDef.Z.shiftl with Z.shiftl in *.

Lemma bias_value : bias = 4000.
Proof. reflexivity. Qed.

Lemma pow2_pos (a : Z) : 0 <= a -> 0 < 2 ^ a.
Proof.
  pose proof bias_value as Hbias. intros. apply Z.pow_pos_nonneg; lia. Qed.

Lemma pow2_split (a b : Z) : 0 <= a -> 0 <= b -> 2 ^ (a + b) = 2 ^ a * 2 ^ b.
Proof.
  pose proof bias_value as Hbias. intros. apply Z.pow_add_r; lia. Qed.

(** What validity says of a mantissa and its exponent. *)
Lemma bounded_inv (m : positive) (e : Z) :
  bounded prec emax m e = true ->
  -1074 <= e <= 971
  /\ Z.pos (digits2_pos m) <= 53
  /\ (-1074 < e -> Z.pos (digits2_pos m) = 53).
Proof.
  pose proof bias_value as Hbias.
  unfold bounded, canonical_mantissa. intros H.
  apply andb_true_iff in H as [Hc He]. fold_Z.
  apply Z.eqb_eq in Hc. apply Z.leb_le in He.
  unfold fexp, SpecFloat.emin, prec, emax in *. fold_Z. lia.
Qed.

Lemma Zdigits2_ge (q j : Z) : 0 <= j -> 2 ^ j <= q -> j + 1 <= Zdigits2 q.
Proof.
  pose proof bias_value as Hbias.
  intros Hj Hq. pose proof (pow2_pos j Hj).
  destruct (Zdigits2_bounds q ltac:(lia)) as [_ Hhi].
  destruct (Z_le_gt_dec (j + 1) (Zdigits2 q)) as [|Hgt]; [assumption|].
  assert (0 <= Zdigits2 q) by (destruct q; simpl; lia).
  assert (2 ^ Zdigits2 q <= 2 ^ j) by (apply Z.pow_le_mono_r; lia). lia.
Qed.

Lemma div_scale (c a b : Z) : 0 < c -> 0 < b -> (c * a) / (c * b) = a / b.
Proof.
  pose proof bias_value as Hbias. intros. apply Z.div_mul_cancel_l; lia. Qed.

Lemma SFdiv_rne (m1 m2 : positive) (e1 e2 : Z) :
  bounded prec emax m1 e1 = true -> bounded prec emax m2 e2 = true ->
  exists E : Z,
    -1074 <= E
    /\ Z.pos m1 * 2 ^ (e1 + bias) / (Z.pos m2 * 2 ^ (e2 + E + bias)) < 2 ^ 53
    /\ (-1074 < E ->
        2 ^ 52 <= Z.pos m1 * 2 ^ (e1 + bias) / (Z.pos m2 * 2 ^ (e2 + E + bias)))
    /\ SFdiv prec emax (S754_finite false m1 e1) (S754_finite false m2 e2)
       = round_finish false
           (rne (Z.pos m1 * 2 ^ (e1 + bias)) (Z.pos m2 * 2 ^ (e2 + E + bias))) E.
Proof.
  pose proof bias_value as Hbias.
  intros Hv1 Hv2.
  destruct (bounded_inv _ _ Hv1) as (He1 & Hd1 & _).
  destruct (bounded_inv _ _ Hv2) as (He2 & Hd2 & _).
  pose proof (digits2_lower m1) as Hl1. pose proof (digits2_upper m1) as Hu1.
  pose proof (digits2_lower m2) as Hl2. pose proof (digits2_upper m2) as Hu2.
  unfold SFdiv, SFdiv_core_binary. simpl Zdigits2. fold_Z.
  set (D1 := Z.pos (digits2_pos m1)) in *. set (D2 := Z.pos (digits2_pos m2)) in *.
  assert (HD1 : 1 <= D1) by (unfold D1; lia). assert (HD2 : 1 <= D2) by (unfold D2; lia).
  set (A := D1 + e1 - (D2 + e2)).
  set (e' := Z.min (fexp prec emax A) (e1 - e2)).
  assert (HfA : fexp prec emax A = Z.max (A - 53) (-1074)) by reflexivity.
  assert (He' : -2045 <= e' <= e1 - e2) by (unfold e'; rewrite HfA; lia).
  set (s := e1 - e2 - e').
  assert (Hs : 0 <= s) by (unfold s; lia).
  set (m' := match s with Z.pos _ => Z.shiftl (Z.pos m1) s | 0 => Z.pos m1 | Z.neg _ => 0 end).
  assert (Hm' : m' = Z.pos m1 * 2 ^ s).
  { unfold m'. destruct s as [|p|p] eqn:Hsp; [lia | | lia].
    apply Z.shiftl_mul_pow2. lia. }
  clearbody m'.
  pose proof (pow2_pos s Hs) as Hps.
  assert (Hm'pos : 0 < m') by (rewrite Hm'; apply Z.mul_pos_pos; lia).
  change (Z.div_eucl m' (Z.pos m2)) with (Z.div_eucl m' (Z.pos m2)).
  pose proof (Z.div_mod m' (Z.pos m2) ltac:(lia)) as Hdm.
  pose proof (Z.mod_pos_bound m' (Z.pos m2) ltac:(lia)) as Hmod.
  unfold Z.div, Z.modulo in Hdm, Hmod.
  pose proof (locates_new_location m' (Z.pos m2) ltac:(lia) ltac:(lia)) as Hloc.
  unfold Z.div, Z.modulo in Hloc.
  destruct (Z.div_eucl m' (Z.pos m2)) as [q r]. simpl fst in *. simpl snd in *.
  cbv beta iota. change (xorb false false) with false.
  rewrite (round_aux_locates false q e' _ m' (Z.pos m2) ltac:(lia) ltac:(lia) Hloc).
  assert (Hq0 : 0 <= q) by nia.
  assert (Hfq : fexp prec emax (Zdigits2 q + e') = Z.max (Zdigits2 q + e' - 53) (-1074))
    by reflexivity.
  assert (Hdq0 : 0 <= Zdigits2 q) by (destruct q; simpl; lia).
  (* with a normal quotient the quotient has at least 53 bits *)
  assert (Hbig : -1074 < e' -> 2 ^ 52 <= q /\ A <= Zdigits2 q + e').
  { intros Hn.
    assert (HA : e' <= A - 53) by (unfold e' in *; rewrite HfA in *; lia).
    set (j := D1 - 1 + s - D2).
    assert (Hj : 52 <= j) by (unfold j, s, A in *; lia).
    assert (Hqj : 2 ^ j <= q).
    { assert (Hnum : 2 ^ j * 2 ^ D2 <= m').
      { rewrite Hm'. rewrite <- pow2_split by lia.
        replace (j + D2) with ((D1 - 1) + s) by (unfold j; lia).
        rewrite pow2_split by lia.
        apply Z.mul_le_mono_nonneg_r; lia. }
      pose proof (pow2_pos j ltac:(lia)) as Hpj.
      destruct (Z_le_gt_dec (2 ^ j) q) as [|Hgt]; [assumption|]. exfalso.
      assert (Z.pos m2 * (q + 1) <= Z.pos m2 * 2 ^ j)
        by (apply Z.mul_le_mono_nonneg_l; lia).
      assert (2 ^ j * Z.pos m2 <= 2 ^ j * 2 ^ D2)
        by (apply Z.mul_le_mono_nonneg_l; lia).
      lia. }
    split.
    - assert (2 ^ 52 <= 2 ^ j) by (apply Z.pow_le_mono_r; lia). lia.
    - pose proof (Zdigits2_ge q j ltac:(lia) Hqj). unfold j, s, A in *. lia. }
  assert (Hle : e' <= fexp prec emax (Zdigits2 q + e')).
  { rewrite Hfq. destruct (Z_le_gt_dec e' (-1074)) as [|Hn]; [lia|].
    destruct (Hbig ltac:(lia)) as [_ HA'].
    assert (e' <= A - 53) by (unfold e' in *; rewrite HfA in *; lia). lia. }
  set (E := fexp prec emax (Zdigits2 q + e')) in *.
  rewrite Z.max_r by lia.
  replace (e' + (E - e')) with E by lia.
  set (k := E - e') in *.
  assert (Hk : 0 <= k) by (unfold k; lia).
  pose proof (pow2_pos k Hk) as Hpk.
  exists E.
  (* the common factor between the two ways of writing the quotient *)
  set (c := 2 ^ (e2 + e' + bias)).
  assert (Hc : 0 < c) by (apply pow2_pos; lia).
  assert (HN : Z.pos m1 * 2 ^ (e1 + bias) = c * m').
  { rewrite Hm'. unfold c.
    replace (e1 + bias) with ((e2 + e' + bias) + s) by (unfold s; lia).
    rewrite pow2_split by lia. ring. }
  assert (HD : Z.pos m2 * 2 ^ (e2 + E + bias) = c * (Z.pos m2 * 2 ^ k)).
  { unfold c. replace (e2 + E + bias) with ((e2 + e' + bias) + k) by (unfold k; lia).
    rewrite pow2_split by lia. ring. }
  assert (Hden : 0 < Z.pos m2 * 2 ^ k) by (apply Z.mul_pos_pos; lia).
  rewrite HN, HD, div_scale, rne_scale by assumption.
  assert (Hfloor : m' / (Z.pos m2 * 2 ^ k) = q / 2 ^ k).
  { rewrite <- Z.div_div by lia. f_equal.
    symmetry. apply Z.div_unique with r; lia. }
  rewrite Hfloor.
  split; [lia|]. split; [|split; [|reflexivity]].
  - apply Z.div_lt_upper_bound; [lia|].
    destruct (Z.eq_dec q 0) as [->|Hq]; [lia|].
    destruct (Zdigits2_bounds q ltac:(lia)) as [_ Hhi].
    assert (2 ^ Zdigits2 q <= 2 ^ (k + 53))
      by (apply Z.pow_le_mono_r; [lia | unfold k; lia]).
    rewrite pow2_split in H by lia. lia.
  - intros HE.
    assert (HEq : E = Zdigits2 q + e' - 53) by lia.
    assert (Hqpos : 0 < q).
    { destruct (Z.eq_dec q 0) as [->|Hq]; [|lia].
      simpl in HEq. destruct (Hbig ltac:(lia)) as [H52 _].
      pose proof (pow2_pos 52 ltac:(lia)). lia. }
    destruct (Zdigits2_bounds q Hqpos) as [Hlo _].
    apply Z.div_le_lower_bound; [lia|].
    replace (Zdigits2 q - 1) with (k + 52) in Hlo by (unfold k; lia).
    rewrite pow2_split in Hlo by lia. lia.
Qed.

(** The result of a rounding is not negative and not above infinity. *)
Lemma round_finish_cases (M E : Z) :
  0 <= M <= 2 ^ 53 -> -1074 <= E ->
  round_finish false M E = S754_zero false
  \/ round_finish false M E = S754_infinity false
  \/ exists m e, round_finish false M E = S754_finite false m e.
Proof.
  pose proof bias_value as Hbias.
  intros HM HE. rewrite round_finish_spec by assumption.
  destruct (M =? 0); [left; reflexivity | right].
  destruct (M <? 2 ^ 53).
  - destruct (E <=? emax - prec); [right; eauto | left; reflexivity].
  - destruct (E + 1 <=? emax - prec); [right; eauto | left; reflexivity].
Qed.

Lemma finite_le (m m' : positive) (e e' : Z) :
  e < e' \/ (e = e' /\ (m <= m')%positive) ->
  SFleb (S754_finite false m e) (S754_finite false m' e') = true.
Proof.
  pose proof bias_value as Hbias.
  intros Hkey. unfold SFleb, SFcompare. fold_Z.
  destruct Hkey as [Hlt | [Heq Hle]].
  - replace (e ?= e') with Lt by (symmetry; apply Z.compare_lt_iff; exact Hlt). reflexivity.
  - rewrite Heq, Z.compare_refl.
    change (Pos.compare_cont Eq m m') with (m ?= m')%positive.
    destruct (m ?= m')%positive eqn:Hc; try reflexivity.
    apply Pos.compare_gt_iff in Hc. lia.
Qed.

Lemma round_finish_le (M E M' E' : Z) :
  0 <= M <= 2 ^ 53 -> -1074 <= E -> (-1074 < E -> 2 ^ 52 <= M) ->
  0 <= M' <= 2 ^ 53 -> -1074 <= E' -> (-1074 < E' -> 2 ^ 52 <= M') ->
  E < E' \/ (E = E' /\ M <= M') ->
  SFleb (round_finish false M E) (round_finish false M' E') = true.
Proof.
  pose proof bias_value as Hbias.
  intros HM HE Hn HM' HE' Hn' Hord.
  rewrite !round_finish_spec by assumption.
  change (emax - prec) with 971.
  assert (H52 : Z.pos (2 ^ 52)%positive = 2 ^ 52) by reflexivity.
  destruct (Z.eqb_spec M 0) as [H0 | H0].
  { destruct (M' =? 0); [reflexivity|].
    destruct (M' <? 2 ^ 53).
    - destruct (E' <=? 971); reflexivity.
    - destruct (E' + 1 <=? 971); reflexivity. }
  assert (HM'0 : M' <> 0).
  { pose proof (pow2_pos 52 ltac:(lia)). lia. }
  replace (M' =? 0) with false by (symmetry; apply Z.eqb_neq; exact HM'0).
  destruct (Z.ltb_spec M (2 ^ 53)) as [Hm | Hm];
    destruct (Z.ltb_spec M' (2 ^ 53)) as [Hm' | Hm'];
    repeat match goal with
           | |- context [?a <=? 971] => destruct (Z.leb_spec a 971)
           end;
    try reflexivity; try (exfalso; lia); apply finite_le.
  - destruct Hord as [Hlt | [Heq Hle]]; [left; exact Hlt | right].
    split; [exact Heq|]. lia.
  - left. lia.
  - destruct (Z.eq_dec (E + 1) E') as [He|]; [right | left; lia].
    split; [exact He|]. specialize (Hn' ltac:(lia)). lia.
  - destruct Hord as [Hlt | [Heq Hle]]; [left; lia | right].
    split; [lia|]. reflexivity.
Qed.

(** Numbers are dealt with through their value scaled to an integer:
    [m * 2 ^ (e + bias)] for mantissa [m] and exponent [e]. *)
Lemma SFleb_value (m m' : positive) (e e' : Z) :
  bounded prec emax m e = true -> bounded prec emax m' e' = true ->
  SFleb (S754_finite false m e) (S754_finite false m' e') = true
  <-> Z.pos m * 2 ^ (e + bias) <= Z.pos m' * 2 ^ (e' + bias).
Proof.
  pose proof bias_value as Hbias.
  intros Hv Hv'.
  destruct (bounded_inv _ _ Hv) as (He & Hd & Hn).
  destruct (bounded_inv _ _ Hv') as (He' & Hd' & Hn').
  pose proof (digits2_lower m) as Hl. pose proof (digits2_upper m) as Hu.
  pose proof (digits2_lower m') as Hl'. pose proof (digits2_upper m') as Hu'.
  assert (H53 : forall p, Z.pos (digits2_pos p) <= 53 -> Z.pos p < 2 ^ 53).
  { intros p Hp. pose proof (digits2_upper p).
    assert (2 ^ Z.pos (digits2_pos p) <= 2 ^ 53) by (apply Z.pow_le_mono_r; lia). lia. }
  pose proof (H53 m Hd) as Hm53. pose proof (H53 m' Hd') as Hm53'.
  assert (Hstrict : forall (a b : positive) (x y : Z),
            -1074 <= x -> x < y -> y <= 971 ->
            Z.pos a < 2 ^ 53 -> 2 ^ 52 <= Z.pos b ->
            Z.pos a * 2 ^ (x + bias) < Z.pos b * 2 ^ (y + bias)).
  { intros a b x y Hx Hxy Hy Ha Hb.
    replace (y + bias) with ((y - x - 1) + (1 + (x + bias))) by lia.
    rewrite (pow2_split (y - x - 1) (1 + (x + bias))), (pow2_split 1 (x + bias)) by lia.
    change (2 ^ 1) with 2.
    pose proof (pow2_pos (x + bias) ltac:(lia)) as Hp.
    pose proof (pow2_pos (y - x - 1) ltac:(lia)) as Hp'.
    change (2 ^ 52) with 4503599627370496 in *.
    change (2 ^ 53) with 9007199254740992 in *.
    assert (Z.pos a * 2 ^ (x + bias) < 9007199254740992 * 2 ^ (x + bias))
      by (apply Z.mul_lt_mono_pos_r; lia).
    assert (4503599627370496 * (2 * 2 ^ (x + bias))
            <= Z.pos b * (2 * 2 ^ (x + bias)))
      by (apply Z.mul_le_mono_nonneg_r; lia).
    assert (Z.pos b * (1 * (2 * 2 ^ (x + bias)))
            <= Z.pos b * (2 ^ (y - x - 1) * (2 * 2 ^ (x + bias)))).
    { apply Z.mul_le_mono_nonneg_l; [lia|].
      apply Z.mul_le_mono_nonneg_r; lia. }
    lia. }
  unfold SFleb, SFcompare. fold_Z.
  destruct (Z.compare_spec e e') as [Heq | Hlt | Hgt].
  - subst e'. change (Pos.compare_cont Eq m m') with (m ?= m')%positive.
    pose proof (pow2_pos (e + bias) ltac:(lia)) as Hp.
    destruct (Pos.compare_spec m m') as [Hc | Hc | Hc]; split; try reflexivity;
      try discriminate; intros H.
    + subst. lia.
    + apply Z.mul_le_mono_nonneg_r; lia.
    + exfalso. apply Z.mul_le_mono_pos_r in H; lia.
  - split; [intros _ | reflexivity].
    apply Z.lt_le_incl. apply Hstrict; try lia.
    rewrite (Hn' ltac:(lia)) in Hl'. exact Hl'.
  - split; [discriminate|]. intros H. exfalso.
    assert (Z.pos m' * 2 ^ (e' + bias) < Z.pos m * 2 ^ (e + bias)); [|lia].
    apply Hstrict; try lia.
    rewrite (Hn ltac:(lia)) in Hl. exact Hl.
Qed.

Lemma SFdiv_mono (m1 m1' m2 : positive) (e1 e1' e2 : Z) :
  bounded prec emax m1 e1 = true -> bounded prec emax m1' e1' = true ->
  bounded prec emax m2 e2 = true ->
  Z.pos m1 * 2 ^ (e1 + bias) <= Z.pos m1' * 2 ^ (e1' + bias) ->
  SFleb (SFdiv prec emax (S754_finite false m1 e1) (S754_finite false m2 e2))
        (SFdiv prec emax (S754_finite false m1' e1') (S754_finite false m2 e2)) = true.
Proof.
  pose proof bias_value as Hbias.
  intros Hv1 Hv1' Hv2 Hle.
  destruct (SFdiv_rne m1 m2 e1 e2 Hv1 Hv2) as (E & HE & Hup & Hlow & ->).
  destruct (SFdiv_rne m1' m2 e1' e2 Hv1' Hv2) as (E' & HE' & Hup' & Hlow' & ->).
  destruct (bounded_inv _ _ Hv1) as (He1 & _).
  destruct (bounded_inv _ _ Hv1') as (He1' & _).
  destruct (bounded_inv _ _ Hv2) as (He2 & _).
  set (N := Z.pos m1 * 2 ^ (e1 + bias)) in *.
  set (N' := Z.pos m1' * 2 ^ (e1' + bias)) in *.
  set (D := Z.pos m2 * 2 ^ (e2 + E + bias)) in *.
  set (D' := Z.pos m2 * 2 ^ (e2 + E' + bias)) in *.
  assert (HN : 0 <= N) by (unfold N; pose proof (pow2_pos (e1 + bias) ltac:(lia)); nia).
  assert (HN' : 0 <= N') by lia.
  assert (HD : 0 < D) by (unfold D; apply Z.mul_pos_pos; [lia | apply pow2_pos; lia]).
  assert (HD' : 0 < D') by (unfold D'; apply Z.mul_pos_pos; [lia | apply pow2_pos; lia]).
  pose proof (rne_bounds N D HD) as Hb. pose proof (rne_bounds N' D' HD') as Hb'.
  assert (Hfl : 0 <= N / D) by (apply Z.div_pos; lia).
  assert (Hfl' : 0 <= N' / D') by (apply Z.div_pos; lia).
  apply round_finish_le; try lia.
  destruct (Z.lt_trichotomy E E') as [Hlt | [Heq | Hgt]]; [left; exact Hlt | |].
  - right. split; [exact Heq|]. unfold D'. rewrite <- Heq. fold D. apply rne_mono; assumption.
  - exfalso.
    assert (H1 : 2 ^ 52 * D <= N).
    { specialize (Hlow ltac:(lia)). pose proof (Z.mul_div_le N D HD).
      assert (D * 2 ^ 52 <= D * (N / D)) by (apply Z.mul_le_mono_nonneg_l; lia). lia. }
    assert (H2 : N' < 2 ^ 53 * D').
    { destruct (Z_lt_ge_dec N' (2 ^ 53 * D')) as [|Hge]; [assumption|]. exfalso.
      assert (2 ^ 53 <= N' / D') by (apply Z.div_le_lower_bound; lia). lia. }
    assert (H3 : 2 * D' <= D).
    { unfold D, D'.
      replace (e2 + E + bias) with ((E - E' - 1) + (1 + (e2 + E' + bias))) by lia.
      rewrite (pow2_split (E - E' - 1) (1 + (e2 + E' + bias))),
        (pow2_split 1 (e2 + E' + bias)) by lia.
      change (2 ^ 1) with 2.
      pose proof (pow2_pos (E - E' - 1) ltac:(lia)).
      pose proof (pow2_pos (e2 + E' + bias) ltac:(lia)).
      assert (Z.pos m2 * (1 * (2 * 2 ^ (e2 + E' + bias)))
              <= Z.pos m2 * (2 ^ (E - E' - 1) * (2 * 2 ^ (e2 + E' + bias)))).
      { apply Z.mul_le_mono_nonneg_l; [lia|]. apply Z.mul_le_mono_nonneg_r; lia. }
      lia. }
    change (2 ^ 52) with 4503599627370496 in *.
    change (2 ^ 53) with 9007199254740992 in *. lia.
Qed.

End Division.

(** ** Comparison, division and [toFixed] on exact values

    [scaled] reads a Number that is not negative as an integer; the
    order of Numbers is the order of these integers, and a division by a
    power of two is exact. *)

Section Values.

Ltac fold_Z :=
  change IntDef.Z.max with Z.max in *; change IntDef.Z.sub with Z.sub in *;
  change IntDef.Z.add with Z.add in *; change IntDef.Z.leb with Z.leb in *;
  change IntDef.Z.eqb with Z.eqb in *; change IntDef.Z.mul with Z.mul in *;
  change IntDef.Z.min with Z.min in *; change IntDef.Z.opp with Z.opp in *;
  change IntDef.Z.even with Z.even in *; change IntDef.Z.compare with Z.compare in *;
  change IntDef.Z.div_eucl with Z.div_eucl in *; change IntDef.Z.shiftl with Z.shiftl in *.

Lemma SFcompare_value (m m' : positive) (e e' : Z) :
  bounded prec emax m e = true -> bounded prec emax m' e' = true ->
  SFcompare (S754_finite false m e) (S754_finite false m' e')
  = Some (Z.pos m * 2 ^ (e + bias) ?= Z.pos m' * 2 ^ (e' + bias)).
Proof.
  pose proof bias_value as Hbias.
  intros Hv Hv'.
  pose proof (SFleb_value m m' e e' Hv Hv') as H1.
  pose proof (SFleb_value m' m e' e Hv' Hv) as H2.
  unfold SFleb in H1, H2. unfold SFcompare in *. fold_Z.
  set (a := Z.pos m * 2 ^ (e + bias)) in *. set (b := Z.pos m' * 2 ^ (e' + bias)) in *.
  rewrite (Z.compare_antisym e e') in H2.
  assert (Hanti : Pos.compare_cont Eq m' m = CompOpp (Pos.compare_cont Eq m m')).
  { change (Pos.compare_cont Eq m' m) with (m' ?= m)%positive.
    change (Pos.compare_cont Eq m m') with (m ?= m')%positive.
    apply Pos.compare_antisym. }
  rewrite Hanti in H2. f_equal.
  destruct (Z.compare_spec a b) as [Hab | Hab | Hab];
    destruct (e ?= e'); simpl in H1, H2;
    try destruct (Pos.compare_cont Eq m m'); simpl in H1, H2;
    try reflexivity; exfalso;
    try (assert (a <= b) by (apply H1; reflexivity); lia);
    try (assert (b <= a) by (apply H2; reflexivity); lia);
    try (assert (false = true) by (apply H1; lia); discriminate);
    try (assert (false = true) by (apply H2; lia); discriminate).
Qed.

Lemma scaled_valid (x : float) (m : positive) (e : Z) (s : bool) :
  Prim2SF x = S754_finite s m e -> bounded prec emax m e = true.
Proof.
  pose proof bias_value as Hbias.
  intros H. pose proof (Prim2SF_valid x) as Hv. rewrite H in Hv. exact Hv.
Qed.

Lemma scaled_nonneg (x : float) (a : Z) : scaled x = Some a -> 0 <= a.
Proof.
  pose proof bias_value as Hbias.
  unfold scaled. destruct (Prim2SF x) as [s|s| |[] m e] eqn:Hx; try discriminate;
    intros H; injection H as <-; [lia|].
  destruct (bounded_inv _ _ (scaled_valid _ _ _ _ Hx)) as (He & _).
  pose proof (pow2_pos (e + bias) ltac:(lia)). lia.
Qed.

Lemma scaled_compare (x y : float) (a b : Z) :
  scaled x = Some a -> scaled y = Some b ->
  SFcompare (Prim2SF x) (Prim2SF y) = Some (a ?= b).
Proof.
  pose proof bias_value as Hbias.
  unfold scaled.
  destruct (Prim2SF x) as [s|s| |[] m e] eqn:Hx; try discriminate;
    destruct (Prim2SF y) as [s'|s'| |[] m' e'] eqn:Hy; try discriminate;
    intros Ha Hb; injection Ha as <-; injection Hb as <-.
  - reflexivity.
  - destruct (bounded_inv _ _ (scaled_valid _ _ _ _ Hy)) as (He & _).
    pose proof (pow2_pos (e' + bias) ltac:(lia)).
    unfold SFcompare. f_equal. symmetry. apply Z.compare_lt_iff. lia.
  - destruct (bounded_inv _ _ (scaled_valid _ _ _ _ Hx)) as (He & _).
    pose proof (pow2_pos (e + bias) ltac:(lia)).
    unfold SFcompare. f_equal. symmetry. apply Z.compare_gt_iff. lia.
  - apply SFcompare_value; eapply scaled_valid; eassumption.
Qed.

Lemma scaled_leb (x y : float) (a b : Z) :
  scaled x = Some a -> scaled y = Some b -> (x <=? y)%float = (a <=? b).
Proof.
  pose proof bias_value as Hbias.
  intros Ha Hb. rewrite leb_spec. unfold SFleb.
  rewrite (scaled_compare x y a b Ha Hb). unfold Z.leb.
  destruct (a ?= b); reflexivity.
Qed.

Lemma scaled_ltb (x y : float) (a b : Z) :
  scaled x = Some a -> scaled y = Some b -> (x <? y)%float = (a <? b).
Proof.
  pose proof bias_value as Hbias.
  intros Ha Hb. rewrite ltb_spec. unfold SFltb.
  rewrite (scaled_compare x y a b Ha Hb). unfold Z.ltb.
  destruct (a ?= b); reflexivity.
Qed.

(** A Number that is at least zero is zero, positive and finite, or
    [+Infinity]. *)
Lemma nonneg_cases (x : float) :
  (0 <=? x)%float = true ->
  (exists a, scaled x = Some a) \/ Prim2SF x = S754_infinity false.
Proof.
  pose proof bias_value as Hbias.
  rewrite leb_spec. unfold scaled. change (Prim2SF 0) with (S754_zero false).
  destruct (Prim2SF x) as [s|[]| |[] m e]; try discriminate; eauto.
Qed.

(** Below a finite Number there are only finite ones. *)
Lemma scaled_below (x y : float) (b : Z) :
  (0 <=? x)%float = true -> (x <=? y)%float = true -> scaled y = Some b ->
  exists a, scaled x = Some a /\ a <= b.
Proof.
  pose proof bias_value as Hbias.
  intros H0 Hxy Hy.
  destruct (nonneg_cases x H0) as [[a Ha] | Hinf].
  - exists a. split; [exact Ha|].
    rewrite (scaled_leb x y a b Ha Hy) in Hxy. apply Z.leb_le. exact Hxy.
  - exfalso. rewrite leb_spec, Hinf in Hxy. unfold scaled in Hy.
    destruct (Prim2SF y) as [s|s| |[] m e]; discriminate.
Qed.

Lemma scaled_of_Z (j : Z) :
  0 <= j < 2 ^ 53 -> scaled (Number.of_Z j) = Some (j * 2 ^ bias).
Proof.
  pose proof bias_value as Hbias.
  intros Hj. destruct (Z.eq_dec j 0) as [-> | Hne]; [reflexivity|].
  destruct (Prim2SF_of_Z_value j ltac:(lia)) as (m & e & Hsf & He & Hm & _).
  unfold scaled. rewrite Hsf, Hm. f_equal.
  replace (2 ^ bias) with (2 ^ (- e) * 2 ^ (e + bias)); [ring|].
  rewrite <- pow2_split by lia. f_equal. lia.
Qed.

Lemma scaled_positive (d : float) (b : Z) :
  scaled d = Some b -> 0 < b ->
  exists m e, Prim2SF d = S754_finite false m e /\ b = Z.pos m * 2 ^ (e + bias)
              /\ bounded prec emax m e = true.
Proof.
  pose proof bias_value as Hbias.
  unfold scaled. destruct (Prim2SF d) as [s|s| |[] m e] eqn:Hd; try discriminate;
    intros H Hb; injection H as <-; [lia|].
  exists m, e. split; [reflexivity|]. split; [reflexivity|].
  eapply scaled_valid; eassumption.
Qed.

Lemma SFdiv_cases (m1 m2 : positive) (e1 e2 : Z) :
  bounded prec emax m1 e1 = true -> bounded prec emax m2 e2 = true ->
  SFdiv prec emax (S754_finite false m1 e1) (S754_finite false m2 e2) = S754_zero false
  \/ SFdiv prec emax (S754_finite false m1 e1) (S754_finite false m2 e2)
     = S754_infinity false
  \/ exists m e,
       SFdiv prec emax (S754_finite false m1 e1) (S754_finite false m2 e2)
       = S754_finite false m e.
Proof.
  pose proof bias_value as Hbias.
  intros Hv1 Hv2.
  destruct (SFdiv_rne m1 m2 e1 e2 Hv1 Hv2) as (E & HE & Hup & _ & ->).
  destruct (bounded_inv _ _ Hv1) as (He1 & _).
  destruct (bounded_inv _ _ Hv2) as (He2 & _).
  assert (HD : 0 < Z.pos m2 * 2 ^ (e2 + E + bias))
    by (apply Z.mul_pos_pos; [lia | apply pow2_pos; lia]).
  pose proof (rne_bounds (Z.pos m1 * 2 ^ (e1 + bias)) _ HD) as Hb.
  assert (0 <= Z.pos m1 * 2 ^ (e1 + bias) / (Z.pos m2 * 2 ^ (e2 + E + bias))).
  { apply Z.div_pos; [|lia]. pose proof (pow2_pos (e1 + bias) ltac:(lia)). lia. }
  apply round_finish_cases; lia.
Qed.

(** The quotient of a Number that is at least zero by a positive finite
    one is at least zero. *)
Lemma div_nonneg (x d : float) (b : Z) :
  (0 <=? x)%float = true -> scaled d = Some b -> 0 < b ->
  (0 <=? x / d)%float = true.
Proof.
  pose proof bias_value as Hbias.
  intros Hx Hd Hb.
  destruct (scaled_positive d b Hd Hb) as (m2 & e2 & Hsd & _ & Hv2).
  rewrite leb_spec in *. rewrite div_spec, Hsd. unfold SF64div.
  change (Prim2SF 0) with (S754_zero false) in *.
  destruct (Prim2SF x) as [s|[]| |[] m1 e1] eqn:Hsx; try discriminate; try reflexivity.
  destruct (SFdiv_cases m1 m2 e1 e2 (scaled_valid _ _ _ _ Hsx) Hv2)
    as [-> | [-> | (m & e & ->)]]; reflexivity.
Qed.

(** Division by a positive finite Number is monotone on the Numbers that
    are at least zero. *)
Lemma div_mono (x y d : float) (b : Z) :
  (0 <=? x)%float = true -> (x <=? y)%float = true ->
  scaled d = Some b -> 0 < b ->
  (x / d <=? y / d)%float = true.
Proof.
  pose proof bias_value as Hbias.
  intros H0 Hxy Hd Hb.
  destruct (scaled_positive d b Hd Hb) as (m2 & e2 & Hsd & _ & Hv2).
  assert (Hy0 : (0 <=? y)%float = true).
  { rewrite leb_spec in *. change (Prim2SF 0) with (S754_zero false) in *.
    destruct (Prim2SF x) as [s|[]| |[] m1 e1]; try discriminate;
      destruct (Prim2SF y) as [s'|[]| |[] m1' e1']; try discriminate; reflexivity. }
  destruct (nonneg_cases y Hy0) as [[a' Hy] | Hinf].
  - destruct (scaled_below x y a' H0 Hxy Hy) as (a & Hx & Hle).
    rewrite leb_spec, !div_spec, Hsd. unfold SF64div.
    unfold scaled in Hx, Hy.
    destruct (Prim2SF x) as [s|s| |[] m1 e1] eqn:Hsx; try discriminate;
      destruct (Prim2SF y) as [s'|s'| |[] m1' e1'] eqn:Hsy; try discriminate;
      injection Hx as <-; injection Hy as <-.
    + reflexivity.
    + destruct (SFdiv_cases m1' m2 e1' e2 (scaled_valid _ _ _ _ Hsy) Hv2)
        as [-> | [-> | (m & e & ->)]]; reflexivity.
    + exfalso.
      destruct (bounded_inv _ _ (scaled_valid _ _ _ _ Hsx)) as (He & _).
      pose proof (pow2_pos (e1 + bias) ltac:(lia)). lia.
    + apply SFdiv_mono; try assumption; eapply scaled_valid; eassumption.
  - pose proof (div_nonneg x d b H0 Hd Hb) as Hq.
    rewrite leb_spec in *. rewrite !div_spec in *. rewrite Hsd, Hinf in *.
    unfold SF64div in *. change (Prim2SF 0) with (S754_zero false) in *.
    change (SFdiv prec emax (S754_infinity false) (S754_finite false m2 e2))
      with (S754_infinity false).
    destruct (SFdiv prec emax (Prim2SF x) (S754_finite false m2 e2)) as [s|[]| |[] m e];
      try discriminate; reflexivity.
Qed.

(** Division by a power of two is exact. *)
Lemma div_pow2_exact (x d : float) (a t : Z) :
  0 < a < 2 ^ 53 -> 0 <= t <= 1000 ->
  scaled x = Some (a * 2 ^ bias) -> scaled d = Some (2 ^ (t + bias)) ->
  scaled (x / d) = Some (a * 2 ^ (bias - t)).
Proof.
  pose proof bias_value as Hbias.
  intros Ha Ht Hx Hd.
  pose proof (pow2_pos bias ltac:(lia)) as Hp4.
  destruct (scaled_positive x _ Hx ltac:(nia)) as (m1 & e1 & Hsx & HN & Hv1).
  destruct (scaled_positive d _ Hd ltac:(apply pow2_pos; lia)) as (m2 & e2 & Hsd & HW & Hv2).
  destruct (bounded_inv _ _ Hv1) as (He1 & _).
  destruct (bounded_inv _ _ Hv2) as (He2 & _).
  unfold scaled. rewrite div_spec, Hsx, Hsd. unfold SF64div.
  destruct (SFdiv_rne m1 m2 e1 e2 Hv1 Hv2) as (E & HE & Hup & Hlow & ->).
  rewrite <- HN in *.
  set (Dn := Z.pos m2 * 2 ^ (e2 + E + bias)) in *.
  assert (HDn : Dn = 2 ^ (t + E + bias)).
  { apply (Z.mul_reg_r _ _ (2 ^ 1100)); [pose proof (pow2_pos 1100 ltac:(lia)); lia|].
    unfold Dn. rewrite <- Z.mul_assoc, <- !pow2_split by lia.
    replace (e2 + E + bias + 1100) with ((e2 + bias) + (E + 1100)) by lia.
    rewrite pow2_split, Z.mul_assoc, <- HW by lia.
    rewrite <- pow2_split by lia. f_equal. lia. }
  assert (HE0 : E <= 971).
  { destruct (Z_le_gt_dec E 971) as [|Hgt]; [assumption|]. exfalso.
    specialize (Hlow ltac:(lia)).
    assert (a * 2 ^ bias / Dn < 2 ^ 52); [|lia].
    apply Z.div_lt_upper_bound; [rewrite HDn; apply pow2_pos; lia|].
    rewrite HDn.
    replace (t + E + bias) with (bias + (t + E)) by lia. rewrite pow2_split by lia.
    pose proof (pow2_pos (t + E) ltac:(lia)).
    assert (2 ^ 1 <= 2 ^ (t + E)) by (apply Z.pow_le_mono_r; lia).
    change (2 ^ 1) with 2 in *. change (2 ^ 53) with (2 * 2 ^ 52) in Ha.
    pose proof (pow2_pos 52 ltac:(lia)).
    assert (a * 2 ^ bias < 2 * 2 ^ 52 * 2 ^ bias) by (apply Z.mul_lt_mono_pos_r; lia).
    assert (2 ^ bias * 2 * 2 ^ 52 <= 2 ^ bias * 2 ^ (t + E) * 2 ^ 52).
    { apply Z.mul_le_mono_nonneg_r; [lia|]. apply Z.mul_le_mono_nonneg_l; lia. }
    lia. }
  assert (Hneg : t + E <= 0).
  { destruct (Z_le_gt_dec (t + E) 0) as [|Hgt]; [assumption|]. exfalso.
    specialize (Hlow ltac:(lia)).
    assert (a * 2 ^ bias / Dn < 2 ^ 52); [|lia].
    apply Z.div_lt_upper_bound; [rewrite HDn; apply pow2_pos; lia|].
    rewrite HDn.
    replace (t + E + bias) with (bias + (t + E)) by lia. rewrite pow2_split by lia.
    pose proof (pow2_pos (t + E) ltac:(lia)).
    assert (2 ^ 1 <= 2 ^ (t + E)) by (apply Z.pow_le_mono_r; lia).
    change (2 ^ 1) with 2 in *. change (2 ^ 53) with (2 * 2 ^ 52) in Ha.
    pose proof (pow2_pos 52 ltac:(lia)).
    assert (a * 2 ^ bias < 2 * 2 ^ 52 * 2 ^ bias) by (apply Z.mul_lt_mono_pos_r; lia).
    assert (2 ^ bias * 2 * 2 ^ 52 <= 2 ^ bias * 2 ^ (t + E) * 2 ^ 52).
    { apply Z.mul_le_mono_nonneg_r; [lia|]. apply Z.mul_le_mono_nonneg_l; lia. }
    lia. }
  set (u := - (t + E)).
  assert (Hu : 0 <= u) by (unfold u; lia).
  pose proof (pow2_pos u Hu) as Hpu.
  assert (HDpos : 0 < Dn) by (rewrite HDn; apply pow2_pos; lia).
  assert (Hexact : a * 2 ^ bias = (a * 2 ^ u) * Dn).
  { rewrite HDn, <- Z.mul_assoc, <- pow2_split by lia. do 2 f_equal. unfold u. lia. }
  assert (Hrne : rne (a * 2 ^ bias) Dn = a * 2 ^ u).
  { unfold rne. rewrite Hexact, Z.div_mul, Z.mod_mul by lia.
    replace (2 * 0 ?= Dn) with Lt by (symmetry; apply Z.compare_lt_iff; lia).
    reflexivity. }
  rewrite Hrne.
  assert (HM : 0 < a * 2 ^ u < 2 ^ 53).
  { split; [nia|]. rewrite Hexact, Z.div_mul in Hup by lia. exact Hup. }
  rewrite round_finish_spec by lia.
  replace (a * 2 ^ u =? 0) with false by (symmetry; apply Z.eqb_neq; lia).
  replace (a * 2 ^ u <? 2 ^ 53) with true by (symmetry; apply Z.ltb_lt; lia).
  replace (E <=? emax - prec) with true by (symmetry; apply Z.leb_le; unfold emax, prec; lia).
  rewrite Z2Pos.id by lia. f_equal.
  rewrite <- Z.mul_assoc, <- pow2_split by lia. do 2 f_equal. unfold u. lia.
Qed.

Lemma floor_scaled (q : float) (a : Z) :
  scaled q = Some a ->
  scaled (Platform.Math_floor q) = Some (a / 2 ^ bias * 2 ^ bias).
Proof.
  pose proof bias_value as Hbias.
  pose proof (pow2_pos bias ltac:(lia)) as HB.
  intros Hq. unfold Platform.Math_floor. unfold scaled in Hq.
  destruct (Prim2SF q) as [s|s| |[] m e] eqn:Hsq; try discriminate; injection Hq as <-.
  - unfold scaled. rewrite Hsq. rewrite Z.div_0_l by lia. reflexivity.
  - destruct (bounded_inv _ _ (scaled_valid _ _ _ _ Hsq)) as (He & Hd & _).
    destruct (Z.leb_spec 0 e) as [Hpos | Hneg].
    + unfold scaled. rewrite Hsq. f_equal.
      rewrite pow2_split, Z.mul_assoc, Z.div_mul by lia. reflexivity.
    + pose proof (pow2_pos (- e) ltac:(lia)) as Hpe.
      pose proof (pow2_pos (e + bias) ltac:(lia)) as Hpb.
      assert (Hm : Z.pos m < 2 ^ 53).
      { pose proof (digits2_upper m).
        assert (2 ^ Z.pos (digits2_pos m) <= 2 ^ 53) by (apply Z.pow_le_mono_r; lia). lia. }
      assert (Hquot : Z.pos m * 2 ^ (e + bias) / 2 ^ bias = Z.pos m / 2 ^ (- e)).
      { replace (2 ^ bias) with (2 ^ (e + bias) * 2 ^ (- e))
          by (rewrite <- pow2_split by lia; f_equal; lia).
        rewrite (Z.mul_comm (Z.pos m)). apply div_scale; lia. }
      rewrite Hquot. apply scaled_of_Z. split; [apply Z.div_pos; lia|].
      apply Z.div_lt_upper_bound; [lia|]. nia.
Qed.

Lemma scaled_trunc (x : float) (a : Z) :
  scaled x = Some a ->
  Number.trunc x = a / 2 ^ bias
  /\ Number.is_finite x = true /\ Number.is_negative x = false.
Proof.
  pose proof bias_value as Hbias.
  pose proof (pow2_pos bias ltac:(lia)) as HB.
  unfold scaled, Number.trunc, Number.is_finite, Number.is_negative, Number.magnitude.
  destruct (Prim2SF x) as [s|s| |[] m e] eqn:Hsx; try discriminate;
    intros H; injection H as <-.
  - rewrite Z.div_0_l by lia. auto.
  - destruct (bounded_inv _ _ (scaled_valid _ _ _ _ Hsx)) as (He & _).
    split; [|auto].
    destruct (Z.leb_spec 0 e) as [Hpos | Hneg].
    + rewrite pow2_split, Z.mul_assoc, Z.div_mul, Z.div_1_r by lia. reflexivity.
    + pose proof (pow2_pos (- e) ltac:(lia)) as Hpe.
      pose proof (pow2_pos (e + bias) ltac:(lia)) as Hpb.
      replace (2 ^ bias) with (2 ^ (e + bias) * 2 ^ (- e))
        by (rewrite <- pow2_split by lia; f_equal; lia).
      rewrite (Z.mul_comm (Z.pos m)). symmetry. apply div_scale; lia.
Qed.

Lemma scaled_is_integer (x : float) (j : Z) :
  scaled x = Some (j * 2 ^ bias) -> Platform.is_integer x = true.
Proof.
  pose proof bias_value as Hbias.
  pose proof (pow2_pos bias ltac:(lia)) as HB.
  unfold scaled, Platform.is_integer, Number.magnitude.
  destruct (Prim2SF x) as [s|s| |[] m e] eqn:Hsx; try discriminate;
    intros H; injection H as H.
  - reflexivity.
  - destruct (bounded_inv _ _ (scaled_valid _ _ _ _ Hsx)) as (He & _).
    destruct (Z.leb_spec 0 e) as [Hpos | Hneg].
    + rewrite Z.mod_1_r. reflexivity.
    + pose proof (pow2_pos (- e) ltac:(lia)) as Hpe.
      pose proof (pow2_pos (e + bias) ltac:(lia)) as Hpb.
      apply Z.eqb_eq.
      assert (Hm : Z.pos m = j * 2 ^ (- e)).
      { apply (Z.mul_reg_r _ _ (2 ^ (e + bias))); [lia|].
        rewrite H, <- Z.mul_assoc, <- pow2_split by lia. do 2 f_equal. lia. }
      rewrite Hm. apply Z.mod_mul. lia.
Qed.

Lemma toFixed_scaled (x : float) (a : Z) (f : nat) :
  scaled x = Some a -> a < 10 ^ 21 * 2 ^ bias ->
  Number.toFixed x f
  = Number.fixed_digits f ((2 * a * 10 ^ Z.of_nat f + 2 ^ bias) / (2 * 2 ^ bias)).
Proof.
  pose proof bias_value as Hbias.
  pose proof (pow2_pos bias ltac:(lia)) as HB.
  intros Hx Hsmall.
  assert (Hten : 0 < 10 ^ Z.of_nat f) by (apply Z.pow_pos_nonneg; lia).
  assert (Hfrac : forall num den, 0 < den -> num * 2 ^ bias = a * den ->
            (10 ^ 21 * den <=? num) = false
            /\ Number.nearest_scaled f num den
               = (2 * a * 10 ^ Z.of_nat f + 2 ^ bias) / (2 * 2 ^ bias)).
  { intros num den Hden Heq. split.
    - apply Z.leb_gt.
      apply (Z.mul_lt_mono_pos_r (2 ^ bias)); [lia|]. rewrite Heq.
      assert (a * den < 10 ^ 21 * 2 ^ bias * den) by (apply Z.mul_lt_mono_pos_r; lia).
      lia.
    - unfold Number.nearest_scaled.
      rewrite <- (div_scale (2 ^ bias) (2 * num * 10 ^ Z.of_nat f + den) (2 * den))
        by lia.
      rewrite <- (div_scale den (2 * a * 10 ^ Z.of_nat f + 2 ^ bias) (2 * 2 ^ bias))
        by lia.
      f_equal; [|ring].
      replace (2 ^ bias * (2 * num * 10 ^ Z.of_nat f + den))
        with (2 * (num * 2 ^ bias) * 10 ^ Z.of_nat f + 2 ^ bias * den) by ring.
      rewrite Heq. ring. }
  destruct (scaled_trunc x a Hx) as (_ & Hfin & Hneg).
  unfold Number.toFixed. rewrite Hfin, Hneg. cbn [negb].
  unfold scaled in Hx. unfold Number.magnitude.
  destruct (Prim2SF x) as [s|s| |[] m e] eqn:Hsx; try discriminate; injection Hx as Ha.
  - destruct (Hfrac 0 1 ltac:(lia) ltac:(lia)) as [-> ->]. reflexivity.
  - destruct (bounded_inv _ _ (scaled_valid _ _ _ _ Hsx)) as (He & _).
    destruct (Z.leb_spec 0 e) as [Hpos | Hnege].
    + destruct (Hfrac (Z.pos m * 2 ^ e) 1 ltac:(lia)) as [-> ->]; [|reflexivity].
      rewrite <- Ha, pow2_split by lia. ring.
    + pose proof (pow2_pos (- e) ltac:(lia)) as Hpe.
      destruct (Hfrac (Z.pos m) (2 ^ (- e)) Hpe) as [-> ->]; [|reflexivity].
      rewrite <- Ha, <- Z.mul_assoc, <- pow2_split by lia. do 2 f_equal. lia.
Qed.

End Values.

(** ** The index of [formatSize] (line 117)

    On a platform with [log_platform] the index does not decrease where
    the byte count grows, so what it is at two byte counts it is between
    them. *)

Section Index.

Variable Math_log : float -> float.
Hypothesis Hplatform : log_platform Math_log.

Lemma platform_denominator :
  exists b, scaled (Math_log 1024) = Some b /\ 0 < b.
Proof.
  pose proof bias_value as Hbias.
  destruct Hplatform as (_ & _ & Hpos & Hfin).
  rewrite ltb_spec in Hpos. unfold Number.is_finite in Hfin. unfold scaled.
  change (Prim2SF 0) with (S754_zero false) in Hpos.
  destruct (Prim2SF (Math_log 1024)) as [s|s| |[] m e] eqn:Hd; try discriminate.
  destruct (bounded_inv _ _ (scaled_valid _ _ _ _ Hd)) as (He & _).
  eexists. split; [reflexivity|].
  apply Z.mul_pos_pos; [lia | apply pow2_pos; lia].
Qed.

Lemma platform_log_nonneg (x : Z) :
  1 <= x < 2 ^ 53 -> (0 <=? Math_log (Number.of_Z x))%float = true.
Proof.
  intros Hx. destruct Hplatform as (Hone & Hmono & _).
  specialize (Hmono 1 x ltac:(lia) ltac:(lia) ltac:(lia)).
  change (Number.of_Z 1) with 1%float in Hmono. rewrite Hone in Hmono. exact Hmono.
Qed.

Lemma quotient_nonneg (x : Z) :
  1 <= x < 2 ^ 53 ->
  (0 <=? Math_log (Number.of_Z x) / Math_log 1024)%float = true.
Proof.
  intros Hx. destruct platform_denominator as (b & Hb & Hbpos).
  apply (div_nonneg _ _ b); [apply platform_log_nonneg; exact Hx | exact Hb | exact Hbpos].
Qed.

Lemma quotient_mono (x y : Z) :
  1 <= x -> x <= y -> y < 2 ^ 53 ->
  (Math_log (Number.of_Z x) / Math_log 1024
   <=? Math_log (Number.of_Z y) / Math_log 1024)%float = true.
Proof.
  intros Hx Hxy Hy. destruct platform_denominator as (b & Hb & Hbpos).
  apply (div_mono _ _ _ b); [apply platform_log_nonneg; lia | | exact Hb | exact Hbpos].
  destruct Hplatform as (_ & Hmono & _). apply Hmono; lia.
Qed.

(** A quotient whose floor is a small integer is finite, and that
    integer is the whole part of its value. *)
Lemma floor_inversion (q : float) (j : Z) :
  (0 <=? q)%float = true -> 0 <= j < 2 ^ 53 ->
  Platform.Math_floor q = Number.of_Z j ->
  exists a, scaled q = Some a /\ a / 2 ^ bias = j.
Proof.
  pose proof bias_value as Hbias.
  pose proof (pow2_pos bias ltac:(lia)) as HB.
  intros Hq Hj Hfloor.
  pose proof (scaled_of_Z j Hj) as Hsj.
  destruct (nonneg_cases q Hq) as [[a Ha] | Hinf].
  - exists a. split; [exact Ha|].
    pose proof (floor_scaled q a Ha) as Hf. rewrite Hfloor, Hsj in Hf.
    injection Hf as Hf. apply (Z.mul_reg_r _ _ (2 ^ bias)); lia.
  - exfalso. unfold Platform.Math_floor in Hfloor. rewrite Hinf in Hfloor.
    rewrite <- Hfloor in Hsj. unfold scaled in Hsj. rewrite Hinf in Hsj. discriminate.
Qed.

(** Between two byte counts with the same index, the index is the
    same. *)
Lemma index_between (j lo hi bytes : Z) :
  0 <= j < 2 ^ 53 -> 1 <= lo -> lo <= bytes -> bytes <= hi -> hi < 2 ^ 53 ->
  Platform.size_index Math_log lo = Number.of_Z j ->
  Platform.size_index Math_log hi = Number.of_Z j ->
  scaled (Platform.size_index Math_log bytes) = Some (j * 2 ^ bias).
Proof.
  pose proof bias_value as Hbias.
  pose proof (pow2_pos bias ltac:(lia)) as HB.
  intros Hj Hlo Hb Hhi Hmax Hilo Hihi. unfold Platform.size_index in *.
  destruct (floor_inversion _ j (quotient_nonneg lo ltac:(lia)) Hj Hilo)
    as (alo & Hqlo & Hjlo).
  destruct (floor_inversion _ j (quotient_nonneg hi ltac:(lia)) Hj Hihi)
    as (ahi & Hqhi & Hjhi).
  destruct (scaled_below _ _ ahi (quotient_nonneg bytes ltac:(lia))
              (quotient_mono bytes hi ltac:(lia) ltac:(lia) ltac:(lia)) Hqhi)
    as (a & Hq & Hle).
  pose proof (quotient_mono lo bytes ltac:(lia) ltac:(lia) ltac:(lia)) as Hge.
  rewrite (scaled_leb _ _ alo a Hqlo Hq) in Hge. apply Z.leb_le in Hge.
  rewrite (floor_scaled _ a Hq). do 2 f_equal.
  pose proof (Z.div_le_mono alo a (2 ^ bias) HB Hge).
  pose proof (Z.div_le_mono a ahi (2 ^ bias) HB Hle). lia.
Qed.


(** An index with the value [j]: what [sizes[i]] and [Math.pow(k, i)]
    are. *)
Lemma index_uses (i : float) (j : Z) (sizes : list string) (k : Z) :
  scaled i = Some (j * 2 ^ bias) ->
  Platform.element sizes i
  = match sizes !! Z.to_nat j with Some u => u | None => "undefined" end
  /\ (0 <= j -> Platform.Math_pow k i = Number.of_Z (k ^ j)).
Proof.
  pose proof bias_value as Hbias.
  pose proof (pow2_pos bias ltac:(lia)) as HB.
  intros Hi. destruct (scaled_trunc _ _ Hi) as (Htrunc & Hfin & Hneg).
  rewrite Z.div_mul in Htrunc by lia. split.
  - unfold Platform.element.
    rewrite Hfin, Hneg, (scaled_is_integer _ _ Hi), Htrunc. reflexivity.
  - intros Hj. unfold Platform.Math_pow. rewrite Htrunc.
    replace (0 <=? j) with true by (symmetry; apply Z.leb_le; exact Hj).
    unfold scaled in Hi.
    destruct (Prim2SF i) as [s|s| |[] m e]; try discriminate; reflexivity.
Qed.

(** What [formatSize] returns when the index is [j] and [1024^j] does
    not exceed the byte count. *)
Lemma formatSize_at_index (bytes j : Z) :
  0 < bytes < 2 ^ 53 -> 0 <= j <= 2 ->
  scaled (Platform.size_index Math_log bytes) = Some (j * 2 ^ bias) ->
  Platform.formatSize Math_log bytes
  = (Number.toString
       (Number.parseFloat
          (Number.fixed_digits 2 (round_div (100 * bytes) (1024 ^ j))))
     ++ " "
     ++ match ["Bytes"; "KB"; "MB"] !! Z.to_nat j with
        | Some u => u
        | None => "undefined"
        end)%string.
Proof.
  pose proof bias_value as Hbias.
  pose proof (pow2_pos bias ltac:(lia)) as HB.
  intros Hb Hj Hi.
  unfold Platform.formatSize.
  replace (bytes =? 0) with false by (symmetry; apply Z.eqb_neq; lia).
  cbv zeta. change (Number.of_Z 1024) with 1024%float.
  change (Platform.Math_floor (Math_log (Number.of_Z bytes) / Math_log 1024)%float)
    with (Platform.size_index Math_log bytes).
  destruct (index_uses _ j ["Bytes"; "KB"; "MB"] 1024 Hi) as [-> Hpow].
  rewrite (Hpow ltac:(lia)).
  set (t := 10 * j).
  assert (Hk : 1024 ^ j = 2 ^ t).
  { unfold t. assert (Hc : j = 0 \/ j = 1 \/ j = 2) by lia.
    destruct Hc as [-> | [-> | ->]]; reflexivity. }
  pose proof (pow2_pos t ltac:(unfold t; lia)) as Hpt.
  assert (Hden : scaled (Number.of_Z (1024 ^ j)) = Some (2 ^ (t + bias))).
  { rewrite scaled_of_Z.
    - rewrite Hk, <- pow2_split by (unfold t; lia). reflexivity.
    - rewrite Hk. split; [lia|]. apply Z.pow_lt_mono_r; unfold t; lia. }
  pose proof (div_pow2_exact (Number.of_Z bytes) (Number.of_Z (1024 ^ j)) bytes t
                ltac:(lia) ltac:(unfold t; lia)
                (scaled_of_Z bytes ltac:(lia)) Hden) as Hx.
  pose proof (pow2_pos (bias - t) ltac:(unfold t; lia)) as Hpc.
  assert (Hsplit : 2 ^ bias = 2 ^ (bias - t) * 2 ^ t).
  { rewrite <- pow2_split by (unfold t; lia). f_equal. lia. }
  rewrite (toFixed_scaled _ _ 2 Hx).
  - do 4 f_equal. unfold round_div. change (10 ^ Z.of_nat 2) with 100.
    rewrite Hk, Hsplit.
    replace (2 * (bytes * 2 ^ (bias - t)) * 100 + 2 ^ (bias - t) * 2 ^ t)
      with (2 ^ (bias - t) * (2 * (100 * bytes) + 2 ^ t)) by ring.
    replace (2 * (2 ^ (bias - t) * 2 ^ t)) with (2 ^ (bias - t) * (2 * 2 ^ t)) by ring.
    apply div_scale; lia.
  - rewrite Hsplit.
    assert (bytes * 2 ^ (bias - t) < 10 ^ 21 * 2 ^ (bias - t))
      by (apply Z.mul_lt_mono_pos_r; [lia|]; change (2 ^ 53) with 9007199254740992 in Hb;
          change (10 ^ 21) with 1000000000000000000000; lia).
    assert (10 ^ 21 * 2 ^ (bias - t) * 1 <= 10 ^ 21 * 2 ^ (bias - t) * 2 ^ t)
      by (apply Z.mul_le_mono_nonneg_l;
          [change (10 ^ 21) with 1000000000000000000000; lia | lia]).
    lia.
Qed.

Lemma index_of_one : Platform.size_index Math_log 1 = Number.of_Z 0.
Proof.
  destruct platform_denominator as (b & Hb & Hbpos).
  destruct (scaled_positive _ _ Hb Hbpos) as (m & e & Hd & _).
  destruct Hplatform as (Hone & _).
  unfold Platform.size_index. change (Number.of_Z 1) with 1%float. rewrite Hone.
  assert (Hq : (0 / Math_log 1024)%float = 0%float).
  { apply Prim2SF_inj. rewrite div_spec, Hd. reflexivity. }
  rewrite Hq. reflexivity.
Qed.

End Index.

(** ** [formatSize] (lines 113-119) *)

Lemma of_Z_ltb (x c : Z) :
  0 <= x < 2 ^ 53 -> 0 <= c < 2 ^ 53 ->
  (Number.of_Z x <? Number.of_Z c)%float = (x <? c).
Proof.
  pose proof bias_value as Hbias.
  pose proof (pow2_pos bias ltac:(lia)) as HB.
  intros Hx Hc.
  rewrite (scaled_ltb _ _ _ _ (scaled_of_Z x Hx) (scaled_of_Z c Hc)).
  destruct (Z.ltb_spec x c) as [Hlt | Hge].
  - apply Z.ltb_lt. apply Z.mul_lt_mono_pos_r; lia.
  - apply Z.ltb_ge. apply Z.mul_le_mono_nonneg_r; lia.
Qed.

Lemma sampled_log_of_Z (x : Z) :
  0 <= x < 2 ^ 53 ->
  sampled_log (Number.of_Z x)
  = if x <? 1023 then 0%float
    else if x <? 1024 then 6.930494765951626%float
    else if x <? 1048575 then 6.931471805599453%float
    else if x <? 1048576 then 13.862942657524135%float
    else if x <? 1073741823 then 13.862943611198906%float
    else if x <? 1073741824 then 20.794415415867036%float
    else 20.79441541679836%float.
Proof.
  intros Hx. unfold sampled_log.
  change 1023%float with (Number.of_Z 1023).
  change 1024%float with (Number.of_Z 1024).
  change 1048575%float with (Number.of_Z 1048575).
  change 1048576%float with (Number.of_Z 1048576).
  change 1073741823%float with (Number.of_Z 1073741823).
  change 1073741824%float with (Number.of_Z 1073741824).
  rewrite !of_Z_ltb by first [exact Hx | split; [lia | reflexivity]].
  reflexivity.
Qed.

Lemma sampled_log_platform : log_platform sampled_log.
Proof.
  split; [reflexivity|]. split; [|split; reflexivity].
  intros x y Hx Hxy Hy.
  rewrite !sampled_log_of_Z by lia.
  repeat match goal with
         | |- context [?a <? ?b] => destruct (Z.ltb_spec a b)
         end; try lia; reflexivity.
Qed.

(** Where the platform's index is the integer logarithm, [formatSize]
    returns what it returns with the exact index. *)
Lemma formatSize_exact_index (Math_log : float -> float) (bytes i : Z) :
  0 < bytes < 2 ^ 53 ->
  Math_floor_log bytes 1024 = Some i ->
  Platform.size_index Math_log bytes = Number.of_Z i ->
  Platform.formatSize Math_log bytes = formatSize bytes.
Proof.
  intros Hb Hi Hidx.
  destruct (Math_floor_log_spec bytes 1024 ltac:(lia) ltac:(lia))
    as (i' & Hi' & Hi0 & Hrange).
  rewrite Hi in Hi'. injection Hi' as <-.
  assert (Hi53 : i < 53).
  { destruct (Z_lt_ge_dec i 53) as [|Hge]; [assumption|].
    assert (1024 ^ 53 <= 1024 ^ i) by (apply Z.pow_le_mono_r; lia).
    assert (2 ^ 53 < 1024 ^ 53) by reflexivity. lia. }
  assert (Hs : scaled (Platform.size_index Math_log bytes) = Some (i * 2 ^ bias)).
  { rewrite Hidx. apply scaled_of_Z. split; [lia|].
    assert (53 < 2 ^ 53) by reflexivity. lia. }
  destruct (index_uses _ i ["Bytes"; "KB"; "MB"] 1024 Hs) as (Hel & Hpow).
  unfold Platform.formatSize, formatSize.
  replace (bytes =? 0) with false by (symmetry; apply Z.eqb_neq; lia).
  cbv zeta. change (Number.of_Z 1024) with 1024%float.
  change (Platform.Math_floor (Math_log (Number.of_Z bytes) / Math_log 1024)%float)
    with (Platform.size_index Math_log bytes).
  rewrite Hel, (Hpow Hi0), Hi. unfold Math_pow, element.
  replace (0 <=? i) with true by (symmetry; apply Z.leb_le; exact Hi0).
  reflexivity.
Qed.

(** C9.  [formatSize] writes a byte count in units of 1024: below 1024
    cubed the unit is "Bytes", "KB" or "MB" with the power 0, 1 or 2 of
    1024 that the byte count has reached, and the number before it is the
    byte count divided by that power, rounded to two decimal places
    (halves up) and written as a Number is written, without zeros at the
    end; 0 gives "0 Bytes", 1536 gives "1.5 KB" and 3145728 gives "3 MB".
    [Math.log] is taken from the platform: it is assumed not to decrease
    where its argument grows, and to give the exact index at the five
    byte counts next to a power of 1024. *)
Theorem formatSize_units (Math_log : float -> float) :
  log_platform Math_log ->
  Platform.size_index Math_log 1023 = 0%float ->
  Platform.size_index Math_log 1024 = 1%float ->
  Platform.size_index Math_log 1048575 = 1%float ->
  Platform.size_index Math_log 1048576 = 2%float ->
  Platform.size_index Math_log 1073741823 = 2%float ->
  Platform.formatSize Math_log 0 = "0 Bytes"
  /\ Platform.formatSize Math_log 1536 = "1.5 KB"
  /\ Platform.formatSize Math_log 3145728 = "3 MB"
  /\ (forall bytes : Z,
        0 < bytes < 1024 ^ 3 ->
        exists (i : Z) (unit : string),
          In (i, unit) [(0, "Bytes"); (1, "KB"); (2, "MB")]
          /\ 1024 ^ i <= bytes < 1024 ^ (i + 1)
          /\ Platform.formatSize Math_log bytes
             = (Number.toString
                  (Number.parseFloat
                     (Number.fixed_digits 2 (round_div (100 * bytes) (1024 ^ i))))
                ++ " " ++ unit)%string).
Proof.
  intros Hplatform H1023 H1024 H1048575 H1048576 H1073741823.
  pose proof (index_of_one Math_log Hplatform) as H1.
  assert (Hgeneral : forall bytes : Z,
            0 < bytes < 1024 ^ 3 ->
            exists (i : Z) (unit : string),
              In (i, unit) [(0, "Bytes"); (1, "KB"); (2, "MB")]
              /\ 1024 ^ i <= bytes < 1024 ^ (i + 1)
              /\ Platform.formatSize Math_log bytes
                 = (Number.toString
                      (Number.parseFloat
                         (Number.fixed_digits 2 (round_div (100 * bytes) (1024 ^ i))))
                    ++ " " ++ unit)%string).
  { intros bytes Hb. change (1024 ^ 3) with 1073741824 in Hb.
    assert (H53 : 1073741824 < 2 ^ 53) by reflexivity.
    destruct (Z_lt_ge_dec bytes 1024) as [Hlt1 | Hge1];
      [|destruct (Z_lt_ge_dec bytes 1048576) as [Hlt2 | Hge2]].
    - exists 0, "Bytes". split; [simpl; tauto|]. split; [simpl; lia|].
      apply (formatSize_at_index Math_log bytes 0); try lia.
      apply (index_between Math_log Hplatform 0 1 1023 bytes);
        first [lia | exact H1 | exact H1023].
    - exists 1, "KB". split; [simpl; tauto|]. split; [simpl; lia|].
      apply (formatSize_at_index Math_log bytes 1); try lia.
      apply (index_between Math_log Hplatform 1 1024 1048575 bytes);
        first [lia | exact H1024 | exact H1048575].
    - exists 2, "MB". split; [simpl; tauto|]. split; [simpl; lia|].
      apply (formatSize_at_index Math_log bytes 2); try lia.
      apply (index_between Math_log Hplatform 2 1048576 1073741823 bytes);
        first [lia | exact H1048576 | exact H1073741823]. }
  split; [reflexivity|]. split; [|split; [|exact Hgeneral]].
  - destruct (Hgeneral 1536 ltac:(split; [lia | reflexivity]))
      as (i & unit & Hin & Hrange & ->).
    assert (i = 1).
    { simpl in Hin. destruct Hin as [H | [H | [H | []]]]; injection H as <- <-;
        simpl in Hrange; lia. }
    subst i. simpl in Hin. destruct Hin as [H | [H | [H | []]]]; try discriminate.
    injection H as <-. vm_compute. reflexivity.
  - destruct (Hgeneral 3145728 ltac:(split; [lia | reflexivity]))
      as (i & unit & Hin & Hrange & ->).
    assert (i = 2).
    { simpl in Hin. destruct Hin as [H | [H | [H | []]]]; injection H as <- <-;
        simpl in Hrange; lia. }
    subst i. simpl in Hin. destruct Hin as [H | [H | [H | []]]]; try discriminate.
    injection H as <-. vm_compute. reflexivity.
Qed.

Lemma formatSize_units_witness :
  Platform.formatSize sampled_log 0 = "0 Bytes"
  /\ Platform.formatSize sampled_log 1536 = "1.5 KB"
  /\ Platform.formatSize sampled_log 3145728 = "3 MB"
  /\ (forall bytes : Z,
        0 < bytes < 1024 ^ 3 ->
        exists (i : Z) (unit : string),
          In (i, unit) [(0, "Bytes"); (1, "KB"); (2, "MB")]
          /\ 1024 ^ i <= bytes < 1024 ^ (i + 1)
          /\ Platform.formatSize sampled_log bytes
             = (Number.toString
                  (Number.parseFloat
                     (Number.fixed_digits 2 (round_div (100 * bytes) (1024 ^ i))))
                ++ " " ++ unit)%string).
Proof.
  apply (formatSize_units sampled_log sampled_log_platform); vm_compute; reflexivity.
Defined.


